(** * Evolutionary signaling game with Polya-urn learners

    A shallow embedding of the notebook [4_Evo_Signaling_Game_Urn.ipynb]:
    the signaling environment, the [Gene] class with its variation
    operators, the urn learner, the creatures, the configuration cell and
    the evolution loop, followed by the properties of these definitions.

    Conventions of the embedding.
    - Python numbers that hold reals (gene values, ball counts, rewards,
      fitness) are exact rationals [Q]; indices, sizes and counters are
      [nat].  Rounding of binary floating point is not modelled there;
      where a property of the learner turns on rounding, it is stated on
      a second embedding of [train] and of the probabilities whose
      numbers are binary64 floats ([UrnAgent64]).
    - A method of a class is a computation in a state and exception monad
      whose state is the object it is called on ([self]), paired with the
      global generator [rng] when the method draws from it.
    - [Gene] objects live in a store addressed by position, because the loop
      passes references to them around. *)

From stdpp Require Import base list strings.
From Stdlib Require Import ZArith QArith Qabs Lia Lqa.
From Stdlib Require Floats.

Local Close Scope Q_scope.
Local Open Scope nat_scope.

(** ** Exceptions and the state/exception monad *)

Inductive exn : Type :=
| AssertionError
| AttributeError
| IndexError
| KeyError
| TypeError
| ValueError
| ZeroDivisionError
| DanglingReference  (* model only: a reference outside the gene store *)
| OutOfFuel.         (* model only: a [while] loop that used up its fuel *)

Inductive outcome (A : Type) : Type :=
| Ok (a : A)
| Raise (e : exn).
Arguments Ok {A} a.
Arguments Raise {A} e.

(** A computation over a mutable state [S]: it returns normally or raises,
    and in both cases leaves a state behind (what was mutated before an
    exception stays mutated). *)
Definition M (S A : Type) : Type := S -> outcome A * S.

Definition ret {S A} (a : A) : M S A := fun s => (Ok a, s).

Definition bind {S A B} (m : M S A) (k : A -> M S B) : M S B :=
  fun s => match m s with
           | (Ok a, s') => k a s'
           | (Raise e, s') => (Raise e, s')
           end.

Definition raise {S A} (e : exn) : M S A := fun s => (Raise e, s).
Definition get {S} : M S S := fun s => (Ok s, s).
Definition put {S} (s : S) : M S unit := fun _ => (Ok tt, s).
Definition modify {S} (f : S -> S) : M S unit := fun s => (Ok tt, f s).

Notation "'let*' x := c 'in' k" := (bind c (fun x => k))
  (at level 10, x pattern, c at level 100, k at level 200).
Notation "c ;; k" := (bind c (fun _ => k))
  (at level 100, k at level 200, right associativity).

(** Lift a pure result that may have raised. *)
Definition lift {S A} (o : outcome A) : M S A := fun s => (o, s).

(** Run a computation on a part [T] of the state [S]. [view] may raise (an
    index out of range, a missing key); then nothing is run. *)
Definition zoom {S T A} (view : S -> outcome T) (update : T -> S -> S)
    (m : M T A) : M S A :=
  fun s => match view s with
           | Ok t => let '(r, t') := m t in (r, update t' s)
           | Raise e => (Raise e, s)
           end.

(** [for x in xs: body x] *)
Fixpoint for_each {S A} (xs : list A) (body : A -> M S unit) : M S unit :=
  match xs with
  | [] => ret tt
  | x :: rest => body x ;; for_each rest body
  end.

(** [[f(x) for x in xs]] *)
Fixpoint map_m {S A B} (f : A -> M S B) (xs : list A) : M S (list B) :=
  match xs with
  | [] => ret []
  | x :: rest => let* y := f x in let* ys := map_m f rest in ret (y :: ys)
  end.

(** Python's [xs[i]] on a list. Indices are naturals here: the negative
    indices of Python never occur in this program. *)
Definition getitem {A} (xs : list A) (i : nat) : outcome A :=
  match xs !! i with
  | Some x => Ok x
  | None => Raise IndexError
  end.

(** ** Rational helpers *)

Definition Qltb (x y : Q) : bool := negb (Qle_bool y x).

Definition Qsum (xs : list Q) : Q := foldr Qplus 0%Q xs.

(** ** The generator [rng = np.random.default_rng()]

    The bit generator is an arbitrary stream of words, so that a statement
    quantified over [RNG] holds whatever the generator draws. Of NumPy's
    sampling routines the checks on the arguments and the set of results a
    draw can give are modelled; how many words a draw uses and with which
    probability a result comes out are not. *)

Record RNG : Type := mkRNG { words : nat -> Z; pos : nat }.

Module rng.

Definition next_uint64 : M RNG Z :=
  fun g => (Ok (words g (pos g) mod 2 ^ 64)%Z,
            {| words := words g; pos := S (pos g) |}).

(** [random()]: the top 53 bits of a word, scaled into [0, 1). *)
Definition random : M RNG Q :=
  let* w := next_uint64 in ret (Z.shiftr w 11 # 2 ^ 53)%Q.

(** A 2-D array of [rows] by [cols] draws, filled in row-major order. *)
Definition fill {A} (draw : M RNG A) (size : nat * nat) : M RNG (list (list A)) :=
  map_m (fun _ => map_m (fun _ => draw) (seq 0 (snd size))) (seq 0 (fst size)).

(** [rng.uniform(low, high)]: [low + (high - low) * random()]; the
    generator refuses a negative range. *)
Definition uniform1 (low high : Q) : M RNG Q :=
  let* u := random in ret (low + (high - low) * u)%Q.

Definition uniform (low high : Q) (size : nat * nat) : M RNG (list (list Q)) :=
  if Qltb high low then raise ValueError
  else fill (uniform1 low high) size.

(** [rng.integers(low, high)]: an integer of [low, high). *)
Definition integers1 (low high : nat) : M RNG nat :=
  if high <=? low then raise ValueError
  else let* w := next_uint64 in ret (low + Z.to_nat (w mod Z.of_nat (high - low)))%nat.

Definition integers (low high : nat) (size : nat * nat) : M RNG (list (list nat)) :=
  if high <=? low then raise ValueError
  else fill (integers1 low high) size.

(** Tolerance of the check that probabilities sum to one:
    the square root of the float64 machine epsilon [2^-52]. *)
Definition atol : Q := (1 # 2 ^ 26)%Q.

(** [p.cumsum()], with the sum so far as an accumulator. *)
Fixpoint cumsum_from (acc : Q) (xs : list Q) : list Q :=
  match xs with
  | [] => []
  | x :: rest => (acc + x)%Q :: cumsum_from (acc + x)%Q rest
  end.

Definition cumsum (p : list Q) : list Q := cumsum_from 0%Q p.

(** [cdf.searchsorted(u, side='right')]: how many entries are [<= u]. *)
Definition searchsorted_right (cdf : list Q) (u : Q) : nat :=
  length (filter (fun c => Qle_bool c u = true) cdf).

(** [rng.choice(n, p=p)]: the checks on [p], then inversion of the
    normalized cumulative distribution at one [random()] draw. The sum
    that is compared with one is exact here and a compensated float64 sum
    in NumPy, so the two can differ on sums within rounding of the
    tolerance; away from it (twice the tolerance is used below) they
    agree. *)
Definition choice_p (n : nat) (p : list Q) : M RNG nat :=
  if n =? 0 then raise ValueError
  else if negb (length p =? n) then raise ValueError
  else if existsb (fun x => Qltb x 0) p then raise ValueError
  else if Qltb atol (Qabs (Qsum p - 1)) then raise ValueError
  else
    let* u := random in
    let cdf := cumsum p in
    let total := List.last cdf 1%Q in
    ret (searchsorted_right (map (fun c => c / total)%Q cdf) u).

(** [rng.choice(xs, k, replace=False)] on the positions of a list of [n]
    elements: [k] distinct positions, by a partial Fisher-Yates shuffle.
    Which words give which sample differs from the library's algorithm;
    the samples that can come out are the same. *)
Definition swap (xs : list nat) (i j : nat) : list nat :=
  match xs !! i, xs !! j with
  | Some a, Some b => <[i := b]> (<[j := a]> xs)
  | _, _ => xs
  end.

Fixpoint shuffle_prefix (k i : nat) (xs : list nat) : M RNG (list nat) :=
  match k with
  | 0 => ret xs
  | S k' =>
      let* w := next_uint64 in
      let j := (i + Z.to_nat (w mod Z.of_nat (length xs - i)))%nat in
      shuffle_prefix k' (S i) (swap xs i j)
  end.

Definition choice_without_replacement (n k : nat) : M RNG (list nat) :=
  if n <? k then raise ValueError
  else let* xs := shuffle_prefix k 0 (seq 0 n) in ret (take k xs).

(** [rng.geometric(p)]: needs [0 < p <= 1]; a positive integer. Only the
    support is modelled: with [p = 1] the draw is [1], otherwise any
    positive integer, read off the next word. *)
Definition geometric (p : Q) : M RNG Z :=
  if Qle_bool p 0 || Qltb 1 p then raise ValueError
  else
    let* w := next_uint64 in
    ret (if Qle_bool 1 p then 1%Z else (1 + w)%Z).

End rng.

(** ** Array helpers of NumPy, on 2-D arrays as lists of rows *)

Module np.

Definition full {A} (size : nat * nat) (v : A) : list (list A) :=
  replicate (fst size) (replicate (snd size) v).

Definition ones (n : nat) : list Q := replicate n 1%Q.

(** Elementwise ternary on three rows of one length. NumPy would also
    broadcast a dimension of length one; the arrays of this program
    always have the shape their [size] says, and the model raises on
    every mismatch. *)
Fixpoint where_row {A} (mask : list bool) (xs ys : list A) : outcome (list A) :=
  match mask, xs, ys with
  | [], [], [] => Ok []
  | m :: mask', x :: xs', y :: ys' =>
      match where_row mask' xs' ys' with
      | Ok r => Ok ((if m then x else y) :: r)
      | Raise e => Raise e
      end
  | _, _, _ => Raise ValueError
  end.

Fixpoint where_ {A} (mask : list (list bool)) (xs ys : list (list A))
    : outcome (list (list A)) :=
  match mask, xs, ys with
  | [], [], [] => Ok []
  | m :: mask', x :: xs', y :: ys' =>
      match where_row m x y, where_ mask' xs' ys' with
      | Ok r, Ok rs => Ok (r :: rs)
      | Raise e, _ => Raise e
      | _, Raise e => Raise e
      end
  | _, _, _ => Raise ValueError
  end.

(** [xs += ys] on two rows of one length. *)
Fixpoint add_row (xs ys : list Q) : outcome (list Q) :=
  match xs, ys with
  | [], [] => Ok []
  | x :: xs', y :: ys' =>
      match add_row xs' ys' with
      | Ok r => Ok ((x + y)%Q :: r)
      | Raise e => Raise e
      end
  | _, _ => Raise ValueError
  end.

End np.

(** Methods that use the global generator run on the pair of the generator
    and [self]. *)
Definition on_rng {T A} (m : M RNG A) : M (RNG * T) A :=
  zoom (fun s => Ok (fst s)) (fun g s => (g, snd s)) m.

Definition on_self {T A} (m : M T A) : M (RNG * T) A :=
  zoom (fun s => Ok (snd s)) (fun t s => (fst s, t)) m.

(** ** The signaling environment *)

Module SignalingGameEnv.

(** [message] and [action] are attributes that neither [__init__] nor
    [reset] assigns: [None] stands for an attribute that does not exist
    yet, and reading it raises [AttributeError]. [success] holds Python's
    [None] or a boolean. *)
Record t : Type := mk {
  num_states : nat;
  num_messages : nat;
  state_dist : list Q;
  agent_names : list string;
  state : nat;
  success : option bool;
  done : bool;
  agent_selection : string;
  message : option nat;
  action : option nat
}.

Definition set_state (v : nat) (e : t) : t :=
  mk (num_states e) (num_messages e) (state_dist e) (agent_names e)
     v (success e) (done e) (agent_selection e) (message e) (action e).
Definition set_success (v : option bool) (e : t) : t :=
  mk (num_states e) (num_messages e) (state_dist e) (agent_names e)
     (state e) v (done e) (agent_selection e) (message e) (action e).
Definition set_done (v : bool) (e : t) : t :=
  mk (num_states e) (num_messages e) (state_dist e) (agent_names e)
     (state e) (success e) v (agent_selection e) (message e) (action e).
Definition set_agent_selection (v : string) (e : t) : t :=
  mk (num_states e) (num_messages e) (state_dist e) (agent_names e)
     (state e) (success e) (done e) v (message e) (action e).
Definition set_message (v : option nat) (e : t) : t :=
  mk (num_states e) (num_messages e) (state_dist e) (agent_names e)
     (state e) (success e) (done e) (agent_selection e) v (action e).
Definition set_action (v : option nat) (e : t) : t :=
  mk (num_states e) (num_messages e) (state_dist e) (agent_names e)
     (state e) (success e) (done e) (agent_selection e) (message e) v.

Definition reset : M (RNG * t) unit :=
  let* self := on_self get in
  let* s := on_rng (rng.choice_p (num_states self) (state_dist self)) in
  on_self (modify (set_state s)) ;;
  on_self (modify (set_success None)) ;;
  on_self (modify (set_done false)) ;;
  on_self (modify (set_agent_selection "sender")).

(** The constructor stores its arguments and calls [reset], which gives
    [state], [success], [done] and [agent_selection] their first values;
    the placeholders below are never read. *)
Definition __init__ (num_states num_messages : nat) (state_dist : list Q)
    : M RNG t :=
  fun g =>
    let self := mk num_states num_messages state_dist ["sender"; "receiver"]
                   0 None false "" None None in
    match reset (g, self) with
    | (Ok _, (g', self')) => (Ok self', g')
    | (Raise e, (g', _)) => (Raise e, g')
    end.

(** The result is [None] where Python's function falls off its end. *)
Definition observe (agent_name : string) : M t (option nat) :=
  let* self := get in
  if String.eqb agent_name "sender" then ret (Some (state self))
  else if String.eqb agent_name "receiver" then
    match message self with
    | Some m => ret (Some m)
    | None => raise AttributeError
    end
  else ret None.

Definition step (action : nat) : M t unit :=
  let* self := get in
  if done self then raise AssertionError
  else
    let agent_name := agent_selection self in
    if String.eqb agent_name "sender" then
      modify (set_message (Some action)) ;;
      modify (set_agent_selection "receiver")
    else if String.eqb agent_name "receiver" then
      modify (set_action (Some action)) ;;
      (let* self := get in
       modify (set_success (Some (state self =? action)))) ;;
      modify (set_done true)
    else ret tt.

End SignalingGameEnv.

(** ** Genes *)

Module Gene.

(** [init_values] is the string ['random'] or a number. *)
Inductive init_values_t : Type :=
| Random
| Literal (v : Q).

(** [size] is the pair [(rows, cols)]: every gene of the program is a
    2-D array, which is what the urn learner indexes. *)
Record t : Type := mk {
  size : nat * nat;
  min_val : Q;
  max_val : Q;
  init_values : init_values_t;
  values : list (list Q)
}.

Definition set_values (v : list (list Q)) (g : t) : t :=
  mk (size g) (min_val g) (max_val g) (init_values g) v.

Definition __init__ (size : nat * nat) (min_val max_val : Q)
    (init_values : init_values_t) : M RNG t :=
  match init_values with
  | Random =>
      let* vs := rng.uniform min_val max_val size in
      ret (mk size min_val max_val init_values vs)
  | Literal v =>
      ret (mk size min_val max_val init_values (np.full size v))
  end.

(** [self] is the state; the new gene is the result. *)
Definition crossover (other_gene : t) : M (RNG * t) t :=
  let* self := on_self get in
  let* new_gene :=
    on_rng (__init__ (size self) (min_val self) (max_val self) (init_values self)) in
  let* random_mask := on_rng (rng.integers 0 2 (size self)) in
  let* vs := lift (np.where_ (map (map (fun b => negb (b =? 0))) random_mask)
                             (values self) (values other_gene)) in
  ret (set_values vs new_gene).

(** Mutates [self] in place (and returns it, which no caller uses). *)
Definition mutate (mutation_rate : Q) : M (RNG * t) unit :=
  let* self := on_self get in
  let* u := on_rng (rng.uniform 0 1 (size self)) in
  let random_mask := map (map (fun x => Qltb x mutation_rate)) u in
  let* fresh := on_rng (rng.uniform (min_val self) (max_val self) (size self)) in
  let* vs := lift (np.where_ random_mask fresh (values self)) in
  on_self (modify (set_values vs)).

End Gene.

(** ** The urn learner *)

Module UrnAgent.

(** [bias_gene] is a reference into the gene store. A record of the
    buffer is [(obs, choice, reward)]. *)
Record t : Type := mk {
  bias_gene : nat;
  num_obs : nat;
  num_choices : nat;
  urn_balls : list (list Q);
  urn_sum_balls : list Q;
  train_buf : list (nat * nat * Q)
}.

Definition set_urn_balls (v : list (list Q)) (a : t) : t :=
  mk (bias_gene a) (num_obs a) (num_choices a) v (urn_sum_balls a) (train_buf a).
Definition set_urn_sum_balls (v : list Q) (a : t) : t :=
  mk (bias_gene a) (num_obs a) (num_choices a) (urn_balls a) v (train_buf a).
Definition set_train_buf (v : list (nat * nat * Q)) (a : t) : t :=
  mk (bias_gene a) (num_obs a) (num_choices a) (urn_balls a) (urn_sum_balls a) v.

(** The loop of the constructor that applies the innate bias. *)
Definition apply_bias (g : Gene.t) (obs : nat) : M t unit :=
  let* self := get in
  let* balls := lift (getitem (urn_balls self) obs) in
  let* bias := lift (getitem (Gene.values g) obs) in
  let* balls' := lift (np.add_row balls bias) in
  modify (set_urn_balls (<[obs := balls']> (urn_balls self))) ;;
  modify (fun a => set_urn_sum_balls (<[obs := Qsum balls']> (urn_sum_balls a)) a).

(** [ref] is where the gene [g] lives in the store. *)
Definition __init__ (ref : nat) (g : Gene.t) : outcome t :=
  let num_obs := fst (Gene.size g) in
  let num_choices := snd (Gene.size g) in
  let self := mk ref num_obs num_choices
                 (replicate num_obs (np.ones num_choices))
                 (replicate num_obs (inject_Z (Z.of_nat num_choices)))
                 [] in
  match for_each (seq 0 num_obs) (apply_bias g) self with
  | (Ok _, self') => Ok self'
  | (Raise e, _) => Raise e
  end.

(** [p = self.urn_balls[obs] / self.urn_sum_balls[obs]], with exact
    quotients; [UrnAgent64.probabilities] has the rounded ones. *)
Definition probabilities (obs : nat) : M t (list Q) :=
  let* self := get in
  let* balls := lift (getitem (urn_balls self) obs) in
  let* total := lift (getitem (urn_sum_balls self) obs) in
  ret (map (fun b => b / total)%Q balls).

Definition get_action (obs : nat) : M (RNG * t) nat :=
  let* self := on_self get in
  let* p := on_self (probabilities obs) in
  on_rng (rng.choice_p (num_choices self) p).

Definition store_buffer (obs choice : nat) : M t unit :=
  modify (fun a => set_train_buf (train_buf a ++ [(obs, choice, 0%Q)]) a).

Definition update_reward (reward : Q) : M t unit :=
  let* self := get in
  match List.last (map Some (train_buf self)) None with
  | Some (obs, choice, r) =>
      modify (set_train_buf
                (<[pred (length (train_buf self)) := (obs, choice, (r + reward)%Q)]>
                   (train_buf self)))
  | None => ret tt
  end.

(** The body of the loop of [train], for one record, with exact
    additions; [UrnAgent64.reinforce] has the rounded ones. *)
Definition reinforce (record : nat * nat * Q) : M t unit :=
  let '(obs, choice, reward) := record in
  let* self := get in
  let* balls := lift (getitem (urn_balls self) obs) in
  let* b := lift (getitem balls choice) in
  modify (set_urn_balls (<[obs := <[choice := (b + reward)%Q]> balls]> (urn_balls self))) ;;
  let* self := get in
  let* s := lift (getitem (urn_sum_balls self) obs) in
  modify (set_urn_sum_balls (<[obs := (s + reward)%Q]> (urn_sum_balls self))).

Definition train : M t unit :=
  let* self := get in
  for_each (train_buf self) reinforce ;;
  modify (set_train_buf []).

End UrnAgent.

(** ** The learner's numbers in binary64

    The counts, the running sums and the rewards of a learner are
    float64 in the program. Where a property of the learner turns on how
    additions and divisions round, it is stated on this second embedding
    of [train] and of the probabilities of [get_action], in which the
    numbers are the binary64 floats of the kernel and [+] and [/] round
    to nearest, ties to even, as NumPy's do. *)

Module UrnAgent64.
Import Floats.PrimFloat.

Record t : Type := mk {
  num_obs : nat;
  num_choices : nat;
  urn_balls : list (list float);
  urn_sum_balls : list float;
  train_buf : list (nat * nat * float)
}.

Definition set_urn_balls (v : list (list float)) (a : t) : t :=
  mk (num_obs a) (num_choices a) v (urn_sum_balls a) (train_buf a).
Definition set_urn_sum_balls (v : list float) (a : t) : t :=
  mk (num_obs a) (num_choices a) (urn_balls a) v (train_buf a).
Definition set_train_buf (v : list (nat * nat * float)) (a : t) : t :=
  mk (num_obs a) (num_choices a) (urn_balls a) (urn_sum_balls a) v.

(** [p = self.urn_balls[obs] / self.urn_sum_balls[obs]] *)
Definition probabilities (obs : nat) : M t (list float) :=
  let* self := get in
  let* balls := lift (getitem (urn_balls self) obs) in
  let* total := lift (getitem (urn_sum_balls self) obs) in
  ret (map (fun b => b / total)%float balls).

(** The body of the loop of [train], for one record. *)
Definition reinforce (record : nat * nat * float) : M t unit :=
  let '(obs, choice, reward) := record in
  let* self := get in
  let* balls := lift (getitem (urn_balls self) obs) in
  let* b := lift (getitem balls choice) in
  modify (set_urn_balls (<[obs := <[choice := (b + reward)%float]> balls]> (urn_balls self))) ;;
  let* self := get in
  let* s := lift (getitem (urn_sum_balls self) obs) in
  modify (set_urn_sum_balls (<[obs := (s + reward)%float]> (urn_sum_balls self))).

Definition train : M t unit :=
  let* self := get in
  for_each (train_buf self) reinforce ;;
  modify (set_train_buf []).

End UrnAgent64.


(** ** Dictionaries

    A Python [dict] with string keys, in insertion order. *)

Definition dict (A : Type) : Type := list (string * A).

Fixpoint dict_get {A} (d : dict A) (key : string) : outcome A :=
  match d with
  | [] => Raise KeyError
  | (k, v) :: rest => if String.eqb k key then Ok v else dict_get rest key
  end.

Fixpoint dict_set {A} (d : dict A) (key : string) (v : A) : dict A :=
  match d with
  | [] => [(key, v)]
  | (k, x) :: rest =>
      if String.eqb k key then (k, v) :: rest else (k, x) :: dict_set rest key v
  end.

(** ** The store of gene objects

    A reference to a [Gene] is its position in the store. Objects are only
    ever added; two references are the same object exactly when they are
    equal. *)

Definition alloc (g : Gene.t) : M (RNG * list Gene.t) nat :=
  fun s => (Ok (length (snd s)), (fst s, snd s ++ [g])).

Definition deref {S} (genes : S -> list Gene.t) (ref : nat) : M S Gene.t :=
  fun s => match genes s !! ref with
           | Some g => (Ok g, s)
           | None => (Raise DanglingReference, s)
           end.

(** Call a method on the gene object behind [ref]. *)
Definition at_ref {A} (ref : nat) (m : M (RNG * Gene.t) A)
    : M (RNG * list Gene.t) A :=
  zoom (fun s => match snd s !! ref with
                 | Some g => Ok (fst s, g)
                 | None => Raise DanglingReference
                 end)
       (fun t s => (fst t, <[ref := snd t]> (snd s))) m.

(** [Gene(size, min_val, max_val, init_values)] as an expression: a new
    object in the store. *)
Definition new_gene (size : nat * nat) (min_val max_val : Q)
    (init_values : Gene.init_values_t) : M (RNG * list Gene.t) nat :=
  let* g := on_rng (Gene.__init__ size min_val max_val init_values) in
  alloc g.

(** [a.crossover(b)] on references: the result is a new object. *)
Definition crossover_ref (self other_gene : nat) : M (RNG * list Gene.t) nat :=
  let* other := deref snd other_gene in
  let* new := at_ref self (Gene.crossover other) in
  alloc new.

Definition mutate_ref (self : nat) (mutation_rate : Q) : M (RNG * list Gene.t) unit :=
  at_ref self (Gene.mutate mutation_rate).

(** ** Creatures *)

Module Creature.

(** [bias_genes] maps a role to a reference into the gene store. The
    dictionary itself is never changed once a creature holds it, so it is
    kept by value. *)
Record t : Type := mk {
  bias_genes : dict nat;
  agents : dict UrnAgent.t;
  fitness : Q;
  lifespan : Z
}.

Definition set_agents (v : dict UrnAgent.t) (c : t) : t :=
  mk (bias_genes c) v (fitness c) (lifespan c).
Definition set_fitness (v : Q) (c : t) : t :=
  mk (bias_genes c) (agents c) v (lifespan c).
Definition set_lifespan (v : Z) (c : t) : t :=
  mk (bias_genes c) (agents c) (fitness c) v.

Definition make_agents (bias_genes : dict nat) : M (RNG * list Gene.t) (dict UrnAgent.t) :=
  (fix go (items : dict nat) (agents : dict UrnAgent.t) :=
     match items with
     | [] => ret agents
     | (agent_name, ref) :: rest =>
         let* g := deref snd ref in
         let* a := lift (UrnAgent.__init__ ref g) in
         go rest (dict_set agents agent_name a)
     end) bias_genes [].

Definition __init__ (bias_genes : dict nat) (lifespan_mean : Q)
    : M (RNG * list Gene.t) t :=
  let* agents := make_agents bias_genes in
  if Qeq_bool lifespan_mean 0 then raise ZeroDivisionError
  else
    let* lifespan := on_rng (rng.geometric (1 / lifespan_mean)) in
    ret (mk bias_genes agents 0 lifespan).

End Creature.

(** ** The configuration cell *)

Record Config : Type := mkConfig {
  num_states : nat;
  num_messages : nat;
  state_dist : list Q;
  pop_size : nat;
  num_episodes_per_creature : nat;
  min_bias : Q;
  max_bias : Q;
  init_bias : Gene.init_values_t;
  success_fitness : dict Q;
  success_reward : dict Q;
  tornament_size : nat;
  do_crossover : bool;
  mutation_rate : Q;
  lifespan_mean : Q;
  matching_bias : string;
  num_groups : nat;
  num_gen : nat
}.

(** The global variables the loop works on. Of the logs, those filled per
    episode are kept; the per-generation means and variances, the printing
    and the TensorBoard cell are left out. *)
Record World : Type := mkWorld {
  genes : list Gene.t;
  env : SignalingGameEnv.t;
  matching_dists : list (list Q);
  population : list Creature.t;
  log_success : list nat;
  log_rewards : dict (list Q);
  log_success_choice_biases : dict (list Q);
  log_fail_choice_biases : dict (list Q)
}.

Definition set_genes (v : list Gene.t) (w : World) : World :=
  mkWorld v (env w) (matching_dists w) (population w) (log_success w)
          (log_rewards w) (log_success_choice_biases w) (log_fail_choice_biases w).
Definition set_env (v : SignalingGameEnv.t) (w : World) : World :=
  mkWorld (genes w) v (matching_dists w) (population w) (log_success w)
          (log_rewards w) (log_success_choice_biases w) (log_fail_choice_biases w).
Definition set_population (v : list Creature.t) (w : World) : World :=
  mkWorld (genes w) (env w) (matching_dists w) v (log_success w)
          (log_rewards w) (log_success_choice_biases w) (log_fail_choice_biases w).
Definition set_log_success (v : list nat) (w : World) : World :=
  mkWorld (genes w) (env w) (matching_dists w) (population w) v
          (log_rewards w) (log_success_choice_biases w) (log_fail_choice_biases w).
Definition set_log_rewards (v : dict (list Q)) (w : World) : World :=
  mkWorld (genes w) (env w) (matching_dists w) (population w) (log_success w)
          v (log_success_choice_biases w) (log_fail_choice_biases w).
Definition set_log_success_choice_biases (v : dict (list Q)) (w : World) : World :=
  mkWorld (genes w) (env w) (matching_dists w) (population w) (log_success w)
          (log_rewards w) v (log_fail_choice_biases w).
Definition set_log_fail_choice_biases (v : dict (list Q)) (w : World) : World :=
  mkWorld (genes w) (env w) (matching_dists w) (population w) (log_success w)
          (log_rewards w) (log_success_choice_biases w) v.

(** Run a computation that needs a local state [T], starting from [t0]. *)
Definition run_from {T A} (t0 : T) (m : M (RNG * T) A) : M RNG (A * T) :=
  fun g => match m (g, t0) with
           | (Ok a, (g', t)) => (Ok (a, t), g')
           | (Raise e, (g', _)) => (Raise e, g')
           end.

(** [matching_dist[group::num_groups] = 1] on [np.zeros(pop_size)], then
    the division by the sum. The quotients are exact here; in the program
    they are rounded, and a row sums to one up to rounding only. *)
Definition group_dist (pop_size num_groups group : nat) : list Q :=
  let marks :=
    map (fun i => if (group <=? i) && ((i - group) mod num_groups =? 0)
                  then 1%Q else 0%Q) (seq 0 pop_size) in
  map (fun x => x / Qsum marks)%Q marks.

Definition make_matching_dists (cfg : Config) : outcome (list (list Q)) :=
  if String.eqb (matching_bias cfg) "uniform" then
    Ok (map (fun _ => map (fun x => x / inject_Z (Z.of_nat (pop_size cfg)))%Q
                          (np.ones (pop_size cfg)))
            (seq 0 (pop_size cfg)))
  else if String.eqb (matching_bias cfg) "group" then
    if (0 <? pop_size cfg) && (num_groups cfg =? 0) then Raise ZeroDivisionError
    else Ok (map (fun s => group_dist (pop_size cfg) (num_groups cfg) (s mod num_groups cfg))
                 (seq 0 (pop_size cfg)))
  else Ok [].

(** One round of the loop that builds the initial population. *)
Definition new_creature (cfg : Config) : M (RNG * list Gene.t) Creature.t :=
  let* sender_bias_gene :=
    new_gene (num_states cfg, num_messages cfg) (min_bias cfg) (max_bias cfg) (init_bias cfg) in
  let* receiver_bias_gene :=
    new_gene (num_messages cfg, num_states cfg) (min_bias cfg) (max_bias cfg) (init_bias cfg) in
  let bias_genes := [("sender"%string, sender_bias_gene); ("receiver"%string, receiver_bias_gene)] in
  Creature.__init__ bias_genes (lifespan_mean cfg).

Definition empty_logs : dict (list Q) := [("sender"%string, []); ("receiver"%string, [])].

(** The configuration cell: the environment, the matching distributions
    and the initial population, in that order. *)
Definition setup (cfg : Config) : M RNG World :=
  let* env := SignalingGameEnv.__init__ (num_states cfg) (num_messages cfg) (state_dist cfg) in
  let* matching_dists := lift (make_matching_dists cfg) in
  let* pop := run_from [] (map_m (fun _ => new_creature cfg) (seq 0 (pop_size cfg))) in
  ret (mkWorld (snd pop) env matching_dists (fst pop) [] empty_logs empty_logs empty_logs).


(** ** The evolution loop *)

Definition on_world {T A} (view : World -> outcome T) (update : T -> World -> World)
    (m : M (RNG * T) A) : M (RNG * World) A :=
  zoom (fun s => match view (snd s) with
                 | Ok t => Ok (fst s, t)
                 | Raise e => Raise e
                 end)
       (fun t s => (fst t, update (snd t) (snd s))) m.

Definition on_env {A} (m : M (RNG * SignalingGameEnv.t) A) : M (RNG * World) A :=
  on_world (fun w => Ok (env w)) set_env m.

Definition on_store {A} (m : M (RNG * list Gene.t) A) : M (RNG * World) A :=
  on_world (fun w => Ok (genes w)) set_genes m.

(** [population[idx]] *)
Definition on_creature {A} (idx : nat) (m : M (RNG * Creature.t) A) : M (RNG * World) A :=
  on_world (fun w => getitem (population w) idx)
           (fun c w => set_population (<[idx := c]> (population w)) w) m.

(** [population[idx].agents[agent_name]] *)
Definition on_agent {A} (idx : nat) (agent_name : string)
    (m : M (RNG * UrnAgent.t) A) : M (RNG * World) A :=
  on_creature idx
    (zoom (fun s => match dict_get (Creature.agents (snd s)) agent_name with
                    | Ok a => Ok (fst s, a)
                    | Raise e => Raise e
                    end)
          (fun t s => (fst t,
                       Creature.set_agents
                         (dict_set (Creature.agents (snd s)) agent_name (snd t)) (snd s)))
          m).

(** [d[key].append(x)] on a dictionary of logs. *)
Definition log_append (d : dict (list Q)) (key : string) (x : Q) : outcome (dict (list Q)) :=
  match dict_get d key with
  | Ok xs => Ok (dict_set d key (xs ++ [x]))
  | Raise e => Raise e
  end.

(** Truth value of [env.success], which is [None] or a boolean. *)
Definition truthy (o : option bool) : bool :=
  match o with
  | Some true => true
  | _ => false
  end.

(** Reading an attribute that may not exist yet. *)
Definition attr {S A} (o : option A) : M S A :=
  match o with
  | Some a => ret a
  | None => raise AttributeError
  end.

(** The body of [while not env.done]. [creatures] maps a role to the
    position of the creature playing it. *)
Definition turn (creatures : dict nat) : M (RNG * World) unit :=
  let* w := on_self get in
  let agent_name := SignalingGameEnv.agent_selection (env w) in
  let* obs := on_env (on_self (SignalingGameEnv.observe agent_name)) in
  let* idx := lift (dict_get creatures agent_name) in
  let* _ := on_agent idx agent_name (on_self get) in
  match obs with
  | None => raise TypeError
  | Some obs =>
      let* action := on_agent idx agent_name (UrnAgent.get_action obs) in
      on_env (on_self (SignalingGameEnv.step action)) ;;
      on_agent idx agent_name (on_self (UrnAgent.store_buffer obs action))
  end.

Fixpoint while_not_done (fuel : nat) (body : M (RNG * World) unit) : M (RNG * World) unit :=
  let* w := on_self get in
  if SignalingGameEnv.done (env w) then ret tt
  else match fuel with
       | 0 => raise OutOfFuel
       | S fuel' => body ;; while_not_done fuel' body
       end.

(** The body of [for _agent_name in env.agent_names] after an episode. *)
Definition credit (cfg : Config) (creatures : dict nat) (_agent_name : string)
    : M (RNG * World) unit :=
  let* w := on_self get in
  let success := truthy (SignalingGameEnv.success (env w)) in
  let* fitness :=
    if success then lift (dict_get (success_fitness cfg) _agent_name) else ret 0%Q in
  let* idx := lift (dict_get creatures _agent_name) in
  on_creature idx
    (on_self (modify (fun c => Creature.set_fitness (Creature.fitness c + fitness)%Q c))) ;;
  let* reward :=
    if success then lift (dict_get (success_reward cfg) _agent_name) else ret 0%Q in
  on_agent idx _agent_name (on_self (UrnAgent.update_reward reward)) ;;
  (let* w := on_self get in
   let* logs := lift (log_append (log_rewards w) _agent_name reward) in
   on_self (modify (set_log_rewards logs))) ;;
  let* w := on_self get in
  let* obs_choice :=
    if String.eqb _agent_name "sender" then
      let* m := attr (SignalingGameEnv.message (env w)) in
      ret (SignalingGameEnv.state (env w), m)
    else if String.eqb _agent_name "receiver" then
      let* m := attr (SignalingGameEnv.message (env w)) in
      let* a := attr (SignalingGameEnv.action (env w)) in
      ret (m, a)
    else raise KeyError in
  let* c := on_creature idx (on_self get) in
  let* ref := lift (dict_get (Creature.bias_genes c) _agent_name) in
  let* g := deref (fun s => genes (snd s)) ref in
  let* row := lift (getitem (Gene.values g) (fst obs_choice)) in
  let* choice_bias := lift (getitem row (snd obs_choice)) in
  (if success then
     let* logs := lift (log_append (log_success_choice_biases w) _agent_name choice_bias) in
     on_self (modify (set_log_success_choice_biases logs))
   else
     let* logs := lift (log_append (log_fail_choice_biases w) _agent_name choice_bias) in
     on_self (modify (set_log_fail_choice_biases logs))) ;;
  on_agent idx _agent_name (on_self UrnAgent.train).

(** One episode. An episode takes two turns, so the fuel of the [while]
    loop is never used up (see [episode_turns_suffice]). *)
Definition episode (cfg : Config) : M (RNG * World) unit :=
  let* sender_idx := on_rng (rng.integers1 0 (pop_size cfg)) in
  let* w := on_self get in
  let* _ := lift (getitem (population w) sender_idx) in
  let* dist := lift (getitem (matching_dists w) sender_idx) in
  let* receiver_idx := on_rng (rng.choice_p (length (population w)) dist) in
  let creatures := [("sender"%string, sender_idx); ("receiver"%string, receiver_idx)] in
  on_env SignalingGameEnv.reset ;;
  while_not_done 2 (turn creatures) ;;
  (let* w := on_self get in
   on_self (modify (set_log_success
     (log_success w ++ [if truthy (SignalingGameEnv.success (env w)) then 1 else 0])))) ;;
  let* w := on_self get in
  for_each (SignalingGameEnv.agent_names (env w)) (credit cfg creatures).

(** [max(xs, key=lambda x: x.fitness)]: the first of the fittest. *)
Definition max_by_fitness (xs : list Creature.t) : outcome Creature.t :=
  match xs with
  | [] => Raise ValueError
  | x :: rest =>
      Ok (fold_left (fun best y =>
                       if Qltb (Creature.fitness best) (Creature.fitness y) then y else best)
                    rest x)
  end.

(** [sorted(xs, key=lambda x: x.fitness, reverse=True)]: stable, so equally
    fit creatures keep their order. *)
Fixpoint insert_by_fitness (x : Creature.t) (xs : list Creature.t) : list Creature.t :=
  match xs with
  | [] => [x]
  | y :: rest =>
      if Qle_bool (Creature.fitness y) (Creature.fitness x) then x :: y :: rest
      else y :: insert_by_fitness x rest
  end.

Definition sorted_by_fitness_desc (xs : list Creature.t) : list Creature.t :=
  foldr insert_by_fitness [] xs.

(** The genes of an offspring bred with crossover: a new dictionary filled
    role by role. *)
Definition crossover_genes (roles : list string) (winners : list Creature.t)
    : M (RNG * list Gene.t) (dict nat) :=
  (fix go (roles : list string) (new_genes : dict nat) :=
     match roles with
     | [] => ret new_genes
     | role :: rest =>
         let* w0 := lift (getitem winners 0) in
         let* a := lift (dict_get (Creature.bias_genes w0) role) in
         let* w1 := lift (getitem winners 1) in
         let* b := lift (dict_get (Creature.bias_genes w1) role) in
         let* child := crossover_ref a b in
         go rest (dict_set new_genes role child)
     end) roles [].

(** The body of [for i in range(pop_size)] that builds the next
    generation; the result is what is appended to [new_population]. *)
Definition next_slot (cfg : Config) (i : nat) : M (RNG * World) Creature.t :=
  let* w := on_self get in
  let* c := lift (getitem (population w) i) in
  if (1 <? Creature.lifespan c)%Z then
    on_creature i
      (on_self (modify (Creature.set_lifespan (Creature.lifespan c - 1)%Z))) ;;
    on_creature i (on_self get)
  else
    let* picks :=
      on_rng (rng.choice_without_replacement (length (population w)) (tornament_size cfg)) in
    let* tournament := map_m (fun k => lift (getitem (population w) k)) picks in
    let roles := SignalingGameEnv.agent_names (env w) in
    let* new_genes :=
      if do_crossover cfg then
        let winners := take 2 (sorted_by_fitness_desc tournament) in
        on_store (crossover_genes roles winners)
      else
        let* winner := lift (max_by_fitness tournament) in
        ret (Creature.bias_genes winner) in
    for_each roles (fun role =>
      let* ref := lift (dict_get new_genes role) in
      on_store (mutate_ref ref (mutation_rate cfg))) ;;
    on_store (Creature.__init__ new_genes (lifespan_mean cfg)).

Definition next_generation (cfg : Config) : M (RNG * World) unit :=
  let* new_population := map_m (next_slot cfg) (seq 0 (pop_size cfg)) in
  on_self (modify (set_population new_population)).

(** One round of [for gen in range(num_gen)]. *)
Definition generation (cfg : Config) : M (RNG * World) unit :=
  on_self (modify (set_log_success [])) ;;
  on_self (modify (set_log_rewards empty_logs)) ;;
  on_self (modify (set_log_success_choice_biases empty_logs)) ;;
  on_self (modify (set_log_fail_choice_biases empty_logs)) ;;
  for_each (seq 0 (num_episodes_per_creature cfg * pop_size cfg)) (fun _ => episode cfg) ;;
  (let* w := on_self get in
   let* best_creature := lift (max_by_fitness (population w)) in
   ret tt) ;;
  next_generation cfg.

Definition evolve (cfg : Config) : M (RNG * World) unit :=
  for_each (seq 0 (num_gen cfg)) (fun _ => generation cfg).

(** The notebook from the configuration cell on. The second component of
    the result is the world the run stopped in: [None] when the
    configuration cell itself raised. *)
Definition notebook (cfg : Config) (g : RNG) : outcome unit * option World :=
  match setup cfg g with
  | (Ok w, g') => let '(r, (_, w')) := evolve cfg (g', w) in (r, Some w')
  | (Raise e, _) => (Raise e, None)
  end.


(** ** Predicates of the statements *)

(** [total m]: [m] returns normally from every state. *)
Definition total {S A} (m : M S A) : Prop :=
  forall s, exists a s', m s = (Ok a, s').

(** [post m P]: whenever [m] returns normally, its result satisfies [P]. *)
Definition post {S A} (m : M S A) (P : A -> Prop) : Prop :=
  forall s a s', m s = (Ok a, s') -> P a.


(** A 2-D array has the shape [size]. *)
Definition has_shape {A} (size : nat * nat) (xs : list (list A)) : bool :=
  (length xs =? fst size) && forallb (fun row => length row =? snd size) xs.

(** Every entry of a 2-D array lies in the closed interval [lo, hi]. *)
Definition within (lo hi : Q) (xs : list (list Q)) : bool :=
  forallb (forallb (fun v => Qle_bool lo v && Qle_bool v hi)) xs.

(** Every value of a gene lies in [min_val, max_val]. *)
Definition in_bounds (g : Gene.t) : bool :=
  within (Gene.min_val g) (Gene.max_val g) (Gene.values g).

(** The data model of a gene: ordered bounds, and values of the shape
    that [size] announces. *)
Definition gene_ok (g : Gene.t) : bool :=
  Qle_bool (Gene.min_val g) (Gene.max_val g) && has_shape (Gene.size g) (Gene.values g).

(** The entry of a 2-D array at [(i, j)]. *)
Definition entry {A} (xs : list (list A)) (i j : nat) : option A :=
  match xs !! i with
  | Some row => row !! j
  | None => None
  end.


(** The arrays of a learner have the shape its gene gave them. *)
Definition urn_shape (a : UrnAgent.t) : bool :=
  has_shape (UrnAgent.num_obs a, UrnAgent.num_choices a) (UrnAgent.urn_balls a)
  && (length (UrnAgent.urn_sum_balls a) =? UrnAgent.num_obs a).

(** Every record of a buffer names an observation and a choice that the
    learner has. *)
Definition records_ok (a : UrnAgent.t) (buf : list (nat * nat * Q)) : bool :=
  forallb (fun '(obs, choice, _) =>
             (obs <? UrnAgent.num_obs a) && (choice <? UrnAgent.num_choices a)) buf.

Definition agent_ok (a : UrnAgent.t) : bool :=
  urn_shape a && records_ok a (UrnAgent.train_buf a).

(** The running sum of every observation is the total of its counts. *)
Definition sums_ok (a : UrnAgent.t) : bool :=
  forallb (fun '(row, s) => Qeq_bool s (Qsum row))
          (zip (UrnAgent.urn_balls a) (UrnAgent.urn_sum_balls a)).

Definition positive_counts (a : UrnAgent.t) : bool :=
  forallb (forallb (Qltb 0)) (UrnAgent.urn_balls a).

(** Total reward that the records of a buffer hold for an observation, and
    for a pair of an observation and a choice. *)
Definition reward_on (obs : nat) (buf : list (nat * nat * Q)) : Q :=
  Qsum (map (fun '(o, _, r) => if o =? obs then r else 0%Q) buf).

Definition reward_on_pair (obs choice : nat) (buf : list (nat * nat * Q)) : Q :=
  Qsum (map (fun '(o, c, r) => if (o =? obs) && (c =? choice) then r else 0%Q) buf).

(** The probability with which [get_action(obs)] asks the generator for
    [choice]. *)
Definition probability (a : UrnAgent.t) (obs choice : nat) : option Q :=
  match fst (UrnAgent.probabilities obs a) with
  | Ok p => p !! choice
  | Raise _ => None
  end.

(** The calls a learner accepts once it is built. *)
Inductive call : Type :=
| GetAction (obs : nat)
| StoreBuffer (obs choice : nat)
| UpdateReward (reward : Q)
| Train.

Definition run_call (c : call) : M (RNG * UrnAgent.t) unit :=
  match c with
  | GetAction obs => let* _ := UrnAgent.get_action obs in ret tt
  | StoreBuffer obs choice => on_self (UrnAgent.store_buffer obs choice)
  | UpdateReward reward => on_self (UrnAgent.update_reward reward)
  | Train => on_self UrnAgent.train
  end.


(** What one round of the loop of [train] leaves behind, for a record
    [(obs, choice, reward)] on a learner whose row for [obs] is [row], with
    count [b] for [choice] and running sum [s]. *)
Definition reinforced (obs choice : nat) (reward : Q) (a : UrnAgent.t)
    (row : list Q) (b s : Q) : UrnAgent.t :=
  UrnAgent.set_urn_sum_balls (<[obs := (s + reward)%Q]> (UrnAgent.urn_sum_balls a))
    (UrnAgent.set_urn_balls
       (<[obs := <[choice := (b + reward)%Q]> row]> (UrnAgent.urn_balls a)) a).


(** The references to genes that a creature holds. *)
Definition gene_refs (c : Creature.t) : list nat := map snd (Creature.bias_genes c).

(** No gene object is held by two creatures of a population. *)
Fixpoint owners_disjoint (pop : list Creature.t) : bool :=
  match pop with
  | [] => true
  | c :: rest =>
      forallb (fun d => forallb (fun r => negb (existsb (Nat.eqb r) (gene_refs d)))
                                (gene_refs c)) rest
      && owners_disjoint rest
  end.


(** [fueled m]: [m] never stops for lack of fuel. *)
Definition fueled {S A} (m : M S A) : Prop :=
  forall s, fst (m s) <> Raise OutOfFuel.

(** [env_rel R m]: when [m] returns normally, the environment it leaves is
    related by [R] to the one it started in. *)
Definition env_rel {A} (R : SignalingGameEnv.t -> SignalingGameEnv.t -> Prop)
    (m : M (RNG * World) A) : Prop :=
  forall s a s', m s = (Ok a, s') -> R (env (snd s)) (env (snd s')).

(** One successful [step]. *)
Definition stepped (e e' : SignalingGameEnv.t) : Prop :=
  exists action, SignalingGameEnv.step action e = (Ok tt, e').

(** No reference occurs in two of the lists. *)
Fixpoint disjoint_lists (xss : list (list nat)) : Prop :=
  match xss with
  | [] => True
  | xs :: rest =>
      Forall (fun ys => forall r, r ∈ xs -> r ∉ ys) rest /\ disjoint_lists rest
  end.

(** What the loop never changes in a world while episodes run: the gene
    objects that exist and the references each creature holds. *)
Definition holdings (w : World) : nat * list (list nat) :=
  (length (genes w), map gene_refs (population w)).

(** [keeps_holdings m]: however [m] ends, the holdings are as before. *)
Definition keeps_holdings {A} (m : M (RNG * World) A) : Prop :=
  forall s, holdings (snd (snd (m s))) = holdings (snd s).

(** The references of a world are in order: every reference held by a
    creature is an object of the store, and no object is held twice. *)
Definition owned_once (w : World) : Prop :=
  Forall (Forall (fun r => r < length (genes w))) (map gene_refs (population w))
  /\ disjoint_lists (map gene_refs (population w)).

(** [keeps_owners m]: when [m] starts in a world whose genes have one
    owner each and returns normally, it leaves such a world. *)
Definition keeps_owners {A} (m : M (RNG * World) A) : Prop :=
  forall s a s', owned_once (snd s) -> m s = (Ok a, s') -> owned_once (snd s').

(** ** Predicates of the further properties *)

(** A sequence of calls on a learner; an exception ends it, as it would
    the Python program that makes the calls. *)
Definition run_calls (cs : list call) : M (RNG * UrnAgent.t) unit :=
  for_each cs run_call.

(** A world in which an episode can start: the one the configuration cell
    of a small configuration leaves. *)
Definition started (cfg : Config) (g : RNG) : option (RNG * World) :=
  match setup cfg g with
  | (Ok w, g') => Some (g', w)
  | (Raise _, _) => None
  end.

(** [keeps_view view m]: however [m] ends, [view] of the world is what it
    was before. *)
Definition keeps_view {X A} (view : World -> X) (m : M (RNG * World) A) : Prop :=
  forall s, view (snd (snd (m s))) = view (snd s).

(** What a creature is given at birth and, but for the yearly decrement of
    the lifespan, keeps: its genes and its lifespan. *)
Definition heritage (c : Creature.t) : dict nat * Z :=
  (Creature.bias_genes c, Creature.lifespan c).

(** What learning has no business changing: the gene objects, the matching
    distributions and the heritage of every creature. *)
Definition innate (w : World) : list Gene.t * list (list Q) * list (dict nat * Z) :=
  (genes w, matching_dists w, map heritage (population w)).

Definition pop_length (w : World) : nat := length (population w).

(** A learner as its constructor leaves it. *)
Definition fresh_learner (a : UrnAgent.t) : Prop :=
  exists ref gene, UrnAgent.__init__ ref gene = Ok a.

(** A creature as its constructor leaves it: no fitness yet, a lifespan of
    at least one generation, and learners that have not learned. *)
Definition newborn (c : Creature.t) : Prop :=
  Creature.fitness c = 0%Q /\ (1 <= Creature.lifespan c)%Z /\
  Forall fresh_learner (map snd (Creature.agents c)).















(** The fitness of the creatures, in the order of the population. *)
Definition fitnesses (w : World) : list Q := map Creature.fitness (population w).

(** What a role earns in an episode: [success_fitness] of the role when
    the episode succeeded, nothing otherwise. *)
Definition fitness_paid (cfg : Config) (success : bool) (role : string) : outcome Q :=
  if success then dict_get (success_fitness cfg) role else Ok 0%Q.

(** [fs] with [x] added to the entry at [idx]. *)
Definition pay (idx : nat) (x : Q) (fs : list Q) : list Q :=
  match fs !! idx with
  | Some f => <[idx := (f + x)%Q]> fs
  | None => fs
  end.

(** What the turns of an episode and the learners have no part in. *)
Definition ledger (w : World) : list Q * list nat := (fitnesses w, log_success w).

(** The ledger and the environment: what is settled once the fitness of
    an episode is paid. *)
Definition settled (w : World) : list Q * list nat * SignalingGameEnv.t :=
  (fitnesses w, log_success w, env w).

(** [population[idx].agents[role]], where there is one. *)
Definition learner_at (idx : nat) (role : string) (w : World) : option UrnAgent.t :=
  match population w !! idx with
  | Some c =>
      match dict_get (Creature.agents c) role with
      | Ok a => Some a
      | Raise _ => None
      end
  | None => None
  end.

(** The reward of a role after an episode: [success_reward] of the role
    when the episode succeeded, nothing otherwise. *)
Definition reward_paid (cfg : Config) (success : bool) (role : string) : outcome Q :=
  if success then dict_get (success_reward cfg) role else Ok 0%Q.

(** The calls an episode makes that change a learner, in the order of the
    loop: the move is stored, rewarded and trained on. *)
Definition lesson (obs choice : nat) (reward : Q) : M UrnAgent.t unit :=
  UrnAgent.store_buffer obs choice ;;
  (UrnAgent.update_reward reward ;; UrnAgent.train).

(** The learners of [w'] are those of [w], but for the one at [idx] and
    [role], which is [a]. *)
Definition learners_but (idx : nat) (role : string) (a : UrnAgent.t) (w w' : World) : Prop :=
  forall k r, learner_at k r w' =
    if (k =? idx) && String.eqb role r then Some a else learner_at k r w.

(** What the bookkeeping between two calls on a learner leaves alone. *)
Definition between_calls (k : nat) (r : string) (w : World)
    : option UrnAgent.t * SignalingGameEnv.t :=
  (learner_at k r w, env w).

(** When [m] returns, it has left the learners and the environment alone
    and then run [last]. *)
Definition then_runs (m last : M (RNG * World) unit) : Prop :=
  forall s s', m s = (Ok tt, s') ->
    exists s1, (forall k r, between_calls k r (snd s1) = between_calls k r (snd s)) /\
               last s1 = (Ok tt, s').

(** ** Predicates of the learner in binary64 *)

(** The arrays of a binary64 learner have the shape its sizes say, and
    the records of a buffer name observations and choices it has. *)
Definition urn_shape64 (a : UrnAgent64.t) : bool :=
  has_shape (UrnAgent64.num_obs a, UrnAgent64.num_choices a) (UrnAgent64.urn_balls a)
  && (length (UrnAgent64.urn_sum_balls a) =? UrnAgent64.num_obs a).

Definition records_ok64 (a : UrnAgent64.t) (buf : list (nat * nat * PrimFloat.float)) : bool :=
  forallb (fun '(obs, choice, _) =>
             (obs <? UrnAgent64.num_obs a) && (choice <? UrnAgent64.num_choices a)) buf.

(** The rewards that the records of a buffer hold for an observation, and
    for a pair of an observation and a choice, in the order of the
    buffer. *)
Fixpoint rewards_on (obs : nat) (buf : list (nat * nat * PrimFloat.float))
    : list PrimFloat.float :=
  match buf with
  | [] => []
  | (o, _, r) :: rest => if o =? obs then r :: rewards_on obs rest else rewards_on obs rest
  end.

Fixpoint rewards_on_pair (obs choice : nat) (buf : list (nat * nat * PrimFloat.float))
    : list PrimFloat.float :=
  match buf with
  | [] => []
  | (o, c, r) :: rest =>
      if (o =? obs) && (c =? choice) then r :: rewards_on_pair obs choice rest
      else rewards_on_pair obs choice rest
  end.

(** [x += r] for each [r] of [rs], from left to right. *)
Definition add_all (x : PrimFloat.float) (rs : list PrimFloat.float) : PrimFloat.float :=
  fold_left PrimFloat.add rs x.

(** A learner with one urn: the counts [row], their running sum [s] and a
    buffer. *)
Definition one_urn (row : list PrimFloat.float) (s : PrimFloat.float)
    (buf : list (nat * nat * PrimFloat.float)) : UrnAgent64.t :=
  UrnAgent64.mk 1 (length row) [row] [s] buf.



(** ** Concrete instances *)

Module Examples.

(** A generator with a fixed stream of words. *)
Definition g0 : RNG :=
  mkRNG (fun n => (Z.of_nat n * 6364136223846793005 + 1442695040888963407)
                  * 2862933555777941757)%Z 0.

Definition fitness_table : dict Q := [("sender"%string, (1 # 10)%Q); ("receiver"%string, 1%Q)].
Definition reward_table : dict Q := [("sender"%string, 1%Q); ("receiver"%string, 1%Q)].

(** Two states, two messages, two creatures, one episode per creature,
    one generation, every creature living one generation. *)
Definition cfg (min_bias max_bias : Q) (init_bias : Gene.init_values_t)
    (state_dist : list Q) (tornament_size : nat) (do_crossover : bool)
    (mutation_rate : Q) : Config :=
  mkConfig 2 2 state_dist 2 1 min_bias max_bias init_bias fitness_table reward_table
           tornament_size do_crossover mutation_rate 1 "uniform" 5 1.

Definition half_half : list Q := [(1 # 2)%Q; (1 # 2)%Q].

(** The tournament is larger than the population. *)
Definition cfg_large_tournament : Config :=
  cfg 0 30 (Gene.Literal 0) half_half 3 true (1 # 1000).



(** Breeding with crossover, two generations. *)
Definition cfg_crossover : Config :=
  mkConfig 2 2 half_half 2 1 0 30 (Gene.Literal 0) fitness_table reward_table
           2 true (1 # 1000) 1 "uniform" 5 2.

(** Breeding without crossover. *)
Definition cfg_no_crossover : Config :=
  cfg 0 30 (Gene.Literal 0) half_half 2 false (1 # 1000).

Definition env_of (turn : string) (done : bool) (message : option nat) : SignalingGameEnv.t :=
  SignalingGameEnv.mk 2 2 half_half ["sender"%string; "receiver"%string]
                      1 None done turn message None.

Definition gene_a : Gene.t :=
  Gene.mk (2, 2) 0 30 (Gene.Literal 0) [[0%Q; 0%Q]; [0%Q; 0%Q]].
Definition gene_b : Gene.t :=
  Gene.mk (2, 2) 0 30 (Gene.Literal 30) [[30%Q; 30%Q]; [30%Q; 30%Q]].

Definition agent (buf : list (nat * nat * Q)) : UrnAgent.t :=
  UrnAgent.mk 0 2 2 [[1%Q; 2%Q]; [1%Q; 1%Q]] [3%Q; 2%Q] buf.

End Examples.

Module Examples64.
Import Floats.PrimFloat.

(** One urn with the counts [2^53] and [2], whose running sum is their
    total [2^53 + 2]. *)
Definition big_urn (buf : list (nat * nat * float)) : UrnAgent64.t :=
  one_urn [0x1p53%float; 2%float] 0x1.0000000000001p53%float buf.

End Examples64.

(** * Properties *)

(** ** The environment: [step] and [observe] *)

Section EnvFacts.
Import SignalingGameEnv.

Lemma step_done (a : nat) (e : t) :
  done e = true -> step a e = (Raise AssertionError, e).
Proof. intros H. unfold step, bind, get. now rewrite H. Qed.

Lemma step_sender (a : nat) (e : t) :
  done e = false -> agent_selection e = "sender"%string ->
  step a e = (Ok tt, set_agent_selection "receiver" (set_message (Some a) e)).
Proof. intros Hd Hs. unfold step, bind, get, modify. now rewrite Hd, Hs. Qed.

Lemma step_receiver (a : nat) (e : t) :
  done e = false -> agent_selection e = "receiver"%string ->
  step a e =
    (Ok tt, set_done true
              (set_success (Some (state e =? a)) (set_action (Some a) e))).
Proof. intros Hd Hs. unfold step, bind, get, modify. now rewrite Hd, Hs. Qed.

(** C6. [step(action)] fails with the state untouched when [done] is
    true. On the sender's turn it records the action as the message and
    passes the turn to the receiver, with [done] still false. On the
    receiver's turn it records the action, sets [success] to true exactly
    when the action equals the hidden state, and sets [done]. *)
Theorem step_spec (a : nat) (e : t) :
  (done e = true -> step a e = (Raise AssertionError, e)) /\
  (done e = false -> agent_selection e = "sender"%string ->
     exists e', step a e = (Ok tt, e') /\
       message e' = Some a /\ agent_selection e' = "receiver"%string /\
       done e' = false /\
       state e' = state e /\ success e' = success e /\ action e' = action e) /\
  (done e = false -> agent_selection e = "receiver"%string ->
     exists e', step a e = (Ok tt, e') /\
       action e' = Some a /\ done e' = true /\
       (success e' = Some true <-> a = state e) /\
       (success e' = Some false <-> a <> state e) /\
       state e' = state e /\ message e' = message e /\
       agent_selection e' = "receiver"%string).
Proof.
  split; [apply step_done|split].
  - intros Hd Hs. eexists. split; [now apply step_sender|].
    cbn. repeat split; assumption.
  - intros Hd Hs. eexists. split; [now apply step_receiver|].
    cbn. repeat split; try assumption; try reflexivity.
    + intros [= H]. apply Nat.eqb_eq in H. congruence.
    + intros ->. now rewrite Nat.eqb_refl.
    + intros [= H]. apply Nat.eqb_neq in H. congruence.
    + intros H. f_equal. apply Nat.eqb_neq. congruence.
Qed.

Lemma reset_keeps_message (g : RNG) (e : t) :
  message (snd (snd (reset (g, e)))) = message e /\
  action (snd (snd (reset (g, e)))) = action e.
Proof.
  unfold reset, on_rng, on_self, zoom, bind, get, modify. cbn.
  destruct (rng.choice_p (num_states e) (state_dist e) g) as [[s|ex] g']; cbn; auto.
Qed.

Lemma reset_ok (g g' : RNG) (e e' : t) :
  reset (g, e) = (Ok tt, (g', e')) ->
  exists s, rng.choice_p (num_states e) (state_dist e) g = (Ok s, g') /\
    e' = set_agent_selection "sender"
           (set_done false (set_success None (set_state s e))).
Proof.
  unfold reset, on_rng, on_self, zoom, bind, get, modify. cbn.
  destruct (rng.choice_p (num_states e) (state_dist e) g) as [[s|ex] g0]; cbn.
  - intros [= <- <-]. now exists s.
  - discriminate.
Qed.

Lemma init_no_message (n m : nat) (d : list Q) (g g' : RNG) (e : t) :
  __init__ n m d g = (Ok e, g') -> message e = None.
Proof.
  unfold __init__.
  set (e0 := mk _ _ _ _ _ _ _ _ _ _).
  pose proof (reset_keeps_message g e0) as [Hm _].
  destruct (reset (g, e0)) as [[u|ex] [g1 e1]]; intros [= <- <-]; exact Hm.
Qed.

(** C7, as the code has it. [observe('sender')] returns the hidden
    state. [observe('receiver')] returns the message the environment
    holds: the one just emitted once the sender has stepped, and, since
    [reset] keeps the attribute, the one of an earlier episode before
    that. It raises only while no message was ever emitted, which is the
    case for a newly constructed environment. *)
Theorem observe_spec (e : t) :
  observe "sender" e = (Ok (Some (state e)), e) /\
  (forall m, message e = Some m -> observe "receiver" e = (Ok (Some m), e)) /\
  (message e = None -> observe "receiver" e = (Raise AttributeError, e)) /\
  (forall a e', done e = false -> agent_selection e = "sender"%string ->
     step a e = (Ok tt, e') -> observe "receiver" e' = (Ok (Some a), e')) /\
  (forall g g' e', reset (g, e) = (Ok tt, (g', e')) ->
     message e' = message e /\
     fst (observe "receiver" e') = fst (observe "receiver" e)) /\
  (forall n m d g g', __init__ n m d g = (Ok e, g') ->
     observe "receiver" e = (Raise AttributeError, e)).
Proof.
  assert (Hsome : forall x m, message x = Some m ->
                    observe "receiver" x = (Ok (Some m), x)).
  { intros x m H. unfold observe, bind, get. cbn. now rewrite H. }
  assert (Hnone : forall x, message x = None ->
                    observe "receiver" x = (Raise AttributeError, x)).
  { intros x H. unfold observe, bind, get. cbn. now rewrite H. }
  repeat split.
  - apply Hsome.
  - apply Hnone.
  - intros a e' Hd Hs Hstep. rewrite (step_sender a e Hd Hs) in Hstep.
    injection Hstep as <-. now apply Hsome.
  - pose proof (reset_keeps_message g e) as [Hm _]. now rewrite H in Hm.
  - pose proof (reset_keeps_message g e) as [Hm _]. rewrite H in Hm. cbn in Hm.
    unfold observe, bind, get. cbn. rewrite Hm.
    now destruct (message e).
  - intros n m d g g' H. apply Hnone. eapply init_no_message; eauto.
Qed.

Lemma step_spec_witness :
  step 1 (Examples.env_of "receiver" true (Some 0))
    = (Raise AssertionError, Examples.env_of "receiver" true (Some 0)) /\
  (exists e', step 1 (Examples.env_of "sender" false None) = (Ok tt, e') /\
     message e' = Some 1 /\ agent_selection e' = "receiver"%string /\ done e' = false) /\
  (exists e', step 1 (Examples.env_of "receiver" false (Some 0)) = (Ok tt, e') /\
     action e' = Some 1 /\ done e' = true /\ success e' = Some true).
Proof.
  split; [|split].
  - exact (proj1 (step_spec 1 (Examples.env_of "receiver" true (Some 0))) eq_refl).
  - destruct (proj1 (proj2 (step_spec 1 (Examples.env_of "sender" false None)))
                eq_refl eq_refl) as (e' & H & Hm & Ha & Hd & _).
    exists e'. auto.
  - destruct (proj2 (proj2 (step_spec 1 (Examples.env_of "receiver" false (Some 0))))
                eq_refl eq_refl) as (e' & H & Ha & Hd & Hs & _).
    exists e'. repeat split; auto. now apply Hs.
Defined.

(** C7 fails as stated. An environment is built, the sender emits
    message 1, the receiver acts, and [reset] starts the next episode: no
    message exists in this episode, yet observing the receiver is not an
    error; it returns the message 1 of the episode before. *)
Lemma observe_receiver_after_reset_returns_old_message :
  exists e0 g1 e1 e2 e3,
    SignalingGameEnv.__init__ 2 2 Examples.half_half Examples.g0 = (Ok e0, g1) /\
    step 1 e0 = (Ok tt, e1) /\
    step 0 e1 = (Ok tt, e2) /\
    fst (reset (g1, e2)) = Ok tt /\ snd (snd (reset (g1, e2))) = e3 /\
    agent_selection e3 = "sender"%string /\ done e3 = false /\
    observe "receiver" e3 = (Ok (Some 1), e3).
Proof.
  eexists _, _, _, _, _.
  split; [vm_compute; reflexivity|].
  split; [vm_compute; reflexivity|].
  split; [vm_compute; reflexivity|].
  split; [vm_compute; reflexivity|].
  split; [vm_compute; reflexivity|].
  vm_compute. auto.
Qed.

Lemma observe_spec_witness :
  observe "receiver" (Examples.env_of "receiver" false (Some 1))
    = (Ok (Some 1), Examples.env_of "receiver" false (Some 1)) /\
  observe "receiver" (Examples.env_of "sender" false None)
    = (Raise AttributeError, Examples.env_of "sender" false None).
Proof.
  split.
  - exact (proj1 (proj2 (observe_spec (Examples.env_of "receiver" false (Some 1))))
             1 eq_refl).
  - exact (proj1 (proj2 (proj2 (observe_spec (Examples.env_of "sender" false None))))
             eq_refl).
Defined.

End EnvFacts.

(** ** Generic facts about computations *)

Section MonadFacts.
Context {S A B : Type}.

Lemma map_m_total (f : A -> M S B) (xs : list A) :
  (forall x, total (f x)) -> total (map_m f xs).
Proof.
  intros Hf. induction xs as [|x xs IH]; intros s; cbn.
  - now exists [], s.
  - unfold bind. destruct (Hf x s) as (y & s1 & ->).
    destruct (IH s1) as (ys & s2 & ->). now exists (y :: ys), s2.
Qed.

Lemma map_m_post (f : A -> M S B) (P : B -> Prop) (xs : list A) :
  (forall x, post (f x) P) ->
  post (map_m f xs) (fun ys => Forall P ys /\ length ys = length xs).
Proof.
  intros Hf. induction xs as [|x xs IH]; intros s ys s'; cbn.
  - intros [= <- <-]. now split.
  - unfold bind. destruct (f x s) as [[y|e] s1] eqn:Hy; [|discriminate].
    destruct (map_m f xs s1) as [[ys'|e] s2] eqn:Hys; [|discriminate].
    intros [= <- <-]. destruct (IH _ _ _ Hys) as [HP Hlen].
    split; [constructor; [exact (Hf _ _ _ _ Hy)|exact HP]|cbn; congruence].
Qed.

End MonadFacts.

(** ** Facts about the generator and the array helpers *)

Section RngFacts.

Lemma random_total : total rng.random.
Proof. intros g. unfold rng.random, bind, rng.next_uint64, ret. eauto. Qed.

Lemma random_range : post rng.random (fun u => 0 <= u /\ u < 1)%Q.
Proof.
  intros g u g'. unfold rng.random, bind, rng.next_uint64, ret.
  intros [= <- <-].
  set (w := (words g (pos g) mod 2 ^ 64)%Z).
  assert (Hw : (0 <= w < 2 ^ 64)%Z) by (apply Z.mod_pos_bound; lia).
  assert (Hs : (0 <= Z.shiftr w 11 < 2 ^ 53)%Z).
  { rewrite Z.shiftr_div_pow2 by lia. split.
    - apply Z.div_pos; lia.
    - apply Z.div_lt_upper_bound; lia. }
  unfold Qle, Qlt; cbn -[Z.shiftr Z.pow Pos.pow]. split; lia.
Qed.

Lemma uniform1_total (low high : Q) : total (rng.uniform1 low high).
Proof.
  intros g. unfold rng.uniform1, bind.
  destruct (random_total g) as (u & g' & ->). unfold ret. eauto.
Qed.

Lemma uniform1_range (low high : Q) :
  (low <= high)%Q ->
  post (rng.uniform1 low high) (fun x => low <= x /\ x <= high)%Q.
Proof.
  intros Hle g x g'. unfold rng.uniform1, bind.
  destruct (rng.random g) as [[u|e] g1] eqn:Hu; [|discriminate].
  intros [= <- <-]. apply random_range in Hu as [H0 H1]. split; nra.
Qed.

End RngFacts.

Section ArrayFacts.
Context {A : Type}.

Lemma on_rng_eq {T B} (m : M RNG B) (g : RNG) (t : T) :
  on_rng m (g, t) = (fst (m g), (snd (m g), t)).
Proof. unfold on_rng, zoom. cbn. now destruct (m g). Qed.

Lemma on_self_eq {T B} (m : M T B) (g : RNG) (t : T) :
  on_self m (g, t) = (fst (m t), (g, snd (m t))).
Proof. unfold on_self, zoom. cbn. now destruct (m t). Qed.

Lemma on_self_get {T} (s : RNG * T) : on_self get s = (Ok (snd s), s).
Proof. now destruct s. Qed.

Lemma where_row_false (mask : list bool) (xs ys r : list A) :
  np.where_row mask xs ys = Ok r -> Forall (fun m => m = false) mask -> r = ys.
Proof.
  revert xs ys r. induction mask as [|m mask IH]; intros [|x xs] [|y ys] r; cbn;
    try discriminate.
  - now intros [= <-].
  - destruct (np.where_row mask xs ys) as [r'|] eqn:E; [|discriminate].
    intros [= <-] H. inversion H; subst. f_equal. eapply IH; eauto.
Qed.

Lemma where_row_true (mask : list bool) (xs ys r : list A) :
  np.where_row mask xs ys = Ok r -> Forall (fun m => m = true) mask -> r = xs.
Proof.
  revert xs ys r. induction mask as [|m mask IH]; intros [|x xs] [|y ys] r; cbn;
    try discriminate.
  - now intros [= <-].
  - destruct (np.where_row mask xs ys) as [r'|] eqn:E; [|discriminate].
    intros [= <-] H. inversion H; subst. f_equal. eapply IH; eauto.
Qed.

Lemma where_row_pick (mask : list bool) (xs ys r : list A) :
  np.where_row mask xs ys = Ok r ->
  length r = length xs /\
  forall j v, r !! j = Some v ->
    exists (m : bool) (x y : A),
      mask !! j = Some m /\ xs !! j = Some x /\ ys !! j = Some y /\
                  v = if m then x else y.
Proof.
  revert xs ys r. induction mask as [|m mask IH]; intros [|x xs] [|y ys] r; cbn;
    try discriminate.
  - intros [= <-]. split; [reflexivity|]. intros j v H. now rewrite lookup_nil in H.
  - destruct (np.where_row mask xs ys) as [r'|] eqn:E; [|discriminate].
    intros [= <-]. destruct (IH _ _ _ E) as [Hlen Hpick].
    split; [cbn; congruence|]. intros [|j] v; cbn.
    + intros [= <-]. now exists m, x, y.
    + apply Hpick.
Qed.

Lemma where_row_defined (mask : list bool) (xs ys : list A) :
  length mask = length xs -> length ys = length xs ->
  exists r, np.where_row mask xs ys = Ok r.
Proof.
  revert xs ys. induction mask as [|m mask IH]; intros [|x xs] [|y ys]; cbn;
    try discriminate; eauto.
  intros [= H1] [= H2]. destruct (IH _ _ H1 H2) as [r ->]. eauto.
Qed.

Lemma where_false (mask : list (list bool)) (xs ys r : list (list A)) :
  np.where_ mask xs ys = Ok r ->
  Forall (Forall (fun m => m = false)) mask -> r = ys.
Proof.
  revert xs ys r. induction mask as [|m mask IH]; intros [|x xs] [|y ys] r; cbn;
    try discriminate.
  - now intros [= <-].
  - destruct (np.where_row m x y) as [r0|] eqn:E0; [|discriminate].
    destruct (np.where_ mask xs ys) as [r'|] eqn:E; [|discriminate].
    intros [= <-] H. inversion H; subst. f_equal.
    + eapply where_row_false; eauto.
    + eapply IH; eauto.
Qed.

Lemma where_true (mask : list (list bool)) (xs ys r : list (list A)) :
  np.where_ mask xs ys = Ok r ->
  Forall (Forall (fun m => m = true)) mask -> r = xs.
Proof.
  revert xs ys r. induction mask as [|m mask IH]; intros [|x xs] [|y ys] r; cbn;
    try discriminate.
  - now intros [= <-].
  - destruct (np.where_row m x y) as [r0|] eqn:E0; [|discriminate].
    destruct (np.where_ mask xs ys) as [r'|] eqn:E; [|discriminate].
    intros [= <-] H. inversion H; subst. f_equal.
    + eapply where_row_true; eauto.
    + eapply IH; eauto.
Qed.

(** Every entry of the result is the entry of one of the two arrays at
    the same place, as the mask says. *)
Lemma where_pick (mask : list (list bool)) (xs ys r : list (list A)) :
  np.where_ mask xs ys = Ok r ->
  forall i j v, entry r i j = Some v ->
    exists (m : bool) (x y : A), entry mask i j = Some m /\ entry xs i j = Some x /\
                  entry ys i j = Some y /\ v = if m then x else y.
Proof.
  revert xs ys r. induction mask as [|m mask IH]; intros [|x xs] [|y ys] r; cbn;
    try discriminate.
  - intros [= <-] i j v. unfold entry. now rewrite lookup_nil.
  - destruct (np.where_row m x y) as [r0|] eqn:E0; [|discriminate].
    destruct (np.where_ mask xs ys) as [r'|] eqn:E; [|discriminate].
    intros [= <-] [|i] j v; unfold entry; cbn.
    + apply (proj2 (where_row_pick _ _ _ _ E0)).
    + apply (IH _ _ _ E).
Qed.

Lemma where_shape (size : nat * nat) (mask : list (list bool)) (xs ys r : list (list A)) :
  np.where_ mask xs ys = Ok r -> has_shape size xs = true -> has_shape size r = true.
Proof.
  unfold has_shape. intros H Hs. apply andb_true_iff in Hs as [Hn Hrows].
  apply Nat.eqb_eq in Hn. revert Hn. generalize (fst size) as n.
  revert xs ys r H Hrows. induction mask as [|m mask IH]; intros [|x xs] [|y ys] r; cbn;
    try discriminate.
  - now intros [= <-] _ n <-.
  - destruct (np.where_row m x y) as [r0|] eqn:E0; [|discriminate].
    destruct (np.where_ mask xs ys) as [r'|] eqn:E; [|discriminate].
    intros [= <-] Hrows n <-. apply andb_true_iff in Hrows as [Hx Hrows].
    specialize (IH _ _ _ E Hrows _ eq_refl). apply andb_true_iff in IH as [IH1 IH2].
    cbn. rewrite IH2. apply Nat.eqb_eq in IH1. rewrite IH1, Nat.eqb_refl. cbn.
    destruct (where_row_pick _ _ _ _ E0) as [-> _]. now rewrite Hx.
Qed.

Lemma where_defined (size : nat * nat) (mask : list (list bool)) (xs ys : list (list A)) :
  has_shape size mask = true -> has_shape size xs = true -> has_shape size ys = true ->
  exists r, np.where_ mask xs ys = Ok r.
Proof.
  unfold has_shape. intros Hm Hx Hy.
  apply andb_true_iff in Hm as [Hm1 Hm2], Hx as [Hx1 Hx2], Hy as [Hy1 Hy2].
  apply Nat.eqb_eq in Hm1, Hx1, Hy1. revert Hm1 Hx1 Hy1. generalize (fst size) as n.
  revert xs ys Hm2 Hx2 Hy2.
  induction mask as [|m mask IH]; intros [|x xs] [|y ys]; cbn; intros Hm2 Hx2 Hy2 n;
    try (intros; subst; discriminate); eauto.
  apply andb_true_iff in Hm2 as [Hm Hm2], Hx2 as [Hx Hx2], Hy2 as [Hy Hy2].
  apply Nat.eqb_eq in Hm, Hx, Hy.
  intros <- [= Hx1] [= Hy1].
  destruct (where_row_defined m x y) as [r0 ->]; [congruence..|].
  destruct (IH xs ys Hm2 Hx2 Hy2 _ eq_refl Hx1 Hy1) as [r ->]. eauto.
Qed.

End ArrayFacts.

Lemma forallb_Forall {A} (p : A -> bool) (xs : list A) :
  forallb p xs = true <-> Forall (fun x => p x = true) xs.
Proof.
  induction xs as [|x xs IH]; cbn.
  - split; auto.
  - rewrite andb_true_iff, IH. split.
    + intros [? ?]. now constructor.
    + intros H. now inversion H.
Qed.

Section FillFacts.
Context {A : Type}.

Lemma has_shape_Forall (size : nat * nat) (xs : list (list A)) :
  has_shape size xs = true <->
  length xs = fst size /\ Forall (fun row => length row = snd size) xs.
Proof.
  unfold has_shape. rewrite andb_true_iff, Nat.eqb_eq, forallb_Forall.
  split; intros [H1 H2]; split; auto;
    (eapply Forall_impl; [exact H2|]); cbn; intros row; apply Nat.eqb_eq.
Qed.

Lemma fill_total (draw : M RNG A) (size : nat * nat) :
  total draw -> total (rng.fill draw size).
Proof. intros H. unfold rng.fill. apply map_m_total. intros _. now apply map_m_total. Qed.

Lemma fill_post (draw : M RNG A) (P : A -> Prop) (size : nat * nat) :
  post draw P ->
  post (rng.fill draw size)
       (fun xs => has_shape size xs = true /\ Forall (Forall P) xs).
Proof.
  intros H g xs g' Hfill. unfold rng.fill in Hfill.
  eapply (map_m_post _ (fun row => Forall P row /\ length row = snd size)) in Hfill.
  - destruct Hfill as [Hrows Hlen]. rewrite length_seq in Hlen. split.
    + apply has_shape_Forall. split; [exact Hlen|].
      eapply Forall_impl; [exact Hrows|]. now intros row [_ ?].
    + eapply Forall_impl; [exact Hrows|]. now intros row [? _].
  - intros _ g1 row g2 Hrow.
    eapply (map_m_post _ P) in Hrow; [|intros _; exact H].
    now rewrite length_seq in Hrow.
Qed.

End FillFacts.

Section UniformFacts.

Lemma Qltb_false (x y : Q) : Qltb x y = false <-> (y <= x)%Q.
Proof. unfold Qltb. rewrite negb_false_iff. apply Qle_bool_iff. Qed.

Lemma Qltb_true (x y : Q) : Qltb x y = true <-> (x < y)%Q.
Proof.
  unfold Qltb. rewrite negb_true_iff, <- not_true_iff_false, Qle_bool_iff.
  split; [apply Qnot_le_lt|apply Qlt_not_le].
Qed.

Lemma within_Forall (lo hi : Q) (xs : list (list Q)) :
  within lo hi xs = true <-> Forall (Forall (fun v => lo <= v /\ v <= hi)%Q) xs.
Proof.
  unfold within. rewrite forallb_Forall. split; intros H;
    (eapply Forall_impl; [exact H|]); cbn; intros row; rewrite forallb_Forall;
    intros Hrow; (eapply Forall_impl; [exact Hrow|]); cbn; intros v;
    rewrite andb_true_iff, !Qle_bool_iff; tauto.
Qed.

Lemma uniform_total (low high : Q) (size : nat * nat) :
  Qle_bool low high = true -> total (rng.uniform low high size).
Proof.
  intros H. unfold rng.uniform.
  replace (Qltb high low) with false
    by (symmetry; apply Qltb_false; now apply Qle_bool_iff).
  apply fill_total, uniform1_total.
Qed.

Lemma uniform_post (low high : Q) (size : nat * nat) :
  post (rng.uniform low high size)
       (fun xs => has_shape size xs = true /\ within low high xs = true).
Proof.
  intros g xs g'. unfold rng.uniform.
  destruct (Qltb high low) eqn:E; [discriminate|]. apply Qltb_false in E.
  intros H. apply (fill_post _ _ _ (uniform1_range low high E)) in H as [Hs Hb].
  split; [exact Hs|]. now apply within_Forall.
Qed.

(** The mask of [mutate]: no draw of [rng.uniform(0, 1)] is below a rate
    of zero or less, and every draw is below a rate of one or more. *)
Lemma mask_all_false (rate : Q) (u : list (list Q)) :
  (rate <= 0)%Q -> within 0 1 u = true ->
  Forall (Forall (fun m => m = false)) (map (map (fun x => Qltb x rate)) u).
Proof.
  intros Hr Hu. apply within_Forall in Hu.
  apply Forall_map. eapply Forall_impl; [exact Hu|]. cbn. intros row Hrow.
  apply Forall_map. eapply Forall_impl; [exact Hrow|]. cbn. intros x [H0 _].
  apply Qltb_false. lra.
Qed.

Lemma uniform01_below_one (size : nat * nat) :
  post (rng.uniform 0 1 size) (Forall (Forall (fun x => x < 1)%Q)).
Proof.
  intros g xs g'. unfold rng.uniform. cbn.
  intros H. eapply (fill_post _ (fun x => (x < 1)%Q)) in H; [tauto|].
  intros g1 x g2. unfold rng.uniform1, bind.
  destruct (rng.random g1) as [[u|e] g3] eqn:Hu; [|discriminate].
  intros [= <- <-]. apply random_range in Hu. lra.
Qed.

Lemma mask_all_true (rate : Q) (u : list (list Q)) :
  (1 <= rate)%Q -> Forall (Forall (fun x => x < 1)%Q) u ->
  Forall (Forall (fun m => m = true)) (map (map (fun x => Qltb x rate)) u).
Proof.
  intros Hr Hu.
  apply Forall_map. eapply Forall_impl; [exact Hu|]. cbn. intros row Hrow.
  apply Forall_map. eapply Forall_impl; [exact Hrow|]. cbn. intros x H1.
  apply Qltb_true. lra.
Qed.

Lemma has_shape_map {A B} (f : A -> B) (size : nat * nat) (xs : list (list A)) :
  has_shape size (map (map f) xs) = has_shape size xs.
Proof.
  unfold has_shape. rewrite length_map. f_equal.
  induction xs as [|x xs IH]; cbn; [reflexivity|]. now rewrite length_map, IH.
Qed.

End UniformFacts.

(** ** Genes: construction, crossover and mutation *)

Section GeneFacts.
Import Gene.

Lemma set_values_same (self : t) : set_values (values self) self = self.
Proof. now destruct self. Qed.

(** [mutate], step by step. *)
Lemma mutate_unfold (rate : Q) (g : RNG) (self : t) :
  mutate rate (g, self) =
    match rng.uniform 0 1 (size self) g with
    | (Raise e, g1) => (Raise e, (g1, self))
    | (Ok u, g1) =>
        match rng.uniform (min_val self) (max_val self) (size self) g1 with
        | (Raise e, g2) => (Raise e, (g2, self))
        | (Ok fresh, g2) =>
            match np.where_ (map (map (fun x => Qltb x rate)) u) fresh (values self) with
            | Raise e => (Raise e, (g2, self))
            | Ok vs => (Ok tt, (g2, set_values vs self))
            end
        end
    end.
Proof.
  unfold mutate, bind, on_self, on_rng, zoom, lift, get, modify. cbn [fst snd].
  destruct (rng.uniform 0 1 (size self) g) as [[u|e] g1]; cbn [fst snd]; auto.
  destruct (rng.uniform (min_val self) (max_val self) (size self) g1) as [[fresh|e] g2];
    cbn [fst snd]; auto.
Qed.

(** [crossover], step by step. *)
Lemma crossover_unfold (other : t) (g : RNG) (self : t) :
  crossover other (g, self) =
    match __init__ (size self) (min_val self) (max_val self) (init_values self) g with
    | (Raise e, g1) => (Raise e, (g1, self))
    | (Ok new, g1) =>
        match rng.integers 0 2 (size self) g1 with
        | (Raise e, g2) => (Raise e, (g2, self))
        | (Ok random_mask, g2) =>
            match np.where_ (map (map (fun b => negb (b =? 0))) random_mask)
                            (values self) (values other) with
            | Raise e => (Raise e, (g2, self))
            | Ok vs => (Ok (set_values vs new), (g2, self))
            end
        end
    end.
Proof.
  unfold crossover, bind, on_self, on_rng, zoom, lift, get, ret. cbn [fst snd].
  destruct (__init__ _ _ _ _ g) as [[new|e] g1]; cbn [fst snd]; auto.
  destruct (rng.integers 0 2 (size self) g1) as [[mask|e] g2]; cbn [fst snd]; auto.
Qed.

Lemma mutate_defined (rate : Q) (g : RNG) (self : t) :
  gene_ok self = true ->
  exists u g1 fresh g2 vs,
    rng.uniform 0 1 (size self) g = (Ok u, g1) /\
    rng.uniform (min_val self) (max_val self) (size self) g1 = (Ok fresh, g2) /\
    np.where_ (map (map (fun x => Qltb x rate)) u) fresh (values self) = Ok vs /\
    mutate rate (g, self) = (Ok tt, (g2, set_values vs self)).
Proof.
  intros Hok. apply andb_true_iff in Hok as [Hb Hs].
  destruct (uniform_total 0 1 (size self) eq_refl g) as (u & g1 & Hu).
  destruct (uniform_total _ _ (size self) Hb g1) as (fresh & g2 & Hf).
  pose proof (uniform_post _ _ _ _ _ _ Hu) as [Hus _].
  pose proof (uniform_post _ _ _ _ _ _ Hf) as [Hfs _].
  destruct (where_defined (size self) (map (map (fun x => Qltb x rate)) u)
              fresh (values self)) as [vs Hvs]; auto.
  { now rewrite has_shape_map. }
  exists u, g1, fresh, g2, vs. rewrite mutate_unfold, Hu, Hf, Hvs. auto.
Qed.

(** C9. [mutate(0)] leaves the gene as it is, whatever the generator
    draws (for every gene; for a gene with ordered bounds and values of
    its shape the call also returns normally). [mutate(1)] on such a gene
    replaces the values by the array [fresh] that
    [rng.uniform(min_val, max_val, size)] has just drawn, every entry of
    which lies in [min_val, max_val]. *)
Theorem mutate_rate_0_and_1 (g : RNG) (self : t) :
  snd (snd (mutate 0 (g, self))) = self /\
  (gene_ok self = true ->
     (exists g', mutate 0 (g, self) = (Ok tt, (g', self))) /\
     (exists u g1 fresh g2,
        rng.uniform 0 1 (size self) g = (Ok u, g1) /\
        rng.uniform (min_val self) (max_val self) (size self) g1 = (Ok fresh, g2) /\
        mutate 1 (g, self) = (Ok tt, (g2, set_values fresh self)) /\
        has_shape (size self) fresh = true /\
        within (min_val self) (max_val self) fresh = true)).
Proof.
  assert (H0 : forall u g1 fresh vs,
             rng.uniform 0 1 (size self) g = (Ok u, g1) ->
             np.where_ (map (map (fun x => Qltb x 0)) u) fresh (values self) = Ok vs ->
             vs = values self).
  { intros u g1 fresh vs Hu Hvs. eapply where_false; [exact Hvs|].
    apply mask_all_false; [lra|]. now apply uniform_post in Hu. }
  split.
  - rewrite mutate_unfold.
    destruct (rng.uniform 0 1 (size self) g) as [[u|e] g1] eqn:Hu; auto.
    destruct (rng.uniform _ _ (size self) g1) as [[fresh|e] g2]; auto.
    destruct (np.where_ _ fresh (values self)) as [vs|e] eqn:Hvs; auto.
    cbn. rewrite (H0 _ _ _ _ eq_refl Hvs). apply set_values_same.
  - intros Hok. split.
    + destruct (mutate_defined 0 g self Hok) as (u & g1 & fresh & g2 & vs & Hu & _ & Hvs & ->).
      exists g2. now rewrite (H0 _ _ _ _ Hu Hvs), set_values_same.
    + destruct (mutate_defined 1 g self Hok) as (u & g1 & fresh & g2 & vs & Hu & Hf & Hvs & ->).
      exists u, g1, fresh, g2. repeat split; auto; try (now apply uniform_post in Hf).
      do 3 f_equal. eapply where_true; [exact Hvs|].
      apply mask_all_true; [lra|]. now apply uniform01_below_one in Hu.
Qed.

Lemma Forall_entries {A} (P : A -> Prop) (xs : list (list A)) :
  Forall (Forall P) xs <-> forall i j v, entry xs i j = Some v -> P v.
Proof.
  unfold entry. rewrite Forall_lookup. split.
  - intros H i j v. destruct (xs !! i) as [row|] eqn:E; [|discriminate].
    intros Hv. specialize (H i row E). rewrite Forall_lookup in H. eauto.
  - intros H i row E. rewrite Forall_lookup. intros j v Hv.
    apply (H i j v). now rewrite E.
Qed.

Lemma where_within (lo hi : Q) (mask : list (list bool)) (xs ys r : list (list Q)) :
  np.where_ mask xs ys = Ok r ->
  within lo hi xs = true -> within lo hi ys = true -> within lo hi r = true.
Proof.
  rewrite !within_Forall, !Forall_entries. intros Hr Hx Hy i j v Hv.
  destruct (where_pick _ _ _ _ Hr i j v Hv) as (m & x & y & _ & Ex & Ey & ->).
  destruct m; eauto.
Qed.

Lemma integers_total (low high : nat) (size : nat * nat) :
  low < high -> total (rng.integers low high size).
Proof.
  intros H. unfold rng.integers.
  destruct (high <=? low) eqn:E; [apply Nat.leb_le in E; lia|].
  apply fill_total. intros g. unfold rng.integers1. rewrite E.
  unfold bind, rng.next_uint64, ret. eauto.
Qed.

Lemma integers_shape (low high : nat) (size : nat * nat) :
  post (rng.integers low high size) (fun xs => has_shape size xs = true).
Proof.
  intros g xs g'. unfold rng.integers. destruct (high <=? low); [discriminate|].
  intros H. now apply (fill_post _ (fun _ => True)) in H.
Qed.

Lemma full_shape {A} (size : nat * nat) (v : A) : has_shape size (np.full size v) = true.
Proof.
  apply has_shape_Forall. unfold np.full. rewrite length_replicate. split; [reflexivity|].
  apply Forall_replicate, length_replicate.
Qed.

Lemma full_within (lo hi v : Q) (size : nat * nat) :
  Qle_bool lo v && Qle_bool v hi = true -> within lo hi (np.full size v) = true.
Proof.
  intros H. apply andb_true_iff in H as [H1 H2]. apply Qle_bool_iff in H1, H2.
  apply within_Forall. unfold np.full. now apply Forall_replicate, Forall_replicate.
Qed.

Lemma init_random (size : nat * nat) (lo hi : Q) (g : RNG) :
  Qle_bool lo hi = true ->
  exists gene g', __init__ size lo hi Random g = (Ok gene, g') /\
    in_bounds gene = true /\ gene_ok gene = true.
Proof.
  intros H. destruct (uniform_total lo hi size H g) as (vs & g' & Hvs).
  pose proof (uniform_post _ _ _ _ _ _ Hvs) as [Hs Hb].
  exists (mk size lo hi Random vs), g'. unfold __init__, bind. rewrite Hvs.
  unfold in_bounds, gene_ok. cbn [Gene.min_val Gene.max_val Gene.values Gene.size]. now rewrite H, Hs, Hb.
Qed.

Lemma init_literal (size : nat * nat) (lo hi v : Q) (g : RNG) :
  Qle_bool lo v && Qle_bool v hi = true ->
  exists gene, __init__ size lo hi (Literal v) g = (Ok gene, g) /\
    in_bounds gene = true /\ gene_ok gene = true.
Proof.
  intros H. eexists. split; [reflexivity|]. unfold in_bounds, gene_ok.
  cbn [Gene.min_val Gene.max_val Gene.values Gene.size].
  rewrite full_within, full_shape by exact H. rewrite andb_true_r. split; [reflexivity|].
  apply andb_true_iff in H as [H1 H2]. apply Qle_bool_iff in H1, H2.
  apply Qle_bool_iff. lra.
Qed.

Lemma init_defined (size : nat * nat) (lo hi : Q) (i : init_values_t) (g : RNG) :
  Qle_bool lo hi = true ->
  exists gene g', __init__ size lo hi i g = (Ok gene, g') /\
    Gene.size gene = size /\ min_val gene = lo /\ max_val gene = hi.
Proof.
  intros H. destruct i as [|v].
  - destruct (uniform_total lo hi size H g) as (vs & g' & Hvs).
    eexists _, g'. unfold __init__, bind. rewrite Hvs. cbn. eauto.
  - eexists _, g. cbn. eauto.
Qed.

Lemma crossover_defined (other : t) (g : RNG) (self : t) :
  gene_ok self = true -> has_shape (size self) (values other) = true ->
  exists new g1 random_mask g2 vs,
    __init__ (size self) (min_val self) (max_val self) (init_values self) g = (Ok new, g1) /\
    rng.integers 0 2 (size self) g1 = (Ok random_mask, g2) /\
    np.where_ (map (map (fun b => negb (b =? 0))) random_mask)
              (values self) (values other) = Ok vs /\
    crossover other (g, self) = (Ok (set_values vs new), (g2, self)) /\
    size new = size self /\ min_val new = min_val self /\ max_val new = max_val self.
Proof.
  intros Hok Hother. apply andb_true_iff in Hok as [Hb Hs].
  destruct (init_defined (size self) _ _ (init_values self) g Hb)
    as (new & g1 & Hnew & Hsize & Hmin & Hmax).
  destruct (integers_total 0 2 (size self) ltac:(lia) g1) as (mask & g2 & Hmask).
  pose proof (integers_shape _ _ _ _ _ _ Hmask) as Hms.
  destruct (where_defined (size self) (map (map (fun b => negb (b =? 0))) mask)
              (values self) (values other)) as [vs Hvs]; auto.
  { now rewrite has_shape_map. }
  exists new, g1, mask, g2, vs. rewrite crossover_unfold, Hnew, Hmask, Hvs. auto 10.
Qed.

(** C1, as the code has it. With ordered bounds, a gene built with
    ['random'], or with a literal that itself lies in the bounds, has
    all its values in [min_val, max_val]. Crossover of a gene whose
    values are in its bounds with a gene of the same shape whose values
    are in those bounds too gives such a gene, and mutation at any rate
    keeps the values in bounds. *)
Theorem gene_values_in_bounds (g : RNG) :
  (forall size lo hi, Qle_bool lo hi = true ->
     exists gene g', __init__ size lo hi Random g = (Ok gene, g') /\
                     in_bounds gene = true) /\
  (forall size lo hi v, Qle_bool lo v && Qle_bool v hi = true ->
     exists gene g', __init__ size lo hi (Literal v) g = (Ok gene, g') /\
                     in_bounds gene = true) /\
  (forall self other,
     gene_ok self = true -> in_bounds self = true ->
     has_shape (size self) (values other) = true ->
     within (min_val self) (max_val self) (values other) = true ->
     exists new g', crossover other (g, self) = (Ok new, (g', self)) /\
                    in_bounds new = true) /\
  (forall self rate,
     gene_ok self = true -> in_bounds self = true ->
     exists self' g', mutate rate (g, self) = (Ok tt, (g', self')) /\
                      in_bounds self' = true).
Proof.
  repeat split.
  - intros size lo hi H. destruct (init_random size lo hi g H) as (gene & g' & ? & ? & _).
    eauto.
  - intros size lo hi v H. destruct (init_literal size lo hi v g H) as (gene & ? & ? & _).
    eauto.
  - intros self other Hok Hin Hshape Hother.
    destruct (crossover_defined other g self Hok Hshape)
      as (new & g1 & mask & g2 & vs & _ & _ & Hvs & -> & _ & Hmin & Hmax).
    eexists _, _. split; [reflexivity|]. unfold in_bounds, set_values.
    cbn [Gene.min_val Gene.max_val Gene.values Gene.size]. rewrite Hmin, Hmax.
    eapply where_within; eauto.
  - intros self rate Hok Hin.
    destruct (mutate_defined rate g self Hok) as (u & g1 & fresh & g2 & vs & _ & Hf & Hvs & ->).
    eexists _, _. split; [reflexivity|]. unfold in_bounds, set_values.
    cbn [Gene.min_val Gene.max_val Gene.values Gene.size].
    eapply where_within; eauto. now apply uniform_post in Hf.
Qed.

Lemma mutate_rate_0_and_1_witness :
  gene_ok Examples.gene_b = true /\
  (exists g', mutate 0 (Examples.g0, Examples.gene_b) = (Ok tt, (g', Examples.gene_b))) /\
  (exists fresh g2,
     mutate 1 (Examples.g0, Examples.gene_b) = (Ok tt, (g2, set_values fresh Examples.gene_b)) /\
     within 0 30 fresh = true).
Proof.
  split; [reflexivity|].
  destruct (proj2 (mutate_rate_0_and_1 Examples.g0 Examples.gene_b) eq_refl)
    as [H0 (u & g1 & fresh & g2 & _ & _ & H1 & _ & Hw)].
  split; [exact H0|]. now exists fresh, g2.
Defined.

(** C1 fails as stated. A gene built with the literal 100 and the bounds
    0 and 30 holds the value 100 at every position. *)
Lemma literal_init_outside_bounds :
  exists gene,
    __init__ (2, 2) 0 30 (Literal 100) Examples.g0 = (Ok gene, Examples.g0) /\
    entry (values gene) 0 0 = Some 100%Q /\
    Qle_bool 100 (max_val gene) = false /\
    in_bounds gene = false.
Proof. eexists. repeat split. Qed.

Lemma gene_values_in_bounds_witness :
  (exists gene g', __init__ (2, 2) 0 30 Random Examples.g0 = (Ok gene, g') /\
                   in_bounds gene = true) /\
  (exists gene g', __init__ (2, 2) 0 30 (Literal 7) Examples.g0 = (Ok gene, g') /\
                   in_bounds gene = true) /\
  (exists new g', crossover Examples.gene_b (Examples.g0, Examples.gene_a)
                    = (Ok new, (g', Examples.gene_a)) /\ in_bounds new = true) /\
  (exists self' g', mutate (1 # 2) (Examples.g0, Examples.gene_a) = (Ok tt, (g', self')) /\
                    in_bounds self' = true).
Proof.
  destruct (gene_values_in_bounds Examples.g0) as (H1 & H2 & H3 & H4).
  split; [exact (H1 (2, 2) 0%Q 30%Q eq_refl)|].
  split; [exact (H2 (2, 2) 0%Q 30%Q 7%Q eq_refl)|].
  split; [exact (H3 Examples.gene_a Examples.gene_b eq_refl eq_refl eq_refl eq_refl)|].
  exact (H4 Examples.gene_a (1 # 2)%Q eq_refl eq_refl).
Defined.

End GeneFacts.

(** ** Crossover on the store *)

Section StoreFacts.

Lemma has_shape_entry {A} (size : nat * nat) (xs : list (list A)) (i j : nat) :
  has_shape size xs = true -> i < fst size -> j < snd size ->
  exists v, entry xs i j = Some v.
Proof.
  intros H Hi Hj. apply has_shape_Forall in H as [Hlen Hrows]. unfold entry.
  destruct (lookup_lt_is_Some_2 xs i) as [row Hrow]; [lia|]. rewrite Hrow.
  rewrite Forall_lookup in Hrows. specialize (Hrows i row Hrow).
  apply lookup_lt_is_Some_2. lia.
Qed.

Lemma at_ref_eq {A} (ref : nat) (m : M (RNG * Gene.t) A) (g : RNG)
    (store : list Gene.t) (self : Gene.t) :
  store !! ref = Some self ->
  at_ref ref m (g, store) =
    (fst (m (g, self)),
     (fst (snd (m (g, self))), <[ref := snd (snd (m (g, self)))]> store)).
Proof.
  intros H. unfold at_ref, zoom. cbn [fst snd]. rewrite H.
  now destruct (m (g, self)) as [r [g' self']].
Qed.

(** C8. For two genes of the store with the same shape, [crossover]
    returns a new object (the next free position of the store) and leaves
    every object that was in the store, the two parents among them, as it
    was. The new gene has the parents' shape, and its value at each
    position is the value of one of the two parents at that position. *)
Theorem crossover_recombines (g : RNG) (store : list Gene.t) (a b : nat)
    (self other : Gene.t) :
  store !! a = Some self -> store !! b = Some other ->
  gene_ok self = true -> gene_ok other = true ->
  Gene.size other = Gene.size self ->
  exists new g',
    crossover_ref a b (g, store) = (Ok (length store), (g', store ++ [new])) /\
    (forall r x, store !! r = Some x -> (store ++ [new]) !! r = Some x) /\
    (store ++ [new]) !! length store = Some new /\
    Gene.size new = Gene.size self /\
    has_shape (Gene.size self) (Gene.values new) = true /\
    forall i j, i < fst (Gene.size self) -> j < snd (Gene.size self) ->
      exists x y v,
        entry (Gene.values self) i j = Some x /\
        entry (Gene.values other) i j = Some y /\
        entry (Gene.values new) i j = Some v /\ (v = x \/ v = y).
Proof.
  intros Ha Hb Hself Hother Hsize.
  assert (Hos : has_shape (Gene.size self) (Gene.values other) = true).
  { rewrite <- Hsize. now apply andb_true_iff in Hother as [_ ?]. }
  destruct (crossover_defined other g self Hself Hos)
    as (new & g1 & mask & g2 & vs & _ & _ & Hvs & Hcross & Hnsize & _ & _).
  assert (Hss : has_shape (Gene.size self) (Gene.values self) = true)
    by now apply andb_true_iff in Hself as [_ ?].
  pose proof (where_shape _ _ _ _ _ Hvs Hss) as Hshape.
  exists (Gene.set_values vs new), g2. split; [|repeat split].
  - unfold crossover_ref, bind, deref, alloc. cbn [fst snd]. rewrite Hb.
    rewrite (at_ref_eq _ _ _ _ _ Ha), Hcross. cbn [fst snd].
    now rewrite list_insert_id by exact Ha.
  - intros r x Hr. rewrite lookup_app_l; [exact Hr|]. now apply lookup_lt_Some in Hr.
  - rewrite lookup_app_r by lia. now rewrite Nat.sub_diag.
  - exact Hnsize.
  - exact Hshape.
  - intros i j Hi Hj. cbn [Gene.values Gene.set_values].
    destruct (has_shape_entry _ _ i j Hshape Hi Hj) as [v Hv].
    destruct (where_pick _ _ _ _ Hvs i j v Hv) as (m & x & y & _ & Hx & Hy & ->).
    exists x, y, (if m then x else y). repeat split; auto. destruct m; auto.
Qed.

Lemma crossover_recombines_witness :
  exists new g',
    crossover_ref 0 1 (Examples.g0, [Examples.gene_a; Examples.gene_b])
      = (Ok 2, (g', [Examples.gene_a; Examples.gene_b; new])) /\
    forall i j, i < 2 -> j < 2 ->
      exists v, entry (Gene.values new) i j = Some v /\ (v = 0%Q \/ v = 30%Q).
Proof.
  destruct (crossover_recombines Examples.g0 [Examples.gene_a; Examples.gene_b] 0 1
              Examples.gene_a Examples.gene_b eq_refl eq_refl eq_refl eq_refl eq_refl)
    as (new & g' & Hrun & _ & _ & _ & _ & Hpick).
  exists new, g'. split; [exact Hrun|]. intros i j Hi Hj.
  destruct (Hpick i j Hi Hj) as (x & y & v & Hx & Hy & Hv & Hor).
  exists v. split; [exact Hv|].
  assert (x = 0%Q /\ y = 30%Q) as [-> ->]; [|exact Hor].
  cbn in Hi, Hj.
  destruct i as [|[|i]]; [| |lia]; (destruct j as [|[|j]]; [| |lia]);
    cbn in Hx, Hy; split; congruence.
Defined.

End StoreFacts.

(** ** The urn learner *)

Section UrnFacts.
Import UrnAgent.

Lemma reinforce_eq (obs choice : nat) (reward : Q) (a : t) (row : list Q) (b s : Q) :
  urn_balls a !! obs = Some row -> row !! choice = Some b ->
  urn_sum_balls a !! obs = Some s ->
  reinforce (obs, choice, reward) a = (Ok tt, reinforced obs choice reward a row b s).
Proof.
  intros Hrow Hb Hs. unfold reinforce, bind, get, lift, modify, getitem.
  cbn [fst snd]. rewrite Hrow, Hb. cbn [urn_sum_balls set_urn_balls]. now rewrite Hs.
Qed.

Lemma urn_shape_lookup (a : t) (obs choice : nat) :
  urn_shape a = true -> obs < num_obs a -> choice < num_choices a ->
  exists row b s, urn_balls a !! obs = Some row /\ row !! choice = Some b /\
                  urn_sum_balls a !! obs = Some s /\ length row = num_choices a.
Proof.
  intros H Ho Hc. apply andb_true_iff in H as [Hb Hs]. apply Nat.eqb_eq in Hs.
  apply has_shape_Forall in Hb as [Hlen Hrows]. cbn [fst snd] in *.
  destruct (lookup_lt_is_Some_2 (urn_balls a) obs) as [row Hrow]; [lia|].
  rewrite Forall_lookup in Hrows. pose proof (Hrows _ _ Hrow) as Hl.
  destruct (lookup_lt_is_Some_2 row choice) as [b Hb]; [lia|].
  destruct (lookup_lt_is_Some_2 (urn_sum_balls a) obs) as [s Hs']; [lia|].
  now exists row, b, s.
Qed.

Lemma reinforced_shape (obs choice : nat) (reward : Q) (a : t) (row : list Q) (b s : Q) :
  urn_shape a = true -> urn_balls a !! obs = Some row ->
  urn_shape (reinforced obs choice reward a row b s) = true.
Proof.
  intros H Hrow. apply andb_true_iff in H as [Hb Hs]. apply Nat.eqb_eq in Hs.
  apply has_shape_Forall in Hb as [Hlen Hrows]. cbn [fst snd] in *.
  unfold urn_shape, reinforced. cbn. apply andb_true_iff. split.
  - apply has_shape_Forall. cbn [fst snd]. rewrite length_insert. split; [exact Hlen|].
    apply Forall_insert; [exact Hrows|]. rewrite length_insert.
    rewrite Forall_lookup in Hrows. eauto.
  - rewrite length_insert. now apply Nat.eqb_eq.
Qed.

Lemma reinforced_sum (obs choice : nat) (reward : Q) (a : t) (row : list Q) (b s : Q)
    (o : nat) (x : Q) :
  urn_sum_balls a !! obs = Some s -> urn_sum_balls a !! o = Some x ->
  urn_sum_balls (reinforced obs choice reward a row b s) !! o
    = Some (if o =? obs then (x + reward)%Q else x).
Proof.
  intros Hs Hx. unfold reinforced. cbn. destruct (Nat.eqb_spec o obs) as [->|Hne].
  - rewrite list_lookup_insert_eq by (now apply lookup_lt_Some in Hs). congruence.
  - now rewrite list_lookup_insert_ne by congruence.
Qed.

Lemma reinforced_ball (obs choice : nat) (reward : Q) (a : t) (row : list Q) (b s : Q)
    (o c : nat) (x : Q) :
  urn_balls a !! obs = Some row -> row !! choice = Some b ->
  entry (urn_balls a) o c = Some x ->
  entry (urn_balls (reinforced obs choice reward a row b s)) o c
    = Some (if (o =? obs) && (c =? choice) then (x + reward)%Q else x).
Proof.
  intros Hrow Hb. unfold reinforced, entry. cbn.
  destruct (Nat.eqb_spec o obs) as [->|Hne]; cbn.
  - rewrite Hrow. rewrite list_lookup_insert_eq by (now apply lookup_lt_Some in Hrow).
    intros Hx. destruct (Nat.eqb_spec c choice) as [->|Hnc].
    + rewrite list_lookup_insert_eq by (now apply lookup_lt_Some in Hb). congruence.
    + now rewrite list_lookup_insert_ne by congruence.
  - now rewrite list_lookup_insert_ne by congruence.
Qed.

Lemma Qsum_insert (row : list Q) (c : nat) (b r : Q) :
  row !! c = Some b -> (Qsum (<[c := (b + r)%Q]> row) == Qsum row + r)%Q.
Proof.
  revert c. induction row as [|x row IH]; intros [|c]; cbn; try discriminate.
  - intros [= ->]. lra.
  - intros H. specialize (IH c H). unfold Qsum in IH. rewrite IH. lra.
Qed.

Lemma reinforced_sums_ok (obs choice : nat) (reward : Q) (a : t) (row : list Q) (b s : Q) :
  sums_ok a = true -> urn_balls a !! obs = Some row -> row !! choice = Some b ->
  urn_sum_balls a !! obs = Some s ->
  sums_ok (reinforced obs choice reward a row b s) = true.
Proof.
  unfold sums_ok. rewrite !forallb_Forall, !Forall_lookup. intros H Hrow Hb Hs i [row' s'] Hi.
  unfold reinforced in Hi. cbn in Hi.
  apply lookup_zip_with_Some in Hi as (x & y & [= <- <-] & Hx & Hy).
  apply Qeq_bool_iff. destruct (Nat.eq_dec i obs) as [->|Hne].
  - rewrite list_lookup_insert_eq in Hx by (now apply lookup_lt_Some in Hrow).
    rewrite list_lookup_insert_eq in Hy by (now apply lookup_lt_Some in Hs).
    injection Hx as <-. injection Hy as <-.
    rewrite (Qsum_insert row choice b reward Hb).
    specialize (H obs (row, s)). cbn in H. apply Qeq_bool_iff in H.
    + now rewrite H.
    + apply lookup_zip_with_Some. eauto.
  - rewrite list_lookup_insert_ne in Hx by congruence.
    rewrite list_lookup_insert_ne in Hy by congruence.
    specialize (H i (row', s')). cbn in H. apply Qeq_bool_iff, H.
    apply lookup_zip_with_Some. eauto.
Qed.

Lemma records_ok_ext (a a' : t) (buf : list (nat * nat * Q)) :
  num_obs a' = num_obs a -> num_choices a' = num_choices a ->
  records_ok a' buf = records_ok a buf.
Proof. intros H1 H2. unfold records_ok. now rewrite H1, H2. Qed.

Lemma reward_on_cons (obs o c : nat) (r : Q) (buf : list (nat * nat * Q)) :
  reward_on obs ((o, c, r) :: buf) = ((if o =? obs then r else 0) + reward_on obs buf)%Q.
Proof. reflexivity. Qed.

Lemma reward_on_pair_cons (obs ch o c : nat) (r : Q) (buf : list (nat * nat * Q)) :
  reward_on_pair obs ch ((o, c, r) :: buf)
    = ((if (o =? obs) && (c =? ch) then r else 0) + reward_on_pair obs ch buf)%Q.
Proof. reflexivity. Qed.

(** The loop of [train] over a buffer whose records are in range. *)
Lemma reinforce_loop (buf : list (nat * nat * Q)) (a : t) :
  urn_shape a = true -> records_ok a buf = true ->
  exists a', for_each buf reinforce a = (Ok tt, a') /\
    urn_shape a' = true /\
    num_obs a' = num_obs a /\ num_choices a' = num_choices a /\
    train_buf a' = train_buf a /\ bias_gene a' = bias_gene a /\
    (sums_ok a = true -> sums_ok a' = true) /\
    (forall obs s, urn_sum_balls a !! obs = Some s ->
       exists s', urn_sum_balls a' !! obs = Some s' /\
                  (s' == s + reward_on obs buf)%Q) /\
    (forall obs c b, entry (urn_balls a) obs c = Some b ->
       exists b', entry (urn_balls a') obs c = Some b' /\
                  (b' == b + reward_on_pair obs c buf)%Q).
Proof.
  revert a. induction buf as [|[[o c] r] buf IH]; intros a Hshape Hrec.
  - exists a. cbn. repeat split; auto.
    + intros obs s Hs. exists s. split; [exact Hs|]. unfold reward_on. cbn. lra.
    + intros obs ch b Hb. exists b. split; [exact Hb|]. unfold reward_on_pair. cbn. lra.
  - cbn in Hrec. apply andb_true_iff in Hrec as [Hoc Hrec].
    apply andb_true_iff in Hoc as [Ho Hc]. apply Nat.ltb_lt in Ho, Hc.
    destruct (urn_shape_lookup a o c Hshape Ho Hc) as (row & b & s & Hrow & Hb & Hs & _).
    set (a1 := reinforced o c r a row b s).
    destruct (IH a1)
      as (a' & Hrun & Hshape' & Hno & Hnc & Hbuf & Hgene & Hinv & Hsums & Hballs).
    { now apply reinforced_shape. }
    { now rewrite (records_ok_ext a a1). }
    exists a'. cbn [for_each]. unfold bind at 1.
    rewrite (reinforce_eq o c r a row b s Hrow Hb Hs). fold a1. rewrite Hrun.
    repeat split; auto.
    + intros Hok. apply Hinv. now apply reinforced_sums_ok.
    + intros obs x Hx.
      destruct (Hsums obs _ (reinforced_sum o c r a row b s obs x Hs Hx)) as (s' & Hs' & E).
      exists s'. split; [exact Hs'|]. rewrite E, reward_on_cons.
      rewrite (Nat.eqb_sym obs o). destruct (o =? obs); lra.
    + intros obs ch x Hx.
      destruct (Hballs obs ch _ (reinforced_ball o c r a row b s obs ch x Hrow Hb Hx))
        as (b' & Hb' & E).
      exists b'. split; [exact Hb'|]. rewrite E, reward_on_pair_cons.
      rewrite (Nat.eqb_sym obs o), (Nat.eqb_sym ch c).
      destruct ((o =? obs) && (c =? ch)); lra.
Qed.

(** *** The constructor of the learner *)

Lemma lookup_map {A B} (f : A -> B) (xs : list A) (i : nat) :
  map f xs !! i = option_map f (xs !! i).
Proof. revert i. induction xs as [|x xs IH]; intros [|i]; cbn; auto. Qed.

Lemma add_row_ones (row : list Q) :
  np.add_row (np.ones (length row)) row = Ok (map (Qplus 1) row).
Proof.
  induction row as [|x row IH]; cbn; [reflexivity|].
  unfold np.ones in IH. now rewrite IH.
Qed.

Lemma apply_bias_loop (g : Gene.t) (ref no nc : nat) (x : Q) (buf : list (nat * nat * Q))
    (grest gd : list (list Q)) (done : list (list Q)) (dsums : list Q) :
  length gd = length done -> length dsums = length done ->
  Forall (fun row => length row = nc) grest ->
  Gene.values g = gd ++ grest ->
  for_each (seq (length done) (length grest)) (apply_bias g)
    (mk ref no nc (done ++ replicate (length grest) (np.ones nc))
        (dsums ++ replicate (length grest) x) buf)
  = (Ok tt, mk ref no nc (done ++ map (map (Qplus 1)) grest)
                 (dsums ++ map (fun row => Qsum (map (Qplus 1) row)) grest) buf).
Proof.
  revert gd done dsums.
  induction grest as [|row grest IH]; intros gd done dsums Hgd Hds Hrows Hg.
  - reflexivity.
  - inversion Hrows as [|? ? Hrow Hrest]; subst.
    cbn [length seq for_each replicate map]. unfold bind at 1.
    assert (Hstep : apply_bias g (length done)
              (mk ref no (length row) (done ++ np.ones (length row)
                                         :: replicate (length grest) (np.ones (length row)))
                  (dsums ++ x :: replicate (length grest) x) buf)
            = (Ok tt, mk ref no (length row)
                         ((done ++ [map (Qplus 1) row])
                            ++ replicate (length grest) (np.ones (length row)))
                         ((dsums ++ [Qsum (map (Qplus 1) row)])
                            ++ replicate (length grest) x) buf)).
    { unfold apply_bias, bind, get, lift, modify, getitem.
      cbn [fst snd urn_balls urn_sum_balls set_urn_balls set_urn_sum_balls
           bias_gene num_obs num_choices train_buf].
      rewrite lookup_app_r, Nat.sub_diag by lia. cbn [lookup list_lookup].
      rewrite Hg, <- Hgd, lookup_app_r, Nat.sub_diag by lia. cbn [lookup list_lookup].
      rewrite add_row_ones.
      rewrite Hgd. rewrite (insert_app_r_alt done), Nat.sub_diag by lia.
      rewrite (insert_app_r_alt dsums), Hds, Nat.sub_diag by lia.
      unfold set_urn_balls, set_urn_sum_balls.
      cbn [insert list_insert bias_gene num_obs num_choices urn_balls urn_sum_balls train_buf].
      now rewrite <- !app_assoc. }
    rewrite Hstep.
    replace (S (length done)) with (length (done ++ [map (Qplus 1) row]))
      by (rewrite length_app; cbn; lia).
    rewrite (IH (gd ++ [row])); try (rewrite !length_app; cbn; lia); auto.
    + now rewrite <- !app_assoc.
    + now rewrite <- app_assoc.
Qed.

(** A gene with ordered bounds and values of its shape gives a learner:
    the counts are one plus the gene's values, the running sums are the
    totals of the counts, and the buffer is empty. *)
Lemma agent_init_ok (ref : nat) (g : Gene.t) :
  gene_ok g = true ->
  exists a, __init__ ref g = Ok a /\
    urn_balls a = map (map (Qplus 1)) (Gene.values g) /\
    urn_sum_balls a = map (fun row => Qsum (map (Qplus 1) row)) (Gene.values g) /\
    train_buf a = [] /\ bias_gene a = ref /\
    num_obs a = fst (Gene.size g) /\ num_choices a = snd (Gene.size g) /\
    urn_shape a = true /\ sums_ok a = true.
Proof.
  intros Hok. apply andb_true_iff in Hok as [_ Hs].
  pose proof Hs as Hshape. apply has_shape_Forall in Hs as [Hlen Hrows].
  eexists. unfold __init__. rewrite <- Hlen.
  pose proof (apply_bias_loop g ref (length (Gene.values g)) (snd (Gene.size g))
                (inject_Z (Z.of_nat (snd (Gene.size g)))) []
                (Gene.values g) [] [] [] eq_refl eq_refl Hrows eq_refl) as Hloop.
  cbn [length app] in Hloop. rewrite Hloop.
  split; [reflexivity|]. cbn [urn_balls urn_sum_balls train_buf bias_gene num_obs num_choices].
  repeat split; auto.
  - unfold urn_shape. cbn [urn_balls urn_sum_balls num_obs num_choices].
    rewrite has_shape_map, length_map, Nat.eqb_refl, andb_true_r.
    now rewrite Hlen, <- surjective_pairing.
  - unfold sums_ok. cbn [urn_balls urn_sum_balls]. apply forallb_Forall.
    apply Forall_lookup. intros i [row s] Hi.
    apply lookup_zip_with_Some in Hi as (r & s' & [= <- <-] & Hr & Hs').
    rewrite lookup_map in Hr. rewrite lookup_map in Hs'.
    destruct (Gene.values g !! i) as [v|]; [|discriminate].
    cbn in Hr, Hs'. injection Hr as <-. injection Hs' as <-. apply Qeq_bool_iff. reflexivity.
Qed.

(** With biases that are not negative, every count is positive. *)
Lemma agent_init_positive (ref : nat) (g : Gene.t) (a : t) :
  __init__ ref g = Ok a -> gene_ok g = true ->
  Forall (Forall (fun v => 0 <= v)%Q) (Gene.values g) ->
  positive_counts a = true.
Proof.
  intros Hinit Hok Hpos. destruct (agent_init_ok ref g Hok) as (a' & Hinit' & Hballs & _).
  assert (a' = a) as -> by congruence.
  unfold positive_counts. rewrite Hballs. apply forallb_Forall.
  apply Forall_map. eapply Forall_impl; [exact Hpos|]. cbn. intros row Hrow.
  apply forallb_Forall, Forall_map. eapply Forall_impl; [exact Hrow|]. cbn. intros v Hv.
  apply Qltb_true. lra.
Qed.

(** [store_buffer] with an observation and a choice the learner has, and
    [update_reward], keep the records of the buffer in range. *)
Lemma store_buffer_ok (a : t) (obs choice : nat) :
  agent_ok a = true -> obs < num_obs a -> choice < num_choices a ->
  exists a', store_buffer obs choice a = (Ok tt, a') /\ agent_ok a' = true /\
    train_buf a' = train_buf a ++ [(obs, choice, 0%Q)] /\
    urn_balls a' = urn_balls a /\ urn_sum_balls a' = urn_sum_balls a.
Proof.
  intros Hok Ho Hc. eexists. split; [reflexivity|]. repeat split.
  apply andb_true_iff in Hok as [Hs Hr]. apply andb_true_iff. split; [exact Hs|].
  change (records_ok a (train_buf a ++ [(obs, choice, 0%Q)]) = true).
  unfold records_ok in *. rewrite forallb_app, Hr. cbn [forallb andb].
  apply Nat.ltb_lt in Ho, Hc. now rewrite Ho, Hc.
Qed.

(** [train()] with the exact additions of this embedding, on a learner
    whose buffered records name observations and choices it has: the
    buffer is empty; the running sum of every observation is its sum
    before plus the total reward of the buffered records for that
    observation; and the count of every pair of an observation and a
    choice is its count before plus the reward of the records for that
    pair. The learner keeps its shape, and running sums that were the
    totals of the counts still are. With the rounded additions of the
    program the totals can differ (see the section on binary64). *)
Lemma train_spec (a : t) :
  agent_ok a = true ->
  exists a', train a = (Ok tt, a') /\
    train_buf a' = [] /\
    agent_ok a' = true /\
    (sums_ok a = true -> sums_ok a' = true) /\
    (forall obs s, urn_sum_balls a !! obs = Some s ->
       exists s', urn_sum_balls a' !! obs = Some s' /\
                  (s' == s + reward_on obs (train_buf a))%Q) /\
    (forall obs c b, entry (urn_balls a) obs c = Some b ->
       exists b', entry (urn_balls a') obs c = Some b' /\
                  (b' == b + reward_on_pair obs c (train_buf a))%Q).
Proof.
  intros Hok. apply andb_true_iff in Hok as [Hshape Hrec].
  destruct (reinforce_loop (train_buf a) a Hshape Hrec)
    as (a1 & Hrun & Hshape1 & Hno & Hnc & Hbuf & Hgene & Hinv & Hsums & Hballs).
  exists (set_train_buf [] a1). unfold train, bind, get, modify. rewrite Hrun.
  repeat split; auto.
  unfold agent_ok. cbn. now rewrite andb_true_r.
Qed.

Lemma probability_eq (a : t) (obs choice : nat) (row : list Q) (b s : Q) :
  urn_balls a !! obs = Some row -> row !! choice = Some b ->
  urn_sum_balls a !! obs = Some s ->
  probability a obs choice = Some (b / s)%Q.
Proof.
  intros Hrow Hb Hs. unfold probability, probabilities, bind, get, lift, getitem, ret.
  cbn [fst snd]. rewrite Hrow, Hs. cbn [fst]. now rewrite lookup_map, Hb.
Qed.

Lemma sums_ok_lookup (a : t) (obs : nat) (row : list Q) (s : Q) :
  sums_ok a = true -> urn_balls a !! obs = Some row ->
  urn_sum_balls a !! obs = Some s -> (s == Qsum row)%Q.
Proof.
  unfold sums_ok. rewrite forallb_Forall, Forall_lookup. intros H Hrow Hs.
  specialize (H obs (row, s)). cbn in H. apply Qeq_bool_iff, H.
  apply lookup_zip_with_Some. eauto.
Qed.

Lemma Qsum_nonneg (xs : list Q) : Forall (fun x => 0 < x)%Q xs -> (0 <= Qsum xs)%Q.
Proof.
  induction 1 as [|x xs Hx _ IH]; cbn; [lra|]. change (foldr Qplus 0%Q xs) with (Qsum xs). lra.
Qed.

Lemma Qsum_bounds_entry (xs : list Q) (i : nat) (b : Q) :
  Forall (fun x => 0 < x)%Q xs -> xs !! i = Some b -> (0 < b /\ b <= Qsum xs)%Q.
Proof.
  intros H. revert i. induction H as [|x xs Hx Hxs IH]; intros [|i]; cbn; try discriminate.
  - intros [= <-]. pose proof (Qsum_nonneg xs Hxs). change (foldr Qplus 0%Q xs) with (Qsum xs).
    split; lra.
  - intros Hb. destruct (IH i Hb). change (foldr Qplus 0%Q xs) with (Qsum xs). split; lra.
Qed.

Lemma positive_counts_row (a : t) (obs : nat) (row : list Q) :
  positive_counts a = true -> urn_balls a !! obs = Some row ->
  Forall (fun x => 0 < x)%Q row.
Proof.
  unfold positive_counts. rewrite forallb_Forall, Forall_lookup. intros H Hrow.
  specialize (H _ _ Hrow). cbn in H. apply forallb_Forall in H.
  eapply Forall_impl; [exact H|]. cbn. intros x. apply Qltb_true.
Qed.

(** The reinforcement step on the level of numbers. *)
Lemma urn_ratio_grows (b s r : Q) :
  (0 < b)%Q -> (b <= s)%Q -> (0 < r)%Q -> (b / s <= (b + r) / (s + r))%Q.
Proof.
  intros Hb Hs Hr. apply Qle_shift_div_l; [lra|].
  assert (Hne : ~ (s == 0)%Q) by lra.
  pose proof (Qmult_div_r b s Hne) as Ht.
  assert (H1 : (b / s <= 1)%Q) by (apply Qle_shift_div_r; lra).
  assert (H0 : (0 <= b / s)%Q) by (apply Qle_shift_div_l; lra).
  set (t := (b / s)%Q) in *. nra.
Qed.

Lemma train_single (a : t) (obs choice : nat) (r : Q) (row : list Q) (b s : Q) :
  train_buf a = [(obs, choice, r)] ->
  urn_balls a !! obs = Some row -> row !! choice = Some b ->
  urn_sum_balls a !! obs = Some s ->
  train a = (Ok tt, set_train_buf [] (reinforced obs choice r a row b s)).
Proof.
  intros Hbuf Hrow Hb Hs. unfold train, bind, get, modify. rewrite Hbuf.
  cbn [for_each]. unfold bind at 1.
  now rewrite (reinforce_eq obs choice r a row b s Hrow Hb Hs).
Qed.

(** With the exact additions and quotients of this embedding: on a
    learner with positive counts whose running sums are the totals of its
    counts, a [train()] step whose buffer holds the single record
    [(obs, choice, r)] with [r > 0] does not lower the probability of
    [choice] under [obs]. With the rounded operations of the program it
    can (see the section on binary64). *)
Lemma reward_raises_probability (a : t) (obs choice : nat) (r : Q) :
  urn_shape a = true -> sums_ok a = true -> positive_counts a = true ->
  obs < num_obs a -> choice < num_choices a ->
  train_buf a = [(obs, choice, r)] -> (0 < r)%Q ->
  exists a' p p',
    train a = (Ok tt, a') /\
    probability a obs choice = Some p /\
    probability a' obs choice = Some p' /\
    (p <= p')%Q.
Proof.
  intros Hshape Hsums Hpos Ho Hc Hbuf Hr.
  destruct (urn_shape_lookup a obs choice Hshape Ho Hc) as (row & b & s & Hrow & Hb & Hs & _).
  exists (set_train_buf [] (reinforced obs choice r a row b s)),
         (b / s)%Q, ((b + r) / (s + r))%Q.
  split; [now apply train_single|].
  split; [exact (probability_eq a obs choice row b s Hrow Hb Hs)|]. split.
  - pose proof (reinforced_sum obs choice r a row b s obs s Hs Hs) as Hs'.
    pose proof (reinforced_ball obs choice r a row b s obs choice b Hrow Hb) as Hb'.
    rewrite !Nat.eqb_refl in *. cbn [andb] in Hb'.
    unfold entry in Hb'. rewrite Hrow in Hb'. specialize (Hb' Hb).
    destruct (urn_balls (reinforced obs choice r a row b s) !! obs) as [row'|] eqn:Hrow';
      [|discriminate].
    eapply probability_eq; cbn; eauto.
  - pose proof (sums_ok_lookup a obs row s Hsums Hrow Hs) as E.
    destruct (Qsum_bounds_entry row choice b (positive_counts_row a obs row Hpos Hrow) Hb).
    apply urn_ratio_grows; lra.
Qed.

(** C10, as the code has it. [get_action] leaves the learner as it is.
    Of the calls a learner accepts, those that can change it are
    [store_buffer], [update_reward] and [train]; each of them does on
    some learner. *)
Theorem get_action_keeps_learner :
  (forall obs g a, snd (snd (get_action obs (g, a))) = a) /\
  (forall c g a, snd (snd (run_call c (g, a))) <> a ->
     (exists obs choice, c = StoreBuffer obs choice) \/
     (exists reward, c = UpdateReward reward) \/ c = Train) /\
  (exists g a, snd (snd (run_call (StoreBuffer 0 0) (g, a))) <> a) /\
  (exists g a, snd (snd (run_call (UpdateReward 1) (g, a))) <> a) /\
  (exists g a, snd (snd (run_call Train (g, a))) <> a).
Proof.
  assert (Hget : forall obs g a, snd (snd (get_action obs (g, a))) = a).
  { intros obs g a. unfold get_action, bind, on_self, on_rng, zoom, get. cbn [fst snd].
    destruct (probabilities obs a) as [[p|e] a1] eqn:Hp.
    - assert (a1 = a) as ->.
      { revert Hp. unfold probabilities, bind, get, lift, ret.
        destruct (getitem (urn_balls a) obs); [|now intros [= <-]].
        destruct (getitem (urn_sum_balls a) obs); now intros [= <-]. }
      cbn [fst snd]. now destruct (rng.choice_p (num_choices a) p g).
    - revert Hp. unfold probabilities, bind, get, lift, ret.
      destruct (getitem (urn_balls a) obs); [|now intros [= <-]].
      destruct (getitem (urn_sum_balls a) obs); now intros [= <-]. }
  split; [exact Hget|]. split; [|repeat split].
  - intros [obs|obs choice|reward|] g a H; eauto.
    exfalso. apply H. cbn [run_call]. unfold bind.
    specialize (Hget obs g a). destruct (get_action obs (g, a)) as [[n|e] [g' a']]; exact Hget.
  - exists (mkRNG (fun _ => 0%Z) 0), (mk 0 1 1 [[1%Q]] [1%Q] []). discriminate.
  - exists (mkRNG (fun _ => 0%Z) 0), (mk 0 1 1 [[1%Q]] [1%Q] [(0, 0, 0%Q)]). discriminate.
  - exists (mkRNG (fun _ => 0%Z) 0), (mk 0 1 1 [[1%Q]] [1%Q] [(0, 0, 1%Q)]). discriminate.
Qed.

(** Outside that range [train] stops with [IndexError] at the first record
    it cannot apply: the records before it have been applied and the buffer
    is kept whole. *)
Example train_stops_at_unknown_observation :
  train (Examples.agent [(0, 1, 1%Q); (5, 0, 1%Q)])
    = (Raise IndexError,
       mk 0 2 2 [[1%Q; (2 + 1)%Q]; [1%Q; 1%Q]] [(3 + 1)%Q; 2%Q] [(0, 1, 1%Q); (5, 0, 1%Q)]).
Proof. reflexivity. Qed.

(** *** The records that the loop buffers are in range *)

Lemma cumsum_from_last (acc d : Q) (xs : list Q) :
  xs <> [] -> (List.last (rng.cumsum_from acc xs) d == acc + Qsum xs)%Q.
Proof.
  revert acc. induction xs as [|x xs IH]; intros acc Hne; [congruence|].
  destruct xs as [|y xs].
  - cbn. lra.
  - change (List.last (rng.cumsum_from acc (x :: y :: xs)) d)
      with (List.last (rng.cumsum_from (acc + x) (y :: xs)) d).
    rewrite IH by discriminate. cbn. lra.
Qed.

Lemma cumsum_from_length (acc : Q) (xs : list Q) :
  length (rng.cumsum_from acc xs) = length xs.
Proof. revert acc. induction xs as [|x xs IH]; intros acc; cbn; auto. Qed.

Lemma searchsorted_right_below (cdf : list Q) (u : Q) :
  cdf <> [] -> (u < List.last cdf 0)%Q -> rng.searchsorted_right cdf u < length cdf.
Proof.
  intros Hne Hu. unfold rng.searchsorted_right.
  rewrite (app_removelast_last 0%Q Hne) at 1 2. rewrite filter_app, !length_app.
  pose proof (length_filter (fun c => Qle_bool c u = true) (removelast cdf)) as Hle.
  assert (Hlast : filter (fun c => Qle_bool c u = true) [List.last cdf 0%Q] = []).
  { cbn. unfold filter, list_filter. destruct (decide _) as [H|H]; [|reflexivity].
    apply Qle_bool_iff in H. lra. }
  rewrite Hlast. cbn. lia.
Qed.

(** [rng.choice(n, p=p)] returns one of [0 .. n-1]. *)
Lemma choice_p_range (n : nat) (p : list Q) : post (rng.choice_p n p) (fun c => c < n).
Proof.
  intros g c g'. unfold rng.choice_p.
  destruct (n =? 0) eqn:Hn; [discriminate|]. apply Nat.eqb_neq in Hn.
  destruct (length p =? n) eqn:Hlen; [|discriminate]. apply Nat.eqb_eq in Hlen. cbn [negb].
  destruct (existsb _ p); [discriminate|].
  destruct (Qltb rng.atol _) eqn:Hsum; [discriminate|]. apply Qltb_false in Hsum.
  unfold bind. destruct (rng.random g) as [[u|e] g1] eqn:Hu; [|discriminate].
  intros [= <- <-]. apply random_range in Hu as [_ Hu1].
  assert (Hp : p <> []) by (intros ->; cbn in Hlen; lia).
  set (cdf := rng.cumsum p). set (total := List.last cdf 1%Q).
  assert (Htotal : (total == Qsum p)%Q).
  { unfold total, cdf, rng.cumsum. rewrite cumsum_from_last by exact Hp. lra. }
  assert (Hpos : (0 < total)%Q).
  { rewrite Htotal. revert Hsum. unfold rng.atol. intros Hsum.
    apply Qabs_Qle_condition in Hsum as [Hlo _].
    assert ((1 # 2 ^ 26) < 1)%Q by reflexivity. lra. }
  assert (Hcdf : cdf <> []).
  { intros E. apply (f_equal (@length Q)) in E. unfold cdf, rng.cumsum in E.
    rewrite cumsum_from_length in E. cbn in E. lia. }
  replace n with (length (map (fun c => c / total)%Q cdf))
    by (rewrite length_map; unfold cdf, rng.cumsum; now rewrite cumsum_from_length).
  apply searchsorted_right_below.
  - intros E. apply (f_equal (@length Q)) in E. rewrite length_map in E.
    destruct cdf; [congruence|discriminate].
  - rewrite (app_removelast_last 1%Q Hcdf). rewrite map_app. cbn [map].
    rewrite last_last. fold total.
    assert (total / total == 1)%Q by (field; lra). lra.
Qed.

(** An action that [get_action] returns, and the observation it was asked
    for, are within the learner's range: the records that the loop then
    stores in the buffer name an observation and a choice it has. *)
Lemma get_action_range (obs : nat) (g : RNG) (a : t) (c : nat) (s' : RNG * t) :
  urn_shape a = true -> get_action obs (g, a) = (Ok c, s') ->
  obs < num_obs a /\ c < num_choices a.
Proof.
  intros Hshape. unfold get_action, bind. rewrite on_self_get. cbn [snd].
  rewrite on_self_eq. unfold probabilities at 1 2. unfold bind, get, lift, getitem.
  cbn [fst snd]. destruct (urn_balls a !! obs) as [balls|] eqn:Hballs; [|discriminate].
  destruct (urn_sum_balls a !! obs) as [total|]; [|discriminate]. cbn [fst snd ret].
  rewrite on_rng_eq.
  destruct (rng.choice_p (num_choices a) _ g) as [[c'|e] g1] eqn:Hc; [|discriminate].
  cbn [fst snd]. intros [= <- _]. apply choice_p_range in Hc. split; [|exact Hc].
  apply andb_true_iff in Hshape as [Hs _]. apply has_shape_Forall in Hs as [Hlen _].
  cbn [fst] in Hlen. rewrite <- Hlen. now apply lookup_lt_Some in Hballs.
Qed.

(** [update_reward] changes the reward of the last record only. *)
Lemma update_reward_ok (a : t) (reward : Q) :
  agent_ok a = true ->
  exists a', update_reward reward a = (Ok tt, a') /\ agent_ok a' = true /\
    urn_balls a' = urn_balls a /\ urn_sum_balls a' = urn_sum_balls a /\
    map fst (train_buf a') = map fst (train_buf a).
Proof.
  intros Hok. unfold update_reward, bind, get.
  destruct (train_buf a) as [|rec0 buf0] eqn:Hbuf using rev_ind.
  - cbn. exists a. repeat split; auto. now rewrite Hbuf.
  - clear IHbuf0. rewrite map_app. cbn [map]. rewrite last_last. destruct rec0 as [[o c] r].
    eexists. split; [reflexivity|]. cbn [set_train_buf urn_balls urn_sum_balls train_buf].
    rewrite length_app. cbn [length]. rewrite Nat.add_1_r. cbn [pred].
    rewrite insert_app_r_alt, Nat.sub_diag by lia. cbn [insert list_insert].
    repeat split; [|now rewrite !map_app].
    apply andb_true_iff in Hok as [Hs Hr]. apply andb_true_iff. split; [exact Hs|].
    rewrite Hbuf in Hr.
    change (records_ok a (buf0 ++ [(o, c, (r + reward)%Q)]) = true).
    unfold records_ok in *. rewrite forallb_app in *. exact Hr.
Qed.

(** C10 fails as stated. [update_reward], which is neither
    [store_buffer] nor [train], changes the buffer of a learner. *)
Lemma update_reward_changes_learner :
  snd (snd (run_call (UpdateReward 1) (Examples.g0, Examples.agent [(0, 1, 0%Q)])))
    = Examples.agent [(0, 1, (0 + 1)%Q)] /\
  snd (snd (run_call (UpdateReward 1) (Examples.g0, Examples.agent [(0, 1, 0%Q)])))
    <> Examples.agent [(0, 1, 0%Q)] /\
  (forall obs choice, UpdateReward 1 <> StoreBuffer obs choice) /\
  UpdateReward 1 <> Train.
Proof. repeat split; discriminate. Qed.

Lemma get_action_keeps_learner_witness :
  snd (snd (run_call Train (Examples.g0, Examples.agent [(0, 1, 1%Q)])))
    <> Examples.agent [(0, 1, 1%Q)] /\
  ((exists obs choice, Train = StoreBuffer obs choice) \/
   (exists reward, Train = UpdateReward reward) \/ Train = Train).
Proof.
  assert (H : snd (snd (run_call Train (Examples.g0, Examples.agent [(0, 1, 1%Q)])))
              <> Examples.agent [(0, 1, 1%Q)]) by discriminate.
  split; [exact H|].
  exact (proj1 (proj2 get_action_keeps_learner) Train Examples.g0 _ H).
Defined.

End UrnFacts.

(** ** Training in binary64 *)

Section Binary64Facts.
Import Floats.PrimFloat UrnAgent64 Examples64.

Lemma urn_shape64_lookup (a : t) (obs choice : nat) :
  urn_shape64 a = true -> obs < num_obs a -> choice < num_choices a ->
  exists row b s, urn_balls a !! obs = Some row /\ row !! choice = Some b /\
                  urn_sum_balls a !! obs = Some s.
Proof.
  intros H Ho Hc. apply andb_true_iff in H as [Hb Hs]. apply Nat.eqb_eq in Hs.
  apply has_shape_Forall in Hb as [Hlen Hrows]. cbn [fst snd] in *.
  destruct (lookup_lt_is_Some_2 (urn_balls a) obs) as [row Hrow]; [lia|].
  rewrite Forall_lookup in Hrows. pose proof (Hrows _ _ Hrow) as Hl.
  destruct (lookup_lt_is_Some_2 row choice) as [b Hb]; [lia|].
  destruct (lookup_lt_is_Some_2 (urn_sum_balls a) obs) as [s Hs']; [lia|].
  now exists row, b, s.
Qed.

Lemma reinforce64_eq (obs choice : nat) (r : float) (a : t) (row : list float) (b s : float) :
  urn_balls a !! obs = Some row -> row !! choice = Some b ->
  urn_sum_balls a !! obs = Some s ->
  reinforce (obs, choice, r) a
    = (Ok tt, set_urn_sum_balls (<[obs := (s + r)%float]> (urn_sum_balls a))
                (set_urn_balls (<[obs := <[choice := (b + r)%float]> row]> (urn_balls a)) a)).
Proof.
  intros Hrow Hb Hs. unfold reinforce, bind, get, lift, getitem, modify. cbn [fst snd].
  rewrite Hrow, Hb. cbn [urn_sum_balls set_urn_balls]. now rewrite Hs.
Qed.

(** The loop of [train] over a buffer whose records are in range. *)
Lemma reinforce64_loop (buf : list (nat * nat * float)) (a : t) :
  urn_shape64 a = true -> records_ok64 a buf = true ->
  exists a', for_each buf reinforce a = (Ok tt, a') /\
    urn_shape64 a' = true /\
    num_obs a' = num_obs a /\ num_choices a' = num_choices a /\
    train_buf a' = train_buf a /\
    (forall obs s, urn_sum_balls a !! obs = Some s ->
       urn_sum_balls a' !! obs = Some (add_all s (rewards_on obs buf))) /\
    (forall obs c b, entry (urn_balls a) obs c = Some b ->
       entry (urn_balls a') obs c = Some (add_all b (rewards_on_pair obs c buf))).
Proof.
  revert a. induction buf as [|[[o c] r] buf IH]; intros a Hshape Hrec.
  - exists a. cbn. auto 10.
  - cbn [records_ok64 forallb] in Hrec. apply andb_true_iff in Hrec as [Hoc Hrec].
    apply andb_true_iff in Hoc as [Ho Hc]. apply Nat.ltb_lt in Ho, Hc.
    destruct (urn_shape64_lookup a o c Hshape Ho Hc) as (row & b & s & Hrow & Hb & Hs).
    set (a0 := set_urn_sum_balls (<[o := (s + r)%float]> (urn_sum_balls a))
                 (set_urn_balls (<[o := <[c := (b + r)%float]> row]> (urn_balls a)) a)).
    assert (Hshape0 : urn_shape64 a0 = true).
    { apply andb_true_iff in Hshape as [Hb0 Hs0]. apply Nat.eqb_eq in Hs0.
      apply has_shape_Forall in Hb0 as [Hlen Hrows]. cbn [fst snd] in *.
      unfold urn_shape64, a0. cbn. apply andb_true_iff. split.
      - apply has_shape_Forall. cbn [fst snd]. rewrite length_insert. split; [exact Hlen|].
        apply Forall_insert; [exact Hrows|]. rewrite length_insert.
        rewrite Forall_lookup in Hrows. eauto.
      - rewrite length_insert. now apply Nat.eqb_eq. }
    destruct (IH a0 Hshape0 Hrec) as (a1 & Hrun & Hshape1 & Hno & Hnc & Hbuf & Hsums & Hballs).
    exists a1. split.
    { cbn [for_each]. unfold bind at 1. now rewrite (reinforce64_eq o c r a row b s). }
    split; [exact Hshape1|]. split; [exact Hno|]. split; [exact Hnc|]. split; [exact Hbuf|].
    split.
    + intros obs x Hx. cbn [rewards_on]. destruct (Nat.eqb_spec o obs) as [->|Hne].
      * rewrite Hs in Hx. injection Hx as <-. rewrite (Hsums obs (s + r)%float).
        -- reflexivity.
        -- unfold a0. cbn. apply list_lookup_insert_eq. now apply lookup_lt_Some in Hs.
      * apply Hsums. unfold a0. cbn. now rewrite list_lookup_insert_ne by congruence.
    + intros obs ch x Hx. cbn [rewards_on_pair]. unfold entry in Hx.
      destruct (Nat.eqb_spec o obs) as [->|Hne]; cbn [andb].
      * rewrite Hrow in Hx. destruct (Nat.eqb_spec c ch) as [->|Hnc'].
        -- rewrite Hb in Hx. injection Hx as <-. rewrite (Hballs obs ch (b + r)%float).
           ++ reflexivity.
           ++ unfold a0, entry. cbn.
              rewrite list_lookup_insert_eq by (now apply lookup_lt_Some in Hrow).
              apply list_lookup_insert_eq. now apply lookup_lt_Some in Hb.
        -- apply Hballs. unfold a0, entry. cbn.
           rewrite list_lookup_insert_eq by (now apply lookup_lt_Some in Hrow).
           now rewrite list_lookup_insert_ne by congruence.
      * apply Hballs. unfold a0, entry. cbn.
        now rewrite list_lookup_insert_ne by congruence.
Qed.

Lemma fold_left_Qplus (rs : list Q) (b : Q) : (fold_left Qplus rs b == b + Qsum rs)%Q.
Proof.
  revert b. induction rs as [|r rs IH]; intros b; cbn; [lra|].
  rewrite IH. change (foldr Qplus 0%Q rs) with (Qsum rs). lra.
Qed.

(** C4, as the code has it. [train()] on a learner whose buffered records
    name observations and choices it has returns and empties the buffer.
    It has added the reward of every record to the count of the record's
    observation and choice and to the running sum of its observation, one
    float64 addition per record, in the order of the buffer; counts and
    sums no record names are unchanged, and the arrays keep their shape.
    Were the additions exact, adding the rewards one by one would give
    the value before plus their total. *)
Theorem train_adds_in_buffer_order (a : t) :
  urn_shape64 a = true -> records_ok64 a (train_buf a) = true ->
  (exists a', train a = (Ok tt, a') /\
     train_buf a' = [] /\ urn_shape64 a' = true /\
     num_obs a' = num_obs a /\ num_choices a' = num_choices a /\
     (forall obs s, urn_sum_balls a !! obs = Some s ->
        urn_sum_balls a' !! obs = Some (add_all s (rewards_on obs (train_buf a)))) /\
     (forall obs c b, entry (urn_balls a) obs c = Some b ->
        entry (urn_balls a') obs c
          = Some (add_all b (rewards_on_pair obs c (train_buf a))))) /\
  (forall (b : Q) (rs : list Q), (fold_left Qplus rs b == b + Qsum rs)%Q).
Proof.
  intros Hshape Hrec. split; [|intros b rs; apply fold_left_Qplus].
  destruct (reinforce64_loop (train_buf a) a Hshape Hrec)
    as (a1 & Hrun & Hshape1 & Hno & Hnc & Hbuf & Hsums & Hballs).
  exists (set_train_buf [] a1). unfold train, bind, get, modify. rewrite Hrun.
  repeat split; auto.
Qed.

Lemma train_adds_in_buffer_order_witness :
  exists a',
    train (one_urn [1; 1]%float 2%float
             [(0, 1, 0.5%float); (0, 0, 2%float); (0, 1, 0.25%float)]) = (Ok tt, a') /\
    entry (urn_balls a') 0 1 = Some 1.75%float /\
    entry (urn_balls a') 0 0 = Some 3%float /\
    urn_sum_balls a' !! 0 = Some 4.75%float.
Proof.
  destruct (train_adds_in_buffer_order
              (one_urn [1; 1]%float 2%float
                 [(0, 1, 0.5%float); (0, 0, 2%float); (0, 1, 0.25%float)]) eq_refl eq_refl)
    as [(a' & Hrun & _ & _ & _ & _ & Hsums & Hballs) _].
  exists a'. split; [exact Hrun|]. split; [exact (Hballs 0 1 1%float eq_refl)|].
  split; [exact (Hballs 0 0 1%float eq_refl)|]. exact (Hsums 0 2%float eq_refl).
Defined.

(** C4 fails as stated. Two buffered records reward the same choice with
    [1] each. Its count [2^53] is not raised by [2], as it would be if
    the total reward were added: each addition of [1] rounds back to
    [2^53]. After a single such record the running sum is [2^53 + 4],
    while the row of counts still totals [2^53 + 2]. *)
Lemma train_total_fails_in_binary64 :
  (exists a',
     train (big_urn [(0, 0, 1%float); (0, 0, 1%float)]) = (Ok tt, a') /\
     entry (urn_balls a') 0 0 = Some 0x1p53%float /\
     (0x1p53 + (1 + 1))%float = 0x1.0000000000001p53%float /\
     eqb 0x1p53 0x1.0000000000001p53 = false) /\
  (exists a',
     train (big_urn [(0, 0, 1%float)]) = (Ok tt, a') /\
     urn_balls a' = [[0x1p53; 2]%float] /\
     urn_sum_balls a' = [0x1.0000000000002p53%float] /\
     (0x1p53 + 2)%float = 0x1.0000000000001p53%float /\
     eqb 0x1.0000000000002p53 0x1.0000000000001p53 = false).
Proof.
  split; eexists; (split; [vm_compute; reflexivity|]); repeat split; vm_compute; reflexivity.
Qed.




End Binary64Facts.

(** ** The configuration cell and the loop *)

Section LoopFacts.








(** C2 on the code. Breeding without crossover, a population of two
    whose creatures all expire: the initial creatures hold four distinct
    genes, and after one generation both offspring hold the same two gene
    objects, those of the fitter parent. *)
Theorem offspring_without_crossover_share_genes :
  exists w0 w1,
    fst (setup Examples.cfg_no_crossover Examples.g0) = Ok w0 /\
    map gene_refs (population w0) = [[0; 1]; [2; 3]] /\
    owners_disjoint (population w0) = true /\
    notebook Examples.cfg_no_crossover Examples.g0 = (Ok tt, Some w1) /\
    map gene_refs (population w1) = [[0; 1]; [0; 1]] /\
    owners_disjoint (population w1) = false.
Proof.
  eexists _, _.
  split; [vm_compute; reflexivity|].
  split; [vm_compute; reflexivity|].
  split; [vm_compute; reflexivity|].
  split; [vm_compute; reflexivity|].
  split; vm_compute; reflexivity.
Qed.

End LoopFacts.


(** ** The fuel of the episode loop is never used up *)

Create HintDb fuel.

Section Fuel.
Context {S : Type}.

Lemma fueled_ret {A} (a : A) : fueled (@ret S A a).
Proof. intros s. discriminate. Qed.

Lemma fueled_raise {A} (e : exn) : e <> OutOfFuel -> fueled (@raise S A e).
Proof. intros H s. cbn. congruence. Qed.

Lemma fueled_lift {A} (o : outcome A) : o <> Raise OutOfFuel -> fueled (@lift S A o).
Proof. intros H s. exact H. Qed.

Lemma fueled_get : fueled (@get S).
Proof. intros s. discriminate. Qed.

Lemma fueled_modify (f : S -> S) : fueled (modify f).
Proof. intros s. discriminate. Qed.

Lemma fueled_bind {A B} (m : M S A) (k : A -> M S B) :
  fueled m -> (forall a, fueled (k a)) -> fueled (bind m k).
Proof.
  intros Hm Hk s. unfold bind. specialize (Hm s).
  destruct (m s) as [[a|e] s']; [apply Hk|]. cbn in *. intros [= ->]. now apply Hm.
Qed.

Lemma fueled_zoom {T A} (view : S -> outcome T) (update : T -> S -> S) (m : M T A) :
  (forall s, view s <> Raise OutOfFuel) -> fueled m -> fueled (zoom view update m).
Proof.
  intros Hv Hm s. unfold zoom. specialize (Hv s).
  destruct (view s) as [t|e]; [|cbn; congruence].
  specialize (Hm t). now destruct (m t).
Qed.

Lemma fueled_for_each {A} (xs : list A) (body : A -> M S unit) :
  (forall x, fueled (body x)) -> fueled (for_each xs body).
Proof.
  intros H. induction xs as [|x xs IH]; cbn; [apply fueled_ret|].
  apply fueled_bind; auto.
Qed.

Lemma fueled_map_m {A B} (f : A -> M S B) (xs : list A) :
  (forall x, fueled (f x)) -> fueled (map_m f xs).
Proof.
  intros H. induction xs as [|x xs IH]; cbn; [apply fueled_ret|].
  apply fueled_bind; [auto|]. intros y. apply fueled_bind; [auto|].
  intros ys. apply fueled_ret.
Qed.

End Fuel.

#[local] Hint Resolve fueled_ret fueled_get fueled_modify fueled_bind fueled_zoom
  fueled_for_each fueled_map_m : fuel.

Lemma getitem_exn {A} (xs : list A) (i : nat) : getitem xs i <> Raise OutOfFuel.
Proof. unfold getitem. now destruct (xs !! i). Qed.

Lemma dict_get_exn {A} (d : dict A) (key : string) : dict_get d key <> Raise OutOfFuel.
Proof.
  induction d as [|[k v] d IH]; cbn; [discriminate|]. now destruct (String.eqb k key).
Qed.

Lemma fueled_on_rng {T A} (m : M RNG A) : fueled m -> fueled (@on_rng T A m).
Proof. intros H. apply fueled_zoom; [discriminate|exact H]. Qed.

Lemma fueled_on_self {T A} (m : M T A) : fueled m -> fueled (@on_self T A m).
Proof. intros H. apply fueled_zoom; [discriminate|exact H]. Qed.

Lemma fueled_on_world {T A} (view : World -> outcome T) (update : T -> World -> World)
    (m : M (RNG * T) A) :
  (forall w, view w <> Raise OutOfFuel) -> fueled m -> fueled (on_world view update m).
Proof.
  intros Hv Hm. apply fueled_zoom; [|exact Hm].
  intros s. specialize (Hv (snd s)). destruct (view (snd s)); [discriminate|].
  intros [= ->]. now apply Hv.
Qed.

Lemma fueled_on_creature {A} (idx : nat) (m : M (RNG * Creature.t) A) :
  fueled m -> fueled (on_creature idx m).
Proof. intros H. apply fueled_on_world; [|exact H]. intros w. apply getitem_exn. Qed.

Lemma fueled_on_agent {A} (idx : nat) (name : string) (m : M (RNG * UrnAgent.t) A) :
  fueled m -> fueled (on_agent idx name m).
Proof.
  intros H. apply fueled_on_creature, fueled_zoom; [|exact H].
  intros s. pose proof (dict_get_exn (Creature.agents (snd s)) name) as Hd.
  destruct (dict_get (Creature.agents (snd s)) name); [discriminate|].
  intros [= ->]. now apply Hd.
Qed.

Lemma fueled_on_env {A} (m : M (RNG * SignalingGameEnv.t) A) :
  fueled m -> fueled (on_env m).
Proof. intros H. apply fueled_on_world; [discriminate|exact H]. Qed.

Lemma fueled_on_store {A} (m : M (RNG * list Gene.t) A) :
  fueled m -> fueled (on_store m).
Proof. intros H. apply fueled_on_world; [discriminate|exact H]. Qed.

#[local] Hint Resolve fueled_on_rng fueled_on_self fueled_on_creature fueled_on_agent
  fueled_on_env fueled_on_store getitem_exn dict_get_exn : fuel.
#[local] Hint Extern 2 (fueled (raise _)) => apply fueled_raise; discriminate : fuel.
#[local] Hint Extern 2 (fueled (lift _)) => apply fueled_lift : fuel.

Lemma fueled_next_uint64 : fueled rng.next_uint64.
Proof. intros g. discriminate. Qed.

Lemma fueled_random : fueled rng.random.
Proof. unfold rng.random. auto using fueled_next_uint64 with fuel. Qed.

Lemma fueled_choice_p (n : nat) (p : list Q) : fueled (rng.choice_p n p).
Proof.
  unfold rng.choice_p.
  repeat match goal with |- fueled (if ?c then _ else _) => destruct c end;
    auto using fueled_random with fuel.
Qed.

Lemma fueled_fill {A} (draw : M RNG A) (size : nat * nat) :
  fueled draw -> fueled (rng.fill draw size).
Proof. intros H. unfold rng.fill. auto with fuel. Qed.

Lemma fueled_uniform (low high : Q) (size : nat * nat) : fueled (rng.uniform low high size).
Proof.
  unfold rng.uniform. destruct (Qltb high low); auto with fuel.
  apply fueled_fill. unfold rng.uniform1. auto using fueled_random with fuel.
Qed.

Lemma fueled_integers1 (low high : nat) : fueled (rng.integers1 low high).
Proof.
  unfold rng.integers1. destruct (high <=? low); auto using fueled_next_uint64 with fuel.
Qed.

Lemma fueled_integers (low high : nat) (size : nat * nat) :
  fueled (rng.integers low high size).
Proof.
  unfold rng.integers. destruct (high <=? low); auto with fuel.
  apply fueled_fill, fueled_integers1.
Qed.

Lemma fueled_get_action (obs : nat) : fueled (UrnAgent.get_action obs).
Proof.
  unfold UrnAgent.get_action, UrnAgent.probabilities.
  auto 12 using fueled_choice_p with fuel.
Qed.

Lemma fueled_observe (name : string) : fueled (SignalingGameEnv.observe name).
Proof.
  unfold SignalingGameEnv.observe. apply fueled_bind; [auto with fuel|]. intros e.
  destruct (String.eqb name "sender"); [auto with fuel|].
  destruct (String.eqb name "receiver"); [|auto with fuel].
  destruct (SignalingGameEnv.message e); auto with fuel.
Qed.

Lemma fueled_step (action : nat) : fueled (SignalingGameEnv.step action).
Proof.
  unfold SignalingGameEnv.step. apply fueled_bind; [auto with fuel|]. intros e.
  destruct (SignalingGameEnv.done e); [auto with fuel|].
  destruct (String.eqb _ "sender"); [auto with fuel|].
  destruct (String.eqb _ "receiver"); auto 8 with fuel.
Qed.

Lemma fueled_turn (creatures : dict nat) : fueled (turn creatures).
Proof.
  unfold turn. apply fueled_bind; [auto with fuel|]. intros w.
  apply fueled_bind; [auto using fueled_observe with fuel|]. intros obs.
  apply fueled_bind; [auto with fuel|]. intros idx.
  apply fueled_bind; [auto with fuel|]. intros _.
  destruct obs as [obs|]; [|auto with fuel].
  apply fueled_bind; [auto using fueled_get_action with fuel|]. intros action.
  apply fueled_bind; [auto using fueled_step with fuel|]. intros _.
  apply fueled_on_agent, fueled_on_self. unfold UrnAgent.store_buffer. auto with fuel.
Qed.

Lemma env_rel_bind_l {A B} (R : SignalingGameEnv.t -> SignalingGameEnv.t -> Prop)
    (m : M (RNG * World) A) (k : A -> M (RNG * World) B) :
  env_rel eq m -> (forall a, env_rel R (k a)) -> env_rel R (bind m k).
Proof.
  intros Hm Hk s b s'. unfold bind.
  destruct (m s) as [[a|e] s1] eqn:E; [|discriminate].
  intros H. rewrite (Hm _ _ _ E). exact (Hk a _ _ _ H).
Qed.

Lemma env_rel_bind_r {A B} (R : SignalingGameEnv.t -> SignalingGameEnv.t -> Prop)
    (m : M (RNG * World) A) (k : A -> M (RNG * World) B) :
  env_rel R m -> (forall a, env_rel eq (k a)) -> env_rel R (bind m k).
Proof.
  intros Hm Hk s b s'. unfold bind.
  destruct (m s) as [[a|e] s1] eqn:E; [|discriminate].
  intros H. rewrite <- (Hk a _ _ _ H). exact (Hm _ _ _ E).
Qed.

Lemma env_rel_on_creature {A} (idx : nat) (m : M (RNG * Creature.t) A) :
  env_rel eq (on_creature idx m).
Proof.
  intros s a s'. unfold on_creature, on_world, zoom.
  destruct (getitem (population (snd s)) idx) as [c|e]; [|discriminate].
  destruct (m (fst s, c)) as [r [g c']]. now intros [= _ <-].
Qed.

Lemma env_rel_lift {A} (o : outcome A) : env_rel eq (lift o).
Proof. intros s a s'. unfold lift. now intros [= _ <-]. Qed.

Lemma env_rel_get : env_rel eq (on_self get).
Proof. intros s a s'. rewrite on_self_get. now intros [= _ <-]. Qed.

Lemma observe_keeps (name : string) (e : SignalingGameEnv.t) :
  snd (SignalingGameEnv.observe name e) = e.
Proof.
  unfold SignalingGameEnv.observe, bind, get.
  destruct (String.eqb name "sender"); [reflexivity|].
  destruct (String.eqb name "receiver"); [|reflexivity].
  now destruct (SignalingGameEnv.message e).
Qed.

Lemma env_rel_observe (name : string) :
  env_rel eq (on_env (on_self (SignalingGameEnv.observe name))).
Proof.
  intros [g w] a s'. unfold on_env, on_world, zoom. cbn [fst snd].
  rewrite on_self_eq, observe_keeps. cbn [fst snd]. intros [= _ <-]. now destruct w.
Qed.

Lemma env_rel_step (action : nat) :
  env_rel stepped (on_env (on_self (SignalingGameEnv.step action))).
Proof.
  intros [g w] a s'. unfold on_env, on_world, zoom. cbn [fst snd].
  rewrite on_self_eq. cbn [fst snd].
  destruct (SignalingGameEnv.step action (env w)) as [[[]|e] e'] eqn:E; [|discriminate].
  intros [= _ <-]. exists action. cbn. exact E.
Qed.

Lemma turn_stepped (creatures : dict nat) : env_rel stepped (turn creatures).
Proof.
  unfold turn. apply env_rel_bind_l; [apply env_rel_get|]. intros w.
  apply env_rel_bind_l; [apply env_rel_observe|]. intros obs.
  apply env_rel_bind_l; [apply env_rel_lift|]. intros idx.
  apply env_rel_bind_l; [apply env_rel_on_creature|]. intros _.
  destruct obs as [obs|]; [|intros s a s'; discriminate].
  apply env_rel_bind_l; [apply env_rel_on_creature|]. intros action.
  apply env_rel_bind_r; [apply env_rel_step|]. intros _. apply env_rel_on_creature.
Qed.

(** From the state [reset] leaves, two turns end the episode: the loop
    with fuel 2 never stops for lack of fuel. *)
Lemma episode_turns_suffice (creatures : dict nat) (s : RNG * World) :
  SignalingGameEnv.done (env (snd s)) = false ->
  SignalingGameEnv.agent_selection (env (snd s)) = "sender"%string ->
  fst (while_not_done 2 (turn creatures) s) <> Raise OutOfFuel.
Proof.
  intros Hd Hs. cbn [while_not_done]. unfold bind at 1. rewrite on_self_get, Hd.
  unfold bind at 1. pose proof (fueled_turn creatures s) as Hf.
  destruct (turn creatures s) as [[u|e] s1] eqn:Ht; [|exact Hf]. clear Hf.
  apply turn_stepped in Ht as [a Ha]. rewrite (step_sender a _ Hd Hs) in Ha.
  injection Ha as Ha.
  unfold bind at 1. rewrite on_self_get, <- Ha. cbn [SignalingGameEnv.done
    SignalingGameEnv.set_agent_selection SignalingGameEnv.set_message]. rewrite Hd.
  unfold bind at 1. pose proof (fueled_turn creatures s1) as Hf.
  destruct (turn creatures s1) as [[u1|e] s2] eqn:Ht1; [|exact Hf]. clear Hf.
  apply turn_stepped in Ht1 as [b Hb]. rewrite <- Ha in Hb.
  rewrite step_receiver in Hb by (cbn; auto). injection Hb as Hb.
  unfold bind. rewrite on_self_get, <- Hb. cbn. discriminate.
Qed.

Lemma fueled_if {S A} (c : bool) (m1 m2 : M S A) :
  fueled m1 -> fueled m2 -> fueled (if c then m1 else m2).
Proof. now destruct c. Qed.

Lemma fueled_attr {S A} (o : option A) : fueled (@attr S A o).
Proof. destruct o; cbn; auto with fuel. Qed.

Lemma log_append_exn (d : dict (list Q)) (key : string) (x : Q) :
  log_append d key x <> Raise OutOfFuel.
Proof.
  unfold log_append. pose proof (dict_get_exn d key) as H.
  destruct (dict_get d key); [discriminate|]. intros [= ->]. now apply H.
Qed.

Lemma fueled_deref {S} (genes : S -> list Gene.t) (ref : nat) : fueled (deref genes ref).
Proof. intros s. unfold deref. now destruct (genes s !! ref). Qed.

Lemma fueled_update_reward (reward : Q) : fueled (UrnAgent.update_reward reward).
Proof.
  unfold UrnAgent.update_reward. apply fueled_bind; [auto with fuel|]. intros a.
  destruct (List.last _ None) as [[[o c] r]|]; auto with fuel.
Qed.

Lemma fueled_train : fueled UrnAgent.train.
Proof.
  unfold UrnAgent.train. apply fueled_bind; [auto with fuel|]. intros a.
  apply fueled_bind; [|auto with fuel]. apply fueled_for_each. intros [[o c] r].
  unfold UrnAgent.reinforce. auto 12 with fuel.
Qed.

#[local] Hint Resolve fueled_if fueled_attr log_append_exn fueled_deref fueled_update_reward
  fueled_train fueled_choice_p fueled_integers1 fueled_integers fueled_uniform
  fueled_get_action fueled_step fueled_observe fueled_turn fueled_next_uint64 : fuel.

Lemma fueled_credit (cfg : Config) (creatures : dict nat) (name : string) :
  fueled (credit cfg creatures name).
Proof.
  unfold credit. apply fueled_bind; [auto with fuel|]. intros w.
  apply fueled_bind; [auto with fuel|]. intros fitness.
  apply fueled_bind; [auto with fuel|]. intros idx.
  apply fueled_bind; [auto with fuel|]. intros _.
  apply fueled_bind; [auto with fuel|]. intros reward.
  apply fueled_bind; [auto with fuel|]. intros _.
  apply fueled_bind; [auto 8 with fuel|]. intros _.
  apply fueled_bind; [auto with fuel|]. intros w'.
  apply fueled_bind; [auto 10 with fuel|]. intros obs_choice.
  apply fueled_bind; [auto with fuel|]. intros c.
  apply fueled_bind; [auto with fuel|]. intros ref.
  apply fueled_bind; [auto with fuel|]. intros g.
  apply fueled_bind; [auto with fuel|]. intros row.
  apply fueled_bind; [auto with fuel|]. intros choice_bias.
  apply fueled_bind; [auto 8 with fuel|]. intros _. auto with fuel.
Qed.

Lemma fueled_bind_at {S A B} (m : M S A) (k : A -> M S B) (s : S) :
  fst (m s) <> Raise OutOfFuel -> (forall a, fueled (k a)) ->
  fst (bind m k s) <> Raise OutOfFuel.
Proof.
  intros Hm Hk. unfold bind. destruct (m s) as [[a|e] s']; [apply Hk|].
  cbn in *. intros [= ->]. now apply Hm.
Qed.

Lemma fueled_after {S A B} (P : S -> Prop) (m : M S A) (k : A -> M S B) :
  (forall s a s', m s = (Ok a, s') -> P s') -> fueled m ->
  (forall a s', P s' -> fst (k a s') <> Raise OutOfFuel) -> fueled (bind m k).
Proof.
  intros HP Hm Hk s. unfold bind. specialize (Hm s).
  destruct (m s) as [[a|e] s'] eqn:E; [eapply Hk, HP, E|].
  cbn in *. intros [= ->]. now apply Hm.
Qed.

Lemma fueled_reset : fueled SignalingGameEnv.reset.
Proof. unfold SignalingGameEnv.reset. auto 12 with fuel. Qed.

Lemma reset_starts_episode (s : RNG * World) (u : unit) (s' : RNG * World) :
  on_env SignalingGameEnv.reset s = (Ok u, s') ->
  SignalingGameEnv.done (env (snd s')) = false /\
  SignalingGameEnv.agent_selection (env (snd s')) = "sender"%string.
Proof.
  destruct s as [g w0]. unfold on_env, on_world, zoom. cbn [fst snd].
  destruct (SignalingGameEnv.reset (g, env w0)) as [[[]|e] [g' e']] eqn:E; [|discriminate].
  intros [= _ <-]. cbn [fst snd]. apply reset_ok in E as (st & _ & ->). now cbn.
Qed.

(** An episode never stops for lack of fuel. *)
Lemma fueled_episode (cfg : Config) : fueled (episode cfg).
Proof.
  unfold episode. apply fueled_bind; [auto with fuel|]. intros sender_idx.
  apply fueled_bind; [auto with fuel|]. intros w.
  apply fueled_bind; [auto with fuel|]. intros _.
  apply fueled_bind; [auto with fuel|]. intros dist.
  apply fueled_bind; [auto with fuel|]. intros receiver_idx.
  apply (fueled_after (fun s => SignalingGameEnv.done (env (snd s)) = false /\
           SignalingGameEnv.agent_selection (env (snd s)) = "sender"%string)).
  - apply reset_starts_episode.
  - apply fueled_on_env, fueled_reset.
  - intros _ s1 [Hd Hs]. apply fueled_bind_at; [now apply episode_turns_suffice|].
    intros _. apply fueled_bind; [auto with fuel|]. intros _.
    apply fueled_bind; [auto with fuel|]. intros w1.
    apply fueled_for_each. intros name. apply fueled_credit.
Qed.

Lemma where_row_exn {A} (mask : list bool) (xs ys : list A) :
  np.where_row mask xs ys <> Raise OutOfFuel.
Proof.
  revert xs ys. induction mask as [|m mask IH]; intros [|x xs] [|y ys]; cbn; try discriminate.
  specialize (IH xs ys). destruct (np.where_row mask xs ys); [discriminate|congruence].
Qed.

Lemma where_exn {A} (mask : list (list bool)) (xs ys : list (list A)) :
  np.where_ mask xs ys <> Raise OutOfFuel.
Proof.
  revert xs ys. induction mask as [|m mask IH]; intros [|x xs] [|y ys]; cbn; try discriminate.
  specialize (IH xs ys). pose proof (where_row_exn m x y) as Hrow.
  destruct (np.where_row m x y); [|congruence].
  destruct (np.where_ mask xs ys); [discriminate|congruence].
Qed.

Lemma add_row_exn (xs ys : list Q) : np.add_row xs ys <> Raise OutOfFuel.
Proof.
  revert ys. induction xs as [|x xs IH]; intros [|y ys]; cbn; try discriminate.
  specialize (IH ys). destruct (np.add_row xs ys); [discriminate|congruence].
Qed.

Lemma fueled_gene_init (size : nat * nat) (lo hi : Q) (i : Gene.init_values_t) :
  fueled (Gene.__init__ size lo hi i).
Proof. destruct i; cbn; auto with fuel. Qed.

Lemma fueled_alloc (g : Gene.t) : fueled (alloc g).
Proof. intros s. discriminate. Qed.

Lemma fueled_at_ref {A} (ref : nat) (m : M (RNG * Gene.t) A) :
  fueled m -> fueled (at_ref ref m).
Proof.
  intros H. apply fueled_zoom; [|exact H]. intros s. now destruct (snd s !! ref).
Qed.

Lemma fueled_gene_crossover (other : Gene.t) : fueled (Gene.crossover other).
Proof.
  unfold Gene.crossover. apply fueled_bind; [auto with fuel|]. intros self.
  apply fueled_bind; [auto using fueled_gene_init with fuel|]. intros new.
  apply fueled_bind; [auto with fuel|]. intros mask.
  apply fueled_bind; [apply fueled_lift, where_exn|]. auto with fuel.
Qed.

Lemma fueled_gene_mutate (rate : Q) : fueled (Gene.mutate rate).
Proof.
  unfold Gene.mutate. apply fueled_bind; [auto with fuel|]. intros self.
  apply fueled_bind; [auto with fuel|]. intros u.
  apply fueled_bind; [auto with fuel|]. intros fresh.
  apply fueled_bind; [apply fueled_lift, where_exn|]. auto with fuel.
Qed.

Lemma fueled_crossover_ref (a b : nat) : fueled (crossover_ref a b).
Proof.
  unfold crossover_ref.
  auto 8 using fueled_at_ref, fueled_gene_crossover, fueled_alloc with fuel.
Qed.

Lemma fueled_mutate_ref (a : nat) (rate : Q) : fueled (mutate_ref a rate).
Proof. unfold mutate_ref. auto using fueled_at_ref, fueled_gene_mutate. Qed.

Lemma fueled_new_gene (size : nat * nat) (lo hi : Q) (i : Gene.init_values_t) :
  fueled (new_gene size lo hi i).
Proof. unfold new_gene. auto using fueled_gene_init, fueled_alloc with fuel. Qed.

Lemma agent_init_exn (ref : nat) (g : Gene.t) : UrnAgent.__init__ ref g <> Raise OutOfFuel.
Proof.
  unfold UrnAgent.__init__.
  match goal with |- context [for_each ?xs ?f ?s] =>
    assert (H : fueled (for_each xs f)); [|specialize (H s); destruct (for_each xs f s) as [[u|e] s']]
  end.
  - apply fueled_for_each. intros obs. unfold UrnAgent.apply_bias.
    apply fueled_bind; [auto with fuel|]. intros self.
    apply fueled_bind; [auto with fuel|]. intros balls.
    apply fueled_bind; [auto with fuel|]. intros bias.
    apply fueled_bind; [apply fueled_lift, add_row_exn|]. auto with fuel.
  - discriminate.
  - cbn in H. congruence.
Qed.

Lemma fueled_make_agents (bias_genes : dict nat) : fueled (Creature.make_agents bias_genes).
Proof.
  unfold Creature.make_agents. generalize (@nil (string * UrnAgent.t)).
  induction bias_genes as [|[name ref] items IH]; intros agents; [apply fueled_ret|].
  apply fueled_bind; [auto with fuel|]. intros g.
  apply fueled_bind; [apply fueled_lift, agent_init_exn|]. intros a. apply IH.
Qed.

Lemma fueled_geometric (p : Q) : fueled (rng.geometric p).
Proof. unfold rng.geometric. destruct (_ || _); auto with fuel. Qed.

Lemma fueled_creature_init (bias_genes : dict nat) (lifespan_mean : Q) :
  fueled (Creature.__init__ bias_genes lifespan_mean).
Proof.
  unfold Creature.__init__. apply fueled_bind; [apply fueled_make_agents|]. intros agents.
  destruct (Qeq_bool lifespan_mean 0); auto using fueled_geometric with fuel.
Qed.

Lemma fueled_shuffle_prefix (k i : nat) (xs : list nat) : fueled (rng.shuffle_prefix k i xs).
Proof.
  revert i xs. induction k as [|k IH]; intros i xs; cbn; auto with fuel.
Qed.

Lemma fueled_choice_without_replacement (n k : nat) :
  fueled (rng.choice_without_replacement n k).
Proof.
  unfold rng.choice_without_replacement.
  destruct (n <? k); auto using fueled_shuffle_prefix with fuel.
Qed.

Lemma max_by_fitness_exn (xs : list Creature.t) : max_by_fitness xs <> Raise OutOfFuel.
Proof. destruct xs; discriminate. Qed.

Lemma fueled_crossover_genes (roles : list string) (winners : list Creature.t) :
  fueled (crossover_genes roles winners).
Proof.
  unfold crossover_genes. generalize (@nil (string * nat)).
  induction roles as [|role roles IH]; intros new_genes; [apply fueled_ret|].
  apply fueled_bind; [auto with fuel|]. intros w0.
  apply fueled_bind; [auto with fuel|]. intros a.
  apply fueled_bind; [auto with fuel|]. intros w1.
  apply fueled_bind; [auto with fuel|]. intros b.
  apply fueled_bind; [apply fueled_crossover_ref|]. intros child. apply IH.
Qed.

Lemma fueled_next_slot (cfg : Config) (i : nat) : fueled (next_slot cfg i).
Proof.
  unfold next_slot. apply fueled_bind; [auto with fuel|]. intros w.
  apply fueled_bind; [auto with fuel|]. intros c.
  apply fueled_if; [auto 8 with fuel|].
  apply fueled_bind; [auto using fueled_choice_without_replacement with fuel|]. intros picks.
  apply fueled_bind; [auto with fuel|]. intros tournament.
  apply fueled_bind.
  { apply fueled_if; [auto using fueled_crossover_genes with fuel|].
    apply fueled_bind; [apply fueled_lift, max_by_fitness_exn|]. auto with fuel. }
  intros new_genes.
  apply fueled_bind; [|auto using fueled_creature_init with fuel].
  apply fueled_for_each. intros role.
  apply fueled_bind; [auto with fuel|]. intros ref.
  apply fueled_on_store, fueled_mutate_ref.
Qed.

Lemma fueled_evolve (cfg : Config) : fueled (evolve cfg).
Proof.
  unfold evolve. apply fueled_for_each. intros _. unfold generation.
  repeat (apply fueled_bind; [auto with fuel|]; intros _).
  apply fueled_bind; [apply fueled_for_each; intros _; apply fueled_episode|]. intros _.
  apply fueled_bind.
  { apply fueled_bind; [auto with fuel|]. intros w.
    apply fueled_bind; [apply fueled_lift, max_by_fitness_exn|]. auto with fuel. }
  intros _. unfold next_generation.
  apply fueled_bind; [apply fueled_map_m, fueled_next_slot|]. auto with fuel.
Qed.

Lemma fueled_env_init (n m : nat) (p : list Q) : fueled (SignalingGameEnv.__init__ n m p).
Proof.
  intros g. unfold SignalingGameEnv.__init__.
  match goal with |- context [SignalingGameEnv.reset ?s] =>
    pose proof (fueled_reset s) as H; destruct (SignalingGameEnv.reset s) as [[u|e] [g' e']]
  end; [discriminate|]. cbn in *. congruence.
Qed.

Lemma fueled_setup (cfg : Config) : fueled (setup cfg).
Proof.
  unfold setup. apply fueled_bind; [apply fueled_env_init|]. intros e.
  apply fueled_bind.
  { apply fueled_lift. unfold make_matching_dists.
    repeat match goal with |- context [if ?c then _ else _] => destruct c end; discriminate. }
  intros dists. apply fueled_bind; [|auto with fuel].
  intros g. unfold run_from.
  match goal with |- context [map_m ?f ?xs ?s] =>
    assert (H : fueled (map_m f xs)); [|specialize (H s); destruct (map_m f xs s) as [[a|ex] [g' t]]]
  end.
  - apply fueled_map_m. intros _. unfold new_creature.
    auto 8 using fueled_new_gene, fueled_creature_init with fuel.
  - discriminate.
  - cbn in *. congruence.
Qed.

(** The fuel of the model is never the reason why the notebook stops. *)
Lemma notebook_never_out_of_fuel (cfg : Config) (g : RNG) :
  fst (notebook cfg g) <> Raise OutOfFuel.
Proof.
  unfold notebook. pose proof (fueled_setup cfg g) as Hs.
  destruct (setup cfg g) as [[w|e] g']; [|cbn in *; congruence].
  pose proof (fueled_evolve cfg (g', w)) as He.
  now destruct (evolve cfg (g', w)) as [r [g'' w']].
Qed.


(** ** With crossover, every creature owns its genes alone *)

Lemma owners_disjoint_iff (pop : list Creature.t) :
  owners_disjoint pop = true <-> disjoint_lists (map gene_refs pop).
Proof.
  induction pop as [|c pop IH]; cbn; [tauto|].
  rewrite andb_true_iff, IH, forallb_Forall, Forall_map.
  apply and_iff_compat_r. apply Forall_iff. intros d. cbn.
  rewrite forallb_Forall, Forall_forall. apply forall_proper. intros r.
  rewrite negb_true_iff, <- not_true_iff_false, existsb_exists.
  split.
  - intros H Hin Hd. apply H; [exact Hin|]. exists r. split; [|apply Nat.eqb_refl].
    now apply list_elem_of_In.
  - intros H Hin [x [Hx Heq]]. apply Nat.eqb_eq in Heq. subst x.
    apply (H Hin). now apply list_elem_of_In.
Qed.

(** *** The store only grows *)

Lemma at_ref_length {A} (ref : nat) (m : M (RNG * Gene.t) A) (s : RNG * list Gene.t) :
  length (snd (snd (at_ref ref m s))) = length (snd s).
Proof.
  unfold at_ref, zoom. destruct (snd s !! ref) as [g|]; [|reflexivity].
  destruct (m (fst s, g)) as [r [g' t]]. cbn. apply length_insert.
Qed.

Lemma crossover_ref_ok (a b : nat) (s : RNG * list Gene.t) (r : nat)
    (s' : RNG * list Gene.t) :
  crossover_ref a b s = (Ok r, s') ->
  r = length (snd s) /\ length (snd s') = S (length (snd s)).
Proof.
  unfold crossover_ref, bind, deref. destruct (snd s !! b) as [other|]; [|discriminate].
  pose proof (at_ref_length a (Gene.crossover other) s) as Hlen.
  destruct (at_ref a (Gene.crossover other) s) as [[new|e] s1]; [|discriminate].
  unfold alloc. intros [= <- <-]. cbn in *. rewrite length_app. cbn. lia.
Qed.

Lemma mutate_ref_length (a : nat) (rate : Q) (s : RNG * list Gene.t) :
  length (snd (snd (mutate_ref a rate s))) = length (snd s).
Proof. apply at_ref_length. Qed.

Lemma make_agents_store (d : dict nat) (s : RNG * list Gene.t) :
  snd (Creature.make_agents d s) = s.
Proof.
  unfold Creature.make_agents. generalize (@nil (string * UrnAgent.t)).
  induction d as [|[name ref] d IH]; intros agents; [reflexivity|].
  unfold bind, deref, lift. destruct (snd s !! ref) as [g|]; [|reflexivity].
  destruct (UrnAgent.__init__ ref g) as [a|e]; [apply IH|reflexivity].
Qed.

Lemma creature_init_ok (d : dict nat) (lifespan_mean : Q) (s : RNG * list Gene.t)
    (c : Creature.t) (s' : RNG * list Gene.t) :
  Creature.__init__ d lifespan_mean s = (Ok c, s') ->
  snd s' = snd s /\ Creature.bias_genes c = d.
Proof.
  unfold Creature.__init__, bind. pose proof (make_agents_store d s) as Hs.
  destruct (Creature.make_agents d s) as [[agents|e] s1]; [|discriminate].
  cbn in Hs. subst s1. destruct (Qeq_bool lifespan_mean 0); [discriminate|].
  unfold on_rng, zoom, bind. cbn [fst snd].
  destruct (rng.geometric (1 / lifespan_mean) (fst s)) as [[l|e] g']; [|discriminate].
  intros [= <- <-]. now cbn.
Qed.

Lemma dict_set_refs (d : dict nat) (key : string) (v : nat) (P : nat -> Prop) :
  Forall P (map snd d) -> P v -> Forall P (map snd (dict_set d key v)).
Proof.
  intros Hd Hv. induction d as [|[k x] d IH]; cbn; [now constructor|].
  inversion Hd; subst. destruct (String.eqb k key); cbn; constructor; auto.
Qed.

Lemma crossover_genes_fresh (roles : list string) (winners : list Creature.t)
    (s : RNG * list Gene.t) (d : dict nat) (s' : RNG * list Gene.t) :
  crossover_genes roles winners s = (Ok d, s') ->
  length (snd s) <= length (snd s') /\
  Forall (fun r => length (snd s) <= r < length (snd s')) (map snd d).
Proof.
  unfold crossover_genes.
  enough (H : forall acc s0,
             length (snd s) <= length (snd s0) ->
             Forall (fun r => length (snd s) <= r < length (snd s0)) (map snd acc) ->
             (fix go (roles : list string) (new_genes : dict nat) :=
                match roles with
                | [] => ret new_genes
                | role :: rest =>
                    let* w0 := lift (getitem winners 0) in
                    let* a := lift (dict_get (Creature.bias_genes w0) role) in
                    let* w1 := lift (getitem winners 1) in
                    let* b := lift (dict_get (Creature.bias_genes w1) role) in
                    let* child := crossover_ref a b in
                    go rest (dict_set new_genes role child)
                end) roles acc s0 = (Ok d, s') ->
             length (snd s) <= length (snd s') /\
             Forall (fun r => length (snd s) <= r < length (snd s')) (map snd d)).
  { apply H; [lia|constructor]. }
  induction roles as [|role roles IH]; intros acc s0 Hlen Hacc.
  - intros [= <- <-]. auto.
  - unfold bind at 1, lift at 1. destruct (getitem winners 0) as [w0|]; [|discriminate].
    unfold bind at 1, lift at 1.
    destruct (dict_get (Creature.bias_genes w0) role) as [a|]; [|discriminate].
    unfold bind at 1, lift at 1. destruct (getitem winners 1) as [w1|]; [|discriminate].
    unfold bind at 1, lift at 1.
    destruct (dict_get (Creature.bias_genes w1) role) as [b|]; [|discriminate].
    unfold bind at 1. destruct (crossover_ref a b s0) as [[child|e] s1] eqn:E; [|discriminate].
    apply crossover_ref_ok in E as [-> Hs1]. apply IH; [lia|].
    apply dict_set_refs; [|lia].
    eapply Forall_impl; [exact Hacc|]. cbn. intros r. lia.
Qed.

(** *** One slot of the next generation *)

Lemma map_insert_same {A B} (f : A -> B) (l : list A) (k : nat) (x y : A) :
  l !! k = Some x -> f y = f x -> map f (<[k := y]> l) = map f l.
Proof.
  revert k. induction l as [|a l IH]; intros [|k]; cbn; try discriminate.
  - intros [= ->] ->. reflexivity.
  - intros H E. f_equal. now apply IH.
Qed.

Lemma on_creature_eq {A} (k : nat) (m : M (RNG * Creature.t) A) (g : RNG) (w : World)
    (c : Creature.t) :
  population w !! k = Some c ->
  on_creature k m (g, w) =
    (fst (m (g, c)),
     (fst (snd (m (g, c))),
      set_population (<[k := snd (snd (m (g, c)))]> (population w)) w)).
Proof.
  intros H. unfold on_creature, on_world, zoom, getitem. cbn [fst snd]. rewrite H.
  now destruct (m (g, c)) as [r [g' c']].
Qed.

Lemma on_store_eq {A} (m : M (RNG * list Gene.t) A) (g : RNG) (w : World) :
  on_store m (g, w) =
    (fst (m (g, genes w)),
     (fst (snd (m (g, genes w))), set_genes (snd (snd (m (g, genes w)))) w)).
Proof.
  unfold on_store, on_world, zoom. cbn [fst snd].
  now destruct (m (g, genes w)) as [r [g' st]].
Qed.

Lemma map_m_lift_state {S A B} (f : A -> outcome B) (xs : list A) (s : S) :
  snd (map_m (fun x => lift (f x)) xs s) = s.
Proof.
  induction xs as [|x xs IH]; [reflexivity|]. cbn [map_m]. unfold bind at 1, lift at 1.
  destruct (f x) as [y|e]; [|reflexivity]. unfold bind.
  destruct (map_m (fun x => lift (f x)) xs s) as [[ys|e] s']; cbn in *; congruence.
Qed.

(** The mutation of the offspring's genes touches neither the population
    nor the size of the store. *)
Lemma mutate_all_keeps (new_genes : dict nat) (rate : Q) (roles : list string)
    (s : RNG * World) (r : outcome unit) (s' : RNG * World) :
  for_each roles (fun role =>
                    let* ref := lift (dict_get new_genes role) in
                    on_store (mutate_ref ref rate)) s = (r, s') ->
  population (snd s') = population (snd s) /\
  length (genes (snd s')) = length (genes (snd s)).
Proof.
  revert s. induction roles as [|role roles IH]; intros s; [now intros [= <- <-]|].
  cbn [for_each]. unfold bind at 1. unfold bind at 1, lift at 1.
  destruct (dict_get new_genes role) as [ref|]; [|now intros [= <- <-]].
  destruct s as [g w]. rewrite on_store_eq.
  pose proof (mutate_ref_length ref rate (g, genes w)) as Hlen.
  destruct (mutate_ref ref rate (g, genes w)) as [[u|e] [g' st]]; cbn [fst snd] in *.
  - intros H. apply IH in H as [IH1 IH2]. cbn [snd population genes set_genes] in *.
    split; [exact IH1|]. now rewrite IH2.
  - intros [= <- <-]. now cbn.
Qed.

(** With crossover, a slot of the next generation is either the creature
    that was there, with the genes it had, or a creature whose genes are
    all new objects; the population of the world is as before and the store
    has only grown. *)
Lemma next_slot_spec (cfg : Config) (k : nat) (s : RNG * World) (c : Creature.t)
    (s' : RNG * World) :
  do_crossover cfg = true -> next_slot cfg k s = (Ok c, s') ->
  map gene_refs (population (snd s')) = map gene_refs (population (snd s)) /\
  length (genes (snd s)) <= length (genes (snd s')) /\
  (map gene_refs (population (snd s)) !! k = Some (gene_refs c) \/
   Forall (fun r => length (genes (snd s)) <= r < length (genes (snd s'))) (gene_refs c)).
Proof.
  intros Hcross. destruct s as [g w]. unfold next_slot.
  unfold bind at 1. rewrite on_self_get. cbn [snd].
  unfold bind at 1, lift at 1. unfold getitem at 1.
  destruct (population w !! k) as [c0|] eqn:Hk; [|discriminate].
  destruct (1 <? Creature.lifespan c0)%Z.
  - unfold bind. rewrite (on_creature_eq k _ g w c0 Hk), on_self_eq. cbn [fst snd modify].
    set (c1 := Creature.set_lifespan (Creature.lifespan c0 - 1) c0).
    assert (Hk1 : population (set_population (<[k := c1]> (population w)) w) !! k = Some c1).
    { cbn. apply list_lookup_insert_eq. now apply lookup_lt_Some in Hk. }
    rewrite (on_creature_eq k _ g _ c1 Hk1), on_self_eq. cbn [fst snd get].
    intros [= <- <-]. cbn [snd population set_population genes].
    rewrite list_insert_insert_eq.
    split; [now apply (map_insert_same gene_refs _ k c0)|]. split; [lia|]. left.
    rewrite lookup_map, Hk. reflexivity.
  - rewrite Hcross. unfold bind at 1. rewrite on_rng_eq.
    destruct (rng.choice_without_replacement _ _ g) as [[picks|e] g1]; [|discriminate].
    cbn [fst snd]. unfold bind at 1.
    pose proof (map_m_lift_state (fun i => getitem (population w) i) picks (g1, w)) as Ht.
    destruct (map_m _ picks (g1, w)) as [[tournament|e] s1]; [|discriminate].
    cbn in Ht. subst s1. unfold bind at 1. rewrite on_store_eq.
    destruct (crossover_genes _ _ (g1, genes w)) as [[new_genes|e] [g2 st2]] eqn:Hgenes;
      [|discriminate].
    apply crossover_genes_fresh in Hgenes as [Hle Hfresh]. cbn [fst snd] in *.
    unfold bind at 1.
    destruct (for_each _ _ (g2, set_genes st2 w)) as [[u|e] [g3 w3]] eqn:Hmut;
      [|discriminate].
    apply mutate_all_keeps in Hmut as [Hpop Hlen].
    cbn [fst snd population genes set_genes] in Hpop, Hlen.
    rewrite on_store_eq.
    destruct (Creature.__init__ new_genes (lifespan_mean cfg) (g3, genes w3))
      as [[c'|e] [g4 st4]] eqn:Hinit; [|discriminate].
    apply creature_init_ok in Hinit as [Hst Hbias]. cbn [fst snd] in *. subst st4.
    intros [= <- <-]. cbn [snd population set_genes genes].
    rewrite Hpop. split; [reflexivity|]. split; [lia|]. right.
    unfold gene_refs. rewrite Hbias, Hlen. exact Hfresh.
Qed.

(** *** The whole replacement step *)

Lemma disjoint_lists_lookup (B : list (list nat)) (i j : nat) (xs ys : list nat) (r : nat) :
  disjoint_lists B -> i <> j -> B !! i = Some xs -> B !! j = Some ys ->
  r ∈ xs -> r ∉ ys.
Proof.
  revert i j. induction B as [|b B IH]; intros i j Hd Hij Hi Hj Hr; [discriminate|].
  destruct Hd as [Hhead Htail]. rewrite Forall_lookup in Hhead. destruct i as [|i], j as [|j]; cbn in Hi, Hj.
  - congruence.
  - injection Hi as ->. exact (Hhead j ys Hj r Hr).
  - injection Hj as ->. intros Hy. exact (Hhead i xs Hi r Hy Hr).
  - apply (IH i j); auto.
Qed.

Lemma next_slots_spec (cfg : Config) (B : list (list nat)) (L0 : nat) :
  do_crossover cfg = true ->
  Forall (Forall (fun r => r < L0)) B -> disjoint_lists B ->
  forall idxs s cs s',
    NoDup idxs ->
    map gene_refs (population (snd s)) = B -> L0 <= length (genes (snd s)) ->
    map_m (next_slot cfg) idxs s = (Ok cs, s') ->
    map gene_refs (population (snd s')) = B /\
    length (genes (snd s)) <= length (genes (snd s')) /\
    Forall2 (fun k c =>
               B !! k = Some (gene_refs c) \/
               Forall (fun r => length (genes (snd s)) <= r < length (genes (snd s')))
                      (gene_refs c)) idxs cs /\
    disjoint_lists (map gene_refs cs).
Proof.
  intros Hcross Hbelow Hdisj. induction idxs as [|k idxs IH]; intros s cs s' Hnd HB HL.
  - intros [= <- <-]. repeat split; auto; constructor.
  - cbn [map_m]. unfold bind at 1.
    destruct (next_slot cfg k s) as [[c|e] s1] eqn:Hslot; [|discriminate].
    unfold bind at 1. destruct (map_m (next_slot cfg) idxs s1) as [[cs'|e] s2] eqn:Hrest;
      [|discriminate].
    intros [= <- <-]. apply NoDup_cons in Hnd as [Hk Hnd].
    apply (next_slot_spec cfg k s c s1 Hcross) in Hslot as (HB1 & HL1 & Hc).
    rewrite HB in HB1, Hc.
    destruct (IH s1 cs' s2 Hnd HB1 ltac:(lia) Hrest) as (HB2 & HL2 & Hall & Hdis).
    split; [exact HB2|]. split; [lia|]. split; [constructor|split; [|exact Hdis]].
    + destruct Hc as [Hc|Hc]; [now left|right].
      eapply Forall_impl; [exact Hc|]. cbn. intros r. lia.
    + eapply Forall2_impl; [exact Hall|]. cbn. intros k' c' [H|H]; [now left|right].
      eapply Forall_impl; [exact H|]. cbn. intros r. lia.
    + clear IH Hrest Hdis HB2. induction Hall as [|k' c' idxs cs' Hk' _ IHall]; cbn;
        constructor.
      * intros r Hr. rewrite Forall_lookup in Hbelow.
        destruct Hc as [Hc|Hc], Hk' as [Hk'|Hk'].
        -- apply (disjoint_lists_lookup B k k' (gene_refs c) (gene_refs c') r); auto.
           intros ->. apply Hk. now left.
        -- rewrite Forall_forall in Hk'. intros Hr'. specialize (Hk' r Hr').
           pose proof (Hbelow _ _ Hc) as Hlt. rewrite Forall_forall in Hlt.
           specialize (Hlt r Hr). lia.
        -- rewrite Forall_forall in Hc. specialize (Hc r Hr). intros Hr'.
           pose proof (Hbelow _ _ Hk') as Hlt. rewrite Forall_forall in Hlt.
           specialize (Hlt r Hr'). lia.
        -- rewrite Forall_forall in Hc, Hk'. intros Hr'.
           specialize (Hc r Hr). specialize (Hk' r Hr'). lia.
      * apply IHall. intros Hin. apply Hk. now right.
        now apply NoDup_cons in Hnd as [_ ?].
Qed.

(** With crossover, the replacement step keeps every gene with one owner. *)
Lemma next_generation_keeps_owners (cfg : Config) (s : RNG * World) (u : unit)
    (s' : RNG * World) :
  do_crossover cfg = true -> owned_once (snd s) ->
  next_generation cfg s = (Ok u, s') -> owned_once (snd s').
Proof.
  intros Hcross [Hbelow Hdisj]. unfold next_generation, bind.
  destruct (map_m (next_slot cfg) (seq 0 (pop_size cfg)) s) as [[cs|e] s1] eqn:Hslots;
    [|discriminate].
  apply (next_slots_spec cfg _ _ Hcross Hbelow Hdisj) in Hslots
    as (_ & HL & Hall & Hdis); [|apply NoDup_seq|reflexivity|lia].
  destruct s1 as [g1 w1]. rewrite on_self_eq. cbn [fst snd modify]. intros [= _ <-].
  cbn [snd] in *. split; cbn [snd population genes set_population]; [|exact Hdis].
  clear Hdis. rewrite Forall_lookup in Hbelow.
  induction Hall as [|k c idxs cs Hc _ IH]; cbn; constructor; [|exact IH].
  destruct Hc as [Hc|Hc].
  - eapply Forall_impl; [exact (Hbelow _ _ Hc)|]. cbn. intros r. lia.
  - eapply Forall_impl; [exact Hc|]. cbn. intros r. lia.
Qed.

(** *** Episodes leave the holdings alone *)

Create HintDb keeps.

Lemma keeps_ret {A} (a : A) : keeps_holdings (ret a).
Proof. now intros s. Qed.

Lemma keeps_raise {A} (e : exn) : keeps_holdings (@raise _ A e).
Proof. now intros s. Qed.

Lemma keeps_lift {A} (o : outcome A) : keeps_holdings (lift o).
Proof. now intros s. Qed.

Lemma keeps_attr {A} (o : option A) : keeps_holdings (attr o).
Proof. now destruct o. Qed.

Lemma keeps_deref (ref : nat) : keeps_holdings (deref (fun s => genes (snd s)) ref).
Proof. intros s. unfold deref. now destruct (genes (snd s) !! ref). Qed.

Lemma keeps_bind {A B} (m : M (RNG * World) A) (k : A -> M (RNG * World) B) :
  keeps_holdings m -> (forall a, keeps_holdings (k a)) -> keeps_holdings (bind m k).
Proof.
  intros Hm Hk s. unfold bind. specialize (Hm s).
  destruct (m s) as [[a|e] s1]; cbn in *; [|exact Hm]. now rewrite Hk.
Qed.

Lemma keeps_if {A} (c : bool) (m1 m2 : M (RNG * World) A) :
  keeps_holdings m1 -> keeps_holdings m2 -> keeps_holdings (if c then m1 else m2).
Proof. now destruct c. Qed.

Lemma keeps_for_each {A} (xs : list A) (body : A -> M (RNG * World) unit) :
  (forall x, keeps_holdings (body x)) -> keeps_holdings (for_each xs body).
Proof.
  intros H. induction xs as [|x xs IH]; cbn; [apply keeps_ret|]. now apply keeps_bind.
Qed.

Lemma keeps_on_rng {A} (m : M RNG A) : keeps_holdings (on_rng m).
Proof. intros [g w]. now rewrite on_rng_eq. Qed.

Lemma keeps_get : keeps_holdings (on_self get).
Proof. intros s. now rewrite on_self_get. Qed.

Lemma keeps_modify (f : World -> World) :
  (forall w, holdings (f w) = holdings w) -> keeps_holdings (on_self (modify f)).
Proof. intros H [g w]. rewrite on_self_eq. apply H. Qed.

Lemma keeps_on_env {A} (m : M (RNG * SignalingGameEnv.t) A) : keeps_holdings (on_env m).
Proof.
  intros [g w]. unfold on_env, on_world, zoom. cbn [fst snd].
  now destruct (m (g, env w)) as [r [g' e]].
Qed.

Lemma keeps_on_creature {A} (idx : nat) (m : M (RNG * Creature.t) A) :
  (forall s, Creature.bias_genes (snd (snd (m s))) = Creature.bias_genes (snd s)) ->
  keeps_holdings (on_creature idx m).
Proof.
  intros H [g w]. unfold on_creature, on_world, zoom, getitem. cbn [fst snd].
  destruct (population w !! idx) as [c|] eqn:Hc; [|reflexivity].
  specialize (H (g, c)). destruct (m (g, c)) as [r [g' c']]. cbn in *.
  unfold holdings. cbn. f_equal. apply (map_insert_same gene_refs _ idx c); [exact Hc|].
  unfold gene_refs. now rewrite H.
Qed.

Lemma keeps_on_agent {A} (idx : nat) (name : string) (m : M (RNG * UrnAgent.t) A) :
  keeps_holdings (on_agent idx name m).
Proof.
  apply keeps_on_creature. intros [g c]. unfold zoom. cbn [fst snd].
  destruct (dict_get (Creature.agents c) name) as [a|]; [|reflexivity].
  now destruct (m (g, a)) as [r [g' a']].
Qed.

Lemma keeps_on_creature_self {A} (idx : nat) (m : M Creature.t A) :
  (forall c, Creature.bias_genes (snd (m c)) = Creature.bias_genes c) ->
  keeps_holdings (on_creature idx (on_self m)).
Proof. intros H. apply keeps_on_creature. intros [g c]. rewrite on_self_eq. apply H. Qed.

#[local] Hint Resolve keeps_ret keeps_raise keeps_lift keeps_attr keeps_deref keeps_bind
  keeps_if keeps_for_each keeps_on_rng keeps_get keeps_on_env keeps_on_agent : keeps.
#[local] Hint Extern 2 (keeps_holdings (on_self (modify _))) =>
  apply keeps_modify; reflexivity : keeps.
#[local] Hint Extern 2 (keeps_holdings (on_creature _ (on_self _))) =>
  apply keeps_on_creature_self; reflexivity : keeps.

Lemma keeps_turn (creatures : dict nat) : keeps_holdings (turn creatures).
Proof.
  unfold turn. apply keeps_bind; [auto with keeps|]. intros w.
  apply keeps_bind; [auto with keeps|]. intros obs.
  apply keeps_bind; [auto with keeps|]. intros idx.
  apply keeps_bind; [auto with keeps|]. intros _.
  destruct obs; auto 8 with keeps.
Qed.

Lemma keeps_while (fuel : nat) (body : M (RNG * World) unit) :
  keeps_holdings body -> keeps_holdings (while_not_done fuel body).
Proof.
  intros H. induction fuel as [|fuel IH]; cbn [while_not_done];
    (apply keeps_bind; [auto with keeps|]); intros w; auto with keeps.
Qed.

Lemma keeps_credit (cfg : Config) (creatures : dict nat) (name : string) :
  keeps_holdings (credit cfg creatures name).
Proof.
  unfold credit. apply keeps_bind; [auto with keeps|]. intros w.
  apply keeps_bind; [auto with keeps|]. intros fitness.
  apply keeps_bind; [auto with keeps|]. intros idx.
  apply keeps_bind; [auto with keeps|]. intros _.
  apply keeps_bind; [auto with keeps|]. intros reward.
  apply keeps_bind; [auto with keeps|]. intros _.
  apply keeps_bind; [auto 8 with keeps|]. intros _.
  apply keeps_bind; [auto with keeps|]. intros w'.
  apply keeps_bind; [auto 10 with keeps|]. intros obs_choice.
  apply keeps_bind; [auto with keeps|]. intros c.
  apply keeps_bind; [auto with keeps|]. intros ref.
  apply keeps_bind; [auto with keeps|]. intros g.
  apply keeps_bind; [auto with keeps|]. intros row.
  apply keeps_bind; [auto with keeps|]. intros choice_bias.
  apply keeps_bind; [auto 8 with keeps|]. intros _. auto with keeps.
Qed.

(** An episode changes neither the store's size nor who holds which gene. *)
Lemma keeps_episode (cfg : Config) : keeps_holdings (episode cfg).
Proof.
  unfold episode. apply keeps_bind; [auto with keeps|]. intros sender_idx.
  apply keeps_bind; [auto with keeps|]. intros w.
  apply keeps_bind; [auto with keeps|]. intros _.
  apply keeps_bind; [auto with keeps|]. intros dist.
  apply keeps_bind; [auto with keeps|]. intros receiver_idx.
  apply keeps_bind; [auto with keeps|]. intros _.
  apply keeps_bind; [apply keeps_while, keeps_turn|]. intros _.
  apply keeps_bind; [auto 8 with keeps|]. intros _.
  apply keeps_bind; [auto with keeps|]. intros w1.
  apply keeps_for_each. intros name. apply keeps_credit.
Qed.

Lemma owned_once_holdings (w w' : World) :
  holdings w' = holdings w -> owned_once w -> owned_once w'.
Proof. unfold holdings, owned_once. intros [= -> ->]. auto. Qed.


(** *** From the configuration cell to the end of the run *)

Lemma keeps_owners_of_holdings {A} (m : M (RNG * World) A) :
  keeps_holdings m -> keeps_owners m.
Proof.
  intros H s a s' Hs E. apply (owned_once_holdings (snd s)); [|exact Hs].
  specialize (H s). now rewrite E in H.
Qed.

Lemma keeps_owners_bind {A B} (m : M (RNG * World) A) (k : A -> M (RNG * World) B) :
  keeps_owners m -> (forall a, keeps_owners (k a)) -> keeps_owners (bind m k).
Proof.
  intros Hm Hk s b s' Hs. unfold bind.
  destruct (m s) as [[a|e] s1] eqn:E; [|discriminate].
  intros H. exact (Hk a s1 b s' (Hm s a s1 Hs E) H).
Qed.

Lemma keeps_owners_for_each {A} (xs : list A) (body : A -> M (RNG * World) unit) :
  (forall x, keeps_owners (body x)) -> keeps_owners (for_each xs body).
Proof.
  intros H. induction xs as [|x xs IH]; cbn.
  - intros s a s' Hs [= _ <-]. exact Hs.
  - apply keeps_owners_bind; auto.
Qed.

Lemma keeps_owners_generation (cfg : Config) :
  do_crossover cfg = true -> keeps_owners (generation cfg).
Proof.
  intros Hcross. unfold generation.
  repeat (apply keeps_owners_bind;
          [apply keeps_owners_of_holdings; auto with keeps|]; intros _).
  apply keeps_owners_bind.
  { apply keeps_owners_of_holdings, keeps_for_each. intros _. apply keeps_episode. }
  intros _. apply keeps_owners_bind.
  { apply keeps_owners_of_holdings. auto 8 with keeps. }
  intros _ s a s'. destruct a. now apply next_generation_keeps_owners.
Qed.

Lemma new_gene_ok (size : nat * nat) (lo hi : Q) (i : Gene.init_values_t)
    (s : RNG * list Gene.t) (r : nat) (s' : RNG * list Gene.t) :
  new_gene size lo hi i s = (Ok r, s') ->
  r = length (snd s) /\ length (snd s') = S (length (snd s)).
Proof.
  destruct s as [g st]. unfold new_gene, bind. rewrite on_rng_eq.
  destruct (Gene.__init__ size lo hi i g) as [[x|e] g']; [|discriminate].
  unfold alloc. cbn [fst snd]. intros [= <- <-]. cbn. rewrite length_app. cbn. lia.
Qed.

Lemma new_creature_ok (cfg : Config) (s : RNG * list Gene.t) (c : Creature.t)
    (s' : RNG * list Gene.t) :
  new_creature cfg s = (Ok c, s') ->
  length (snd s') = S (S (length (snd s))) /\
  gene_refs c = [length (snd s); S (length (snd s))].
Proof.
  unfold new_creature, bind.
  destruct (new_gene _ _ _ _ s) as [[a|e] s1] eqn:Ea; [|discriminate].
  destruct (new_gene _ _ _ _ s1) as [[b|e] s2] eqn:Eb; [|discriminate].
  apply new_gene_ok in Ea as [-> H1]. apply new_gene_ok in Eb as [-> H2].
  intros H. apply creature_init_ok in H as [Hst Hbias].
  unfold gene_refs. rewrite Hbias, Hst. cbn. split; congruence.
Qed.

Lemma new_creatures_spec (cfg : Config) {A} (idxs : list A) (s : RNG * list Gene.t)
    (cs : list Creature.t) (s' : RNG * list Gene.t) :
  map_m (fun _ => new_creature cfg) idxs s = (Ok cs, s') ->
  length (snd s) <= length (snd s') /\
  Forall (Forall (fun r => length (snd s) <= r < length (snd s'))) (map gene_refs cs) /\
  disjoint_lists (map gene_refs cs).
Proof.
  revert s cs s'. induction idxs as [|k idxs IH]; intros s cs s'.
  - intros [= <- <-]. cbn. auto.
  - cbn [map_m]. unfold bind at 1.
    destruct (new_creature cfg s) as [[c|e] s1] eqn:Hc; [|discriminate].
    unfold bind at 1. destruct (map_m _ idxs s1) as [[cs'|e] s2] eqn:Hrest; [|discriminate].
    intros [= <- <-]. apply new_creature_ok in Hc as [HL1 Hrefs].
    destruct (IH _ _ _ Hrest) as (HL2 & Hall & Hdis).
    split; [lia|]. cbn [map disjoint_lists]. rewrite Hrefs. repeat split.
    + constructor.
      * repeat constructor; lia.
      * eapply Forall_impl; [exact Hall|]. cbn. intros xs Hxs.
        eapply Forall_impl; [exact Hxs|]. cbn. intros r. lia.
    + eapply Forall_impl; [exact Hall|]. cbn. intros xs Hxs r Hr Hin.
      rewrite Forall_forall in Hxs. specialize (Hxs r Hin).
      apply list_elem_of_In in Hr. cbn in Hr. lia.
    + exact Hdis.
Qed.

(** The configuration cell gives every creature two genes of its own. *)
Lemma setup_owned_once (cfg : Config) (g : RNG) (w : World) (g' : RNG) :
  setup cfg g = (Ok w, g') -> owned_once w.
Proof.
  unfold setup, bind.
  destruct (SignalingGameEnv.__init__ _ _ _ g) as [[e|ex] g1]; [|discriminate].
  unfold lift at 1. destruct (make_matching_dists cfg) as [dists|ex]; [|discriminate].
  unfold run_from.
  destruct (map_m _ (seq 0 (pop_size cfg)) (g1, [])) as [[cs|ex] [g2 st]] eqn:Hpop;
    [|discriminate].
  intros [= <- _]. apply new_creatures_spec in Hpop as (_ & Hall & Hdis).
  split; cbn [population genes fst snd] in *; [|exact Hdis].
  eapply Forall_impl; [exact Hall|]. cbn. intros xs Hxs.
  eapply Forall_impl; [exact Hxs|]. cbn. intros r. lia.
Qed.

(** X20. With crossover enabled, a run that completes ends in a population
    where no gene object is held by two creatures; and the number of
    generations is arbitrary, so this holds after every replacement
    step. *)
Theorem crossover_keeps_genes_unshared (cfg : Config) (g : RNG) (w : World) :
  do_crossover cfg = true -> notebook cfg g = (Ok tt, Some w) ->
  owned_once w /\ owners_disjoint (population w) = true.
Proof.
  intros Hcross. unfold notebook.
  destruct (setup cfg g) as [[w0|e] g0] eqn:Hsetup; [|discriminate].
  destruct (evolve cfg (g0, w0)) as [r [g1 w1]] eqn:Hrun. intros [= -> <-].
  assert (H : owned_once w1).
  { apply (keeps_owners_for_each (seq 0 (num_gen cfg)) (fun _ => generation cfg)
             (fun _ => keeps_owners_generation cfg Hcross) (g0, w0) tt (g1, w1)).
    - now apply setup_owned_once in Hsetup.
    - exact Hrun. }
  split; [exact H|]. apply owners_disjoint_iff. apply H.
Qed.

Lemma crossover_keeps_genes_unshared_witness :
  exists w, notebook Examples.cfg_crossover Examples.g0 = (Ok tt, Some w) /\
            map gene_refs (population w) = [[8; 9]; [10; 11]] /\
            owners_disjoint (population w) = true.
Proof.
  eexists. split; [vm_compute; reflexivity|]. split; [vm_compute; reflexivity|].
  refine (proj2 (crossover_keeps_genes_unshared Examples.cfg_crossover Examples.g0 _
                   eq_refl _)).
  vm_compute; reflexivity.
Defined.


(** * The code around the claims *)

(** ** The learner between construction and training *)

Section LearnerFacts.
Import UrnAgent.

(** X1. [UrnAgent(bias_gene)] on a gene whose values have the shape its
    [size] says: the learner takes its numbers of observations and of
    choices from the gene's size, every count is one plus the gene's value
    at that place, every running sum is the total of its row of counts,
    and the buffer is empty. The bounds of the gene play no part. Values
    that are not negative give counts that are all positive. *)
Theorem learner_from_gene (ref : nat) (g : Gene.t) :
  has_shape (Gene.size g) (Gene.values g) = true ->
  exists a, __init__ ref g = Ok a /\
    bias_gene a = ref /\
    num_obs a = fst (Gene.size g) /\ num_choices a = snd (Gene.size g) /\
    train_buf a = [] /\
    urn_shape a = true /\ sums_ok a = true /\
    (forall obs c v, entry (Gene.values g) obs c = Some v ->
       entry (urn_balls a) obs c = Some (1 + v)%Q) /\
    (forall obs row, urn_balls a !! obs = Some row ->
       urn_sum_balls a !! obs = Some (Qsum row)) /\
    (Forall (Forall (fun v => 0 <= v)%Q) (Gene.values g) -> positive_counts a = true).
Proof.
  intros Hshape.
  set (g' := Gene.mk (Gene.size g) 0 0 (Gene.init_values g) (Gene.values g)).
  assert (Hok : gene_ok g' = true) by (unfold gene_ok; cbn; exact Hshape).
  destruct (agent_init_ok ref g' Hok)
    as (a & Hinit & Hballs & Hsums & Hbuf & Hgene & Hno & Hnc & Hs & Hsum).
  exists a. split; [exact Hinit|]. cbn in Hballs, Hsums, Hno, Hnc.
  repeat split; auto.
  - intros obs c v. unfold entry. rewrite Hballs, lookup_map.
    destruct (Gene.values g !! obs) as [row|]; [|discriminate]. cbn.
    rewrite lookup_map. now intros ->.
  - intros obs row. rewrite Hballs, Hsums, !lookup_map.
    destruct (Gene.values g !! obs) as [r|]; [|discriminate]. cbn. now intros [= <-].
  - intros Hpos. exact (agent_init_positive ref g' a Hinit Hok Hpos).
Qed.

Lemma learner_from_gene_witness :
  exists a, __init__ 0 Examples.gene_b = Ok a /\
    entry (urn_balls a) 1 0 = Some (1 + 30)%Q /\
    urn_sum_balls a !! 1 = Some (1 + 30 + (1 + 30 + 0))%Q /\
    positive_counts a = true.
Proof.
  destruct (learner_from_gene 0 Examples.gene_b eq_refl)
    as (a & Hinit & _ & _ & _ & _ & _ & _ & Hballs & Hsums & Hpos).
  exists a. split; [exact Hinit|]. split; [exact (Hballs 1 0 30%Q eq_refl)|].
  split.
  - injection Hinit as <-. reflexivity.
  - apply Hpos. repeat constructor; discriminate.
Defined.

(** *** One round of the loop of [train], whatever the record *)

Lemma reinforce_cases (a : t) (o c : nat) (r : Q) :
  urn_shape a = true ->
  (o < num_obs a /\ c < num_choices a /\
   exists row b s, urn_balls a !! o = Some row /\ row !! c = Some b /\
     urn_sum_balls a !! o = Some s /\
     reinforce (o, c, r) a = (Ok tt, reinforced o c r a row b s)) \/
  ((num_obs a <= o \/ num_choices a <= c) /\
   reinforce (o, c, r) a = (Raise IndexError, a)).
Proof.
  intros Hshape. destruct (lt_dec o (num_obs a)) as [Ho|Ho].
  - destruct (lt_dec c (num_choices a)) as [Hc|Hc].
    + left. destruct (urn_shape_lookup a o c Hshape Ho Hc) as (row & b & s & Hrow & Hb & Hs & _).
      split; [exact Ho|]. split; [exact Hc|]. exists row, b, s.
      repeat split; auto. now apply reinforce_eq.
    + right. split; [lia|].
      apply andb_true_iff in Hshape as [Hb _].
      apply has_shape_Forall in Hb as [Hlen Hrows]. cbn [fst snd] in *.
      destruct (lookup_lt_is_Some_2 (urn_balls a) o) as [row Hrow]; [lia|].
      rewrite Forall_lookup in Hrows. pose proof (Hrows _ _ Hrow) as Hl.
      unfold reinforce, bind, get, lift, modify, getitem. cbn [fst snd]. rewrite Hrow.
      rewrite (lookup_ge_None_2 row c) by lia. reflexivity.
  - right. split; [lia|].
    apply andb_true_iff in Hshape as [Hb _].
    apply has_shape_Forall in Hb as [Hlen _]. cbn [fst] in Hlen.
    unfold reinforce, bind, get, lift, getitem. cbn [fst snd].
    rewrite (lookup_ge_None_2 (urn_balls a) o) by lia. reflexivity.
Qed.

Lemma reinforced_fields (o c : nat) (r : Q) (a : t) (row : list Q) (b s : Q) :
  num_obs (reinforced o c r a row b s) = num_obs a /\
  num_choices (reinforced o c r a row b s) = num_choices a /\
  train_buf (reinforced o c r a row b s) = train_buf a /\
  bias_gene (reinforced o c r a row b s) = bias_gene a.
Proof. repeat split. Qed.

(** The loop of [train] over any buffer: it runs to the first record that
    is out of range. An invariant [P] of the single rounds holds where the
    loop stops. *)
Lemma reinforce_loop_inv (P : t -> Prop) (R : nat * nat * Q -> Prop) :
  (forall a o c r row b s, R (o, c, r) -> urn_shape a = true ->
     urn_balls a !! o = Some row -> row !! c = Some b -> urn_sum_balls a !! o = Some s ->
     P a -> P (reinforced o c r a row b s)) ->
  forall buf a, Forall R buf -> urn_shape a = true -> P a ->
    exists res a', for_each buf reinforce a = (res, a') /\
      urn_shape a' = true /\ P a' /\
      num_obs a' = num_obs a /\ num_choices a' = num_choices a /\
      train_buf a' = train_buf a /\ bias_gene a' = bias_gene a /\
      (records_ok a buf = true -> res = Ok tt) /\
      (records_ok a buf = false -> res = Raise IndexError).
Proof.
  intros Hstep buf. induction buf as [|[[o c] r] buf IH]; intros a HR Hshape HP.
  - exists (Ok tt), a. cbn. repeat split; auto. discriminate.
  - inversion HR as [|? ? Hrec Hrest]; subst.
    destruct (reinforce_cases a o c r Hshape)
      as [(Ho & Hc & row & b & s & Hrow & Hb & Hs & Hrun)|[Hout Hrun]].
    + set (a1 := reinforced o c r a row b s) in *.
      destruct (IH a1 Hrest)
        as (res & a' & Hloop & Hshape' & HP' & Hno & Hnc & Hbuf & Hgene & Hyes & Hno').
      { now apply reinforced_shape. }
      { now apply Hstep. }
      exists res, a'. cbn [for_each]. unfold bind at 1. rewrite Hrun, Hloop.
      assert (E : records_ok a ((o, c, r) :: buf) = records_ok a1 buf).
      { cbn [records_ok forallb]. apply Nat.ltb_lt in Ho, Hc. rewrite Ho, Hc. reflexivity. }
      rewrite E. repeat split; auto.
    + exists (Raise IndexError), a. cbn [for_each]. unfold bind at 1. rewrite Hrun.
      repeat split; auto.
      cbn [records_ok forallb]. intros H. apply andb_true_iff in H as [H _].
      apply andb_true_iff in H as [H1 H2]. apply Nat.ltb_lt in H1, H2. lia.
Qed.

Lemma train_inv (P : t -> Prop) (R : nat * nat * Q -> Prop) (a : t) :
  (forall a o c r row b s, R (o, c, r) -> urn_shape a = true ->
     urn_balls a !! o = Some row -> row !! c = Some b -> urn_sum_balls a !! o = Some s ->
     P a -> P (reinforced o c r a row b s)) ->
  (forall a buf, P a -> P (set_train_buf buf a)) ->
  Forall R (train_buf a) -> urn_shape a = true -> P a ->
  exists res a', train a = (res, a') /\ urn_shape a' = true /\ P a' /\
    num_obs a' = num_obs a /\ num_choices a' = num_choices a /\
    bias_gene a' = bias_gene a /\
    (records_ok a (train_buf a) = true -> res = Ok tt /\ train_buf a' = []) /\
    (records_ok a (train_buf a) = false ->
       res = Raise IndexError /\ train_buf a' = train_buf a).
Proof.
  intros Hstep Hbuf HR Hshape HP.
  destruct (reinforce_loop_inv P R Hstep (train_buf a) a HR Hshape HP)
    as (res & a' & Hloop & Hshape' & HP' & Hno & Hnc & Hb & Hgene & Hyes & Hnot).
  unfold train, bind, get, modify. rewrite Hloop.
  destruct (records_ok a (train_buf a)) eqn:Hrec.
  - rewrite (Hyes eq_refl). exists (Ok tt), (set_train_buf [] a').
    repeat split; auto; discriminate.
  - rewrite (Hnot eq_refl). exists (Raise IndexError), a'.
    repeat split; auto; discriminate.
Qed.

Lemma probabilities_frame (obs : nat) (a : t) : snd (probabilities obs a) = a.
Proof.
  unfold probabilities, bind, get, lift, ret.
  destruct (getitem (urn_balls a) obs); [|reflexivity].
  now destruct (getitem (urn_sum_balls a) obs).
Qed.

Lemma get_action_frame (obs : nat) (g : RNG) (a : t) :
  snd (snd (get_action obs (g, a))) = a.
Proof.
  unfold get_action, bind. rewrite on_self_get. cbn [snd]. rewrite on_self_eq.
  rewrite probabilities_frame. destruct (fst (probabilities obs a)); [|reflexivity].
  now rewrite on_rng_eq.
Qed.

Lemma update_reward_eq (reward : Q) (a : t) :
  exists buf, update_reward reward a = (Ok tt, set_train_buf buf a) /\
    map fst buf = map fst (train_buf a) /\
    (train_buf a = [] -> buf = []) /\
    (forall init o c x, train_buf a = init ++ [(o, c, x)] ->
       buf = init ++ [(o, c, (x + reward)%Q)]).
Proof.
  unfold update_reward, bind, get.
  destruct (train_buf a) as [|rec0 buf0] eqn:Hbuf using rev_ind.
  - cbn. exists []. repeat split; auto.
    + destruct a; cbn in *; now subst.
    + intros init o c x E. now destruct init.
  - clear IHbuf0. rewrite map_app. cbn [map]. rewrite last_last. destruct rec0 as [[o c] r].
    eexists. split; [reflexivity|].
    rewrite length_app. cbn [length]. rewrite Nat.add_1_r. cbn [pred].
    rewrite insert_app_r_alt, Nat.sub_diag by lia. cbn [insert list_insert].
    repeat split.
    + now rewrite !map_app.
    + intros E. now destruct buf0.
    + intros init o' c' x E. apply app_inj_tail in E as [-> [= -> -> ->]]. reflexivity.
Qed.





(** X3. [update_reward] on an empty buffer does nothing. On a buffer that
    is not empty it adds the reward to the reward of the last record and
    to nothing else: the observations and choices of all records and the
    rewards of the earlier records stay. The counts are not touched. *)
Theorem update_reward_last_only (reward : Q) (a : t) :
  (train_buf a = [] -> update_reward reward a = (Ok tt, a)) /\
  (forall init o c x, train_buf a = init ++ [(o, c, x)] ->
     update_reward reward a
       = (Ok tt, set_train_buf (init ++ [(o, c, (x + reward)%Q)]) a)).
Proof.
  destruct (update_reward_eq reward a) as (buf & Hrun & _ & Hnil & Hlast). split.
  - intros E. rewrite Hrun, (Hnil E). destruct a; cbn in *; now subst.
  - intros init o c x E. now rewrite Hrun, (Hlast init o c x E).
Qed.

Lemma update_reward_last_only_witness :
  update_reward 5 (Examples.agent []) = (Ok tt, Examples.agent []) /\
  update_reward 5 (Examples.agent [(0, 1, 1%Q); (1, 0, 2%Q)])
    = (Ok tt, Examples.agent [(0, 1, 1%Q); (1, 0, (2 + 5)%Q)]).
Proof.
  split.
  - exact (proj1 (update_reward_last_only 5 (Examples.agent [])) eq_refl).
  - exact (proj2 (update_reward_last_only 5 (Examples.agent [(0, 1, 1%Q); (1, 0, 2%Q)]))
             [(0, 1, 1%Q)] 1 0 2%Q eq_refl).
Defined.

(** X4. The way the loop credits a move: [store_buffer(obs, choice)],
    then [update_reward(reward)], then [train()], on a learner with an
    empty buffer and an observation and a choice it has. The three calls
    return, the count of [choice] under [obs] and the running sum of
    [obs] have each grown by the reward, every other count and sum is as
    before, and the buffer is empty again. *)
Theorem move_is_credited (g : RNG) (a : t) (obs choice : nat) (reward : Q) :
  urn_shape a = true -> train_buf a = [] ->
  obs < num_obs a -> choice < num_choices a ->
  exists a', run_calls [StoreBuffer obs choice; UpdateReward reward; Train] (g, a)
               = (Ok tt, (g, a')) /\
    train_buf a' = [] /\
    (forall o s, urn_sum_balls a !! o = Some s ->
       urn_sum_balls a' !! o = Some (if o =? obs then (s + (0 + reward))%Q else s)) /\
    (forall o c b, entry (urn_balls a) o c = Some b ->
       entry (urn_balls a') o c
         = Some (if (o =? obs) && (c =? choice) then (b + (0 + reward))%Q else b)).
Proof.
  intros Hshape Hbuf Ho Hc.
  destruct (urn_shape_lookup a obs choice Hshape Ho Hc) as (row & b & s & Hrow & Hb & Hs & _).
  exists (reinforced obs choice (0 + reward) a row b s). split; [|split; [exact Hbuf|split]].
  - unfold run_calls. cbn [for_each run_call]. unfold bind. rewrite on_self_eq.
    unfold store_buffer at 1 2, modify. cbn [fst snd]. rewrite Hbuf. cbn [app].
    rewrite on_self_eq.
    destruct (update_reward_eq reward (set_train_buf [(obs, choice, 0%Q)] a))
      as (buf & -> & _ & _ & Hlast).
    rewrite (Hlast [] obs choice 0%Q eq_refl).
    cbn [fst snd app]. rewrite on_self_eq.
    rewrite (train_single _ obs choice (0 + reward) row b s); auto.
    cbn [fst snd ret]. destruct a; cbn in *; subst; reflexivity.
  - intros o x Hx. now apply reinforced_sum.
  - intros o c x Hx. now apply reinforced_ball.
Qed.

Lemma move_is_credited_witness :
  exists a', run_calls [StoreBuffer 0 1; UpdateReward 2; Train] (Examples.g0, Examples.agent [])
               = (Ok tt, (Examples.g0, a')) /\
    train_buf a' = [] /\
    entry (urn_balls a') 0 1 = Some (2 + (0 + 2))%Q /\
    urn_sum_balls a' !! 0 = Some (3 + (0 + 2))%Q.
Proof.
  destruct (move_is_credited Examples.g0 (Examples.agent []) 0 1 2 eq_refl eq_refl)
    as (a' & Hrun & Hbuf & Hsums & Hballs); [cbn; lia|cbn; lia|].
  exists a'. split; [exact Hrun|]. split; [exact Hbuf|]. split.
  - exact (Hballs 0 1 2%Q eq_refl).
  - exact (Hsums 0 3%Q eq_refl).
Defined.

Lemma for_each_app {S A} (xs ys : list A) (body : A -> M S unit) (s : S) :
  for_each (xs ++ ys) body s =
    match for_each xs body s with
    | (Ok _, s') => for_each ys body s'
    | (Raise e, s') => (Raise e, s')
    end.
Proof.
  revert s. induction xs as [|x xs IH]; intros s; [reflexivity|].
  cbn [app for_each]. unfold bind. destruct (body x s) as [[[]|e] s1]; [apply IH|reflexivity].
Qed.

(** X5. [train()] on a buffer with a record whose observation or choice
    the learner does not have: the records before the first such record
    are applied, each as the loop applies it, then [IndexError] is
    raised; that record and those after it are not applied, and the
    buffer is left as it was, the applied records included. The arrays
    keep their shape. *)
Theorem train_stops_at_bad_record (a : t) (pre post : list (nat * nat * Q))
    (o c : nat) (r : Q) :
  urn_shape a = true ->
  train_buf a = pre ++ (o, c, r) :: post ->
  records_ok a pre = true ->
  num_obs a <= o \/ num_choices a <= c ->
  exists a', train a = (Raise IndexError, a') /\
    for_each pre reinforce a = (Ok tt, a') /\
    train_buf a' = train_buf a /\
    urn_shape a' = true /\ num_obs a' = num_obs a /\ num_choices a' = num_choices a.
Proof.
  intros Hshape Hbuf Hpre Hout.
  destruct (reinforce_loop pre a Hshape Hpre)
    as (a1 & Hrun & Hshape1 & Hno & Hnc & Hbuf1 & _).
  exists a1. split; [|repeat split; auto].
  unfold train, bind, get. rewrite Hbuf, for_each_app, Hrun. cbn [for_each].
  unfold bind.
  destruct (reinforce_cases a1 o c r Hshape1) as [(Ho & Hc & _)|[_ ->]]; [lia|reflexivity].
Qed.

Lemma train_stops_at_bad_record_witness :
  exists a', train (Examples.agent [(0, 1, 1%Q); (5, 0, 1%Q); (1, 1, 1%Q)])
               = (Raise IndexError, a') /\
    train_buf a' = [(0, 1, 1%Q); (5, 0, 1%Q); (1, 1, 1%Q)] /\
    for_each [(0, 1, 1%Q)] reinforce (Examples.agent [(0, 1, 1%Q); (5, 0, 1%Q); (1, 1, 1%Q)])
      = (Ok tt, a').
Proof.
  destruct (train_stops_at_bad_record
              (Examples.agent [(0, 1, 1%Q); (5, 0, 1%Q); (1, 1, 1%Q)])
              [(0, 1, 1%Q)] [(1, 1, 1%Q)] 5 0 1%Q eq_refl eq_refl eq_refl)
    as (a' & Hrun & Hpre & Hbuf & _).
  { left. cbn. lia. }
  exists a'. split; [exact Hrun|]. split; [exact Hbuf|exact Hpre].
Defined.

Lemma positive_reinforced :
  forall a o c r row b s, (0 <= snd (o, c, r))%Q -> urn_shape a = true ->
    urn_balls a !! o = Some row -> row !! c = Some b -> urn_sum_balls a !! o = Some s ->
    positive_counts a = true -> positive_counts (reinforced o c r a row b s) = true.
Proof.
  intros a o c r row b s Hr _ Hrow Hb _ Hpos. cbn [snd] in Hr.
  pose proof (positive_counts_row a o row Hpos Hrow) as Hrowpos.
  unfold positive_counts in *. unfold reinforced. cbn.
  rewrite forallb_Forall in *. apply Forall_insert; [exact Hpos|].
  apply forallb_Forall. apply Forall_insert.
  - eapply Forall_impl; [exact Hrowpos|]. cbn. intros x. apply Qltb_true.
  - apply Qltb_true. rewrite Forall_lookup in Hrowpos. specialize (Hrowpos _ _ Hb).
    cbn in Hrowpos. lra.
Qed.

(** X6. Rewards that are not negative keep the counts positive: after
    [train()] on a learner with positive counts whose buffered rewards
    are all [>= 0], every count is still positive, also when [train]
    stops at a record it cannot apply. *)
Theorem train_keeps_counts_positive (a : t) :
  urn_shape a = true -> positive_counts a = true ->
  Forall (fun rec => 0 <= snd rec)%Q (train_buf a) ->
  positive_counts (snd (train a)) = true.
Proof.
  intros Hshape Hpos Hrew.
  destruct (train_inv (fun a => positive_counts a = true) (fun rec => 0 <= snd rec)%Q a
              positive_reinforced)
    as (res & a' & -> & _ & H & _); auto.
Qed.

Lemma train_keeps_counts_positive_witness :
  positive_counts (snd (train (Examples.agent [(0, 1, 1%Q); (1, 0, 0%Q)]))) = true.
Proof.
  apply (train_keeps_counts_positive (Examples.agent [(0, 1, 1%Q); (1, 0, 0%Q)]));
    [reflexivity|reflexivity|].
  repeat constructor; discriminate.
Defined.

(** *** [get_action] on a learner in order *)

Lemma Qsum_map_div (s : Q) (xs : list Q) :
  (Qsum (map (fun b => b / s) xs) == Qsum xs / s)%Q.
Proof.
  induction xs as [|x xs IH]; cbn.
  - unfold Qdiv. ring.
  - change (foldr Qplus 0%Q (map (fun b => b / s) xs))%Q
      with (Qsum (map (fun b => b / s)%Q xs)).
    change (foldr Qplus 0%Q xs) with (Qsum xs). rewrite IH. unfold Qdiv. ring.
Qed.

Lemma existsb_negative (p : list Q) :
  Forall (fun x => 0 <= x)%Q p -> existsb (fun x => Qltb x 0) p = false.
Proof.
  induction 1 as [|x p Hx _ IH]; [reflexivity|]. cbn [existsb]. rewrite IH, orb_false_r.
  now apply Qltb_false.
Qed.

(** [rng.choice(n, p=p)] accepts a distribution: [n] entries, none
    negative, that sum to one. *)
Lemma choice_p_defined (n : nat) (p : list Q) (g : RNG) :
  n <> 0 -> length p = n -> Forall (fun x => 0 <= x)%Q p -> (Qsum p == 1)%Q ->
  exists c g', rng.choice_p n p g = (Ok c, g') /\ c < n.
Proof.
  intros Hn Hlen Hpos Hsum.
  assert (Hrun : exists c g', rng.choice_p n p g = (Ok c, g')).
  { unfold rng.choice_p. apply Nat.eqb_neq in Hn. rewrite Hn.
    apply Nat.eqb_eq in Hlen. rewrite Hlen. cbn [negb].
    rewrite (existsb_negative p Hpos).
    assert (Htol : Qltb rng.atol (Qabs (Qsum p - 1)) = false).
    { apply Qltb_false. apply Qabs_Qle_condition.
      assert (0 <= rng.atol)%Q by discriminate. split; lra. }
    rewrite Htol. unfold bind. destruct (random_total g) as (u & g' & ->). eauto. }
  destruct Hrun as (c & g' & Hrun). exists c, g'. split; [exact Hrun|].
  exact (choice_p_range n p g c g' Hrun).
Qed.




Lemma Qsum_map_replicate (n : nat) (v : Q) :
  (Qsum (map (Qplus 1) (replicate n v)) == inject_Z (Z.of_nat n) * (1 + v))%Q.
Proof.
  induction n as [|n IH]; [cbn; ring|].
  cbn [replicate map Qsum foldr].
  change (foldr Qplus 0%Q (map (Qplus 1) (replicate n v)))
    with (Qsum (map (Qplus 1) (replicate n v))).
  rewrite IH, Nat2Z.inj_succ. unfold Z.succ. rewrite inject_Z_plus. ring.
Qed.

(** X8. A gene built with a number as [init_values] gives a learner
    without a preference: after [Gene(size, lo, hi, v)] and [UrnAgent],
    for every observation the counts are all [1 + v] and the
    probabilities are all one and the same number, that count divided by
    the running sum of the observation, whatever the bounds. *)
Theorem constant_bias_has_no_preference (size : nat * nat) (lo hi v : Q) (g : RNG)
    (ref obs : nat) :
  obs < fst size ->
  exists gene a total,
    Gene.__init__ size lo hi (Gene.Literal v) g = (Ok gene, g) /\
    __init__ ref gene = Ok a /\
    urn_balls a !! obs = Some (replicate (snd size) (1 + v)%Q) /\
    urn_sum_balls a !! obs = Some total /\
    probabilities obs a = (Ok (replicate (snd size) ((1 + v) / total)%Q), a).
Proof.
  intros Ho.
  set (g' := Gene.mk size 0 0 (Gene.Literal v) (np.full size v)).
  assert (Hok : gene_ok g' = true) by (unfold gene_ok; cbn; apply full_shape).
  destruct (agent_init_ok ref g' Hok) as (a & Hinit & Hballs & Hsums & _).
  cbn [Gene.values g'] in Hballs, Hsums.
  assert (Hrow : urn_balls a !! obs = Some (replicate (snd size) (1 + v)%Q)).
  { rewrite Hballs. unfold np.full. rewrite lookup_map, lookup_replicate_2 by exact Ho.
    cbn. now rewrite fmap_replicate. }
  assert (Hs : urn_sum_balls a !! obs
               = Some (Qsum (map (Qplus 1) (replicate (snd size) v)))).
  { rewrite Hsums. unfold np.full. now rewrite lookup_map, lookup_replicate_2 by exact Ho. }
  exists (Gene.mk size lo hi (Gene.Literal v) (np.full size v)), a. eexists.
  split; [reflexivity|]. split; [exact Hinit|]. split; [exact Hrow|]. split; [exact Hs|].
  unfold probabilities, bind, get, lift, getitem, ret. cbn [fst snd]. rewrite Hrow, Hs.
  cbn [fst snd]. now rewrite fmap_replicate.
Qed.

Lemma constant_bias_has_no_preference_witness :
  exists gene a total,
    Gene.__init__ (2, 3) 0 30 (Gene.Literal 7) Examples.g0 = (Ok gene, Examples.g0) /\
    __init__ 0 gene = Ok a /\
    probabilities 1 a = (Ok (replicate 3 ((1 + 7) / total)%Q), a).
Proof.
  destruct (constant_bias_has_no_preference (2, 3) 0 30 7 Examples.g0 0 1)
    as (gene & a & total & H1 & H2 & _ & _ & H3); [cbn; lia|].
  now exists gene, a, total.
Defined.

End LearnerFacts.

(** ** An episode on the environment *)

Section EpisodeFacts.
Import SignalingGameEnv.

(** X9. After [reset] an episode is exactly two steps. The first step is
    the sender's: it records the message, which the receiver then
    observes, and the hidden state stays what the sender observed. The
    second step is the receiver's: it records the action, ends the
    episode and sets [success] to whether the action is the hidden state.
    A third step fails the assertion on [done] and changes nothing. *)
Theorem two_steps_end_an_episode (g g' : RNG) (e e0 : t) (m a x : nat) :
  reset (g, e) = (Ok tt, (g', e0)) ->
  exists e1 e2,
    success e0 = None /\ observe "sender" e0 = (Ok (Some (state e0)), e0) /\
    step m e0 = (Ok tt, e1) /\
    done e1 = false /\ success e1 = None /\
    observe "receiver" e1 = (Ok (Some m), e1) /\
    step a e1 = (Ok tt, e2) /\
    done e2 = true /\ success e2 = Some (state e0 =? a) /\
    state e2 = state e0 /\ message e2 = Some m /\ action e2 = Some a /\
    step x e2 = (Raise AssertionError, e2).
Proof.
  intros Hreset. apply reset_ok in Hreset as (s & _ & ->).
  set (e0 := set_agent_selection "sender" (set_done false (set_success None (set_state s e)))).
  exists (set_agent_selection "receiver" (set_message (Some m) e0)).
  eexists. split; [reflexivity|]. split; [reflexivity|].
  split; [now apply step_sender|]. split; [reflexivity|]. split; [reflexivity|].
  split; [reflexivity|]. split; [now apply step_receiver|].
  repeat split.
Qed.

Lemma two_steps_end_an_episode_witness :
  exists e0 e1 e2,
    snd (snd (reset (Examples.g0, Examples.env_of "receiver" true (Some 0)))) = e0 /\
    step 1 e0 = (Ok tt, e1) /\ step (state e0) e1 = (Ok tt, e2) /\
    success e2 = Some true /\ step 0 e2 = (Raise AssertionError, e2).
Proof.
  destruct (two_steps_end_an_episode Examples.g0
              (fst (snd (reset (Examples.g0, Examples.env_of "receiver" true (Some 0)))))
              (Examples.env_of "receiver" true (Some 0))
              (snd (snd (reset (Examples.g0, Examples.env_of "receiver" true (Some 0)))))
              1 (state (snd (snd (reset (Examples.g0,
                                         Examples.env_of "receiver" true (Some 0)))))) 0)
    as (e1 & e2 & _ & _ & H1 & _ & _ & _ & H2 & _ & H3 & _ & _ & _ & H4).
  { vm_compute. reflexivity. }
  eexists. exists e1, e2. split; [reflexivity|]. split; [exact H1|]. split; [exact H2|].
  split; [|exact H4]. rewrite H3. now rewrite Nat.eqb_refl.
Defined.

Lemma while_unfold (fuel : nat) (body : M (RNG * World) unit) (s : RNG * World) :
  done (env (snd s)) = false ->
  while_not_done (S fuel) body s =
    (let '(r, s1) := body s in
     match r with
     | Ok _ => while_not_done fuel body s1
     | Raise e => (Raise e, s1)
     end).
Proof.
  intros Hd. cbn [while_not_done]. unfold bind at 1. rewrite on_self_get, Hd.
  reflexivity.
Qed.

Lemma while_done (fuel : nat) (body : M (RNG * World) unit) (s : RNG * World) :
  done (env (snd s)) = true -> while_not_done fuel body s = (Ok tt, s).
Proof.
  intros Hd. destruct fuel; cbn [while_not_done]; unfold bind; now rewrite on_self_get, Hd.
Qed.

(** The loop [while not env.done] with at least two rounds of fuel, from
    the state [reset] leaves, is two turns. *)
Lemma while_is_two_turns (creatures : dict nat) (n : nat) (s : RNG * World) :
  done (env (snd s)) = false -> agent_selection (env (snd s)) = "sender"%string ->
  exists r s',
    while_not_done (S (S n)) (turn creatures) s = (r, s') /\
    r <> Raise OutOfFuel /\
    (r = Ok tt ->
     exists m a,
       message (env (snd s')) = Some m /\ action (env (snd s')) = Some a /\
       done (env (snd s')) = true /\ state (env (snd s')) = state (env (snd s)) /\
       success (env (snd s')) = Some (state (env (snd s)) =? a)).
Proof.
  intros Hd Hs. rewrite (while_unfold _ _ _ Hd).
  pose proof (fueled_turn creatures s) as Hf.
  destruct (turn creatures s) as [[u|e] s1] eqn:Ht.
  2:{ exists (Raise e), s1. split; [reflexivity|]. split; [exact Hf|discriminate]. }
  clear Hf. apply turn_stepped in Ht as [m Hm]. rewrite (step_sender m _ Hd Hs) in Hm.
  injection Hm as Hm.
  assert (Hd1 : done (env (snd s1)) = false) by (rewrite <- Hm; exact Hd).
  rewrite (while_unfold _ _ _ Hd1).
  pose proof (fueled_turn creatures s1) as Hf.
  destruct (turn creatures s1) as [[u1|e] s2] eqn:Ht1.
  2:{ exists (Raise e), s2. split; [reflexivity|]. split; [exact Hf|discriminate]. }
  clear Hf. apply turn_stepped in Ht1 as [a Ha]. rewrite <- Hm in Ha.
  rewrite step_receiver in Ha by (cbn; auto). injection Ha as Ha.
  assert (Hd2 : done (env (snd s2)) = true) by (now rewrite <- Ha).
  rewrite (while_done _ _ _ Hd2).
  exists (Ok tt), s2. split; [reflexivity|]. split; [discriminate|]. intros _.
  exists m, a. rewrite <- Ha. cbn. auto.
Qed.

(** X10. The loop [while not env.done] of an episode ends after two
    turns. From the state [reset] leaves, giving the loop more than two
    rounds changes nothing; when both turns return, the environment is
    done, holds the sender's message and the receiver's action, and
    [success] says whether that action is the hidden state, which the
    turns have not changed. *)
Theorem episode_loop_takes_two_turns (creatures : dict nat) (n : nat) (s : RNG * World) :
  done (env (snd s)) = false -> agent_selection (env (snd s)) = "sender"%string ->
  while_not_done (2 + n) (turn creatures) s = while_not_done 2 (turn creatures) s /\
  fst (while_not_done 2 (turn creatures) s) <> Raise OutOfFuel /\
  forall s', while_not_done 2 (turn creatures) s = (Ok tt, s') ->
    exists m a,
      message (env (snd s')) = Some m /\ action (env (snd s')) = Some a /\
      done (env (snd s')) = true /\ state (env (snd s')) = state (env (snd s)) /\
      success (env (snd s')) = Some (state (env (snd s)) =? a).
Proof.
  intros Hd Hs.
  destruct (while_is_two_turns creatures n s Hd Hs) as (r & s1 & Hn & _).
  destruct (while_is_two_turns creatures 0 s Hd Hs) as (r2 & s2 & H2 & Hr & Hok).
  change (2 + n) with (S (S n)). rewrite Hn, H2. split; [|split; [exact Hr|]].
  - revert Hn H2. rewrite !(while_unfold _ _ _ Hd).
    destruct (turn creatures s) as [[u|e] s3] eqn:Ht; [|congruence].
    apply turn_stepped in Ht as [m Hm]. rewrite (step_sender m _ Hd Hs) in Hm.
    injection Hm as Hm.
    assert (Hd1 : done (env (snd s3)) = false) by (rewrite <- Hm; exact Hd).
    rewrite !(while_unfold _ _ _ Hd1).
    destruct (turn creatures s3) as [[u1|e] s4] eqn:Ht1; [|congruence].
    apply turn_stepped in Ht1 as [a Ha]. rewrite <- Hm in Ha.
    rewrite step_receiver in Ha by (cbn; auto). injection Ha as Ha.
    assert (Hd2 : done (env (snd s4)) = true) by (now rewrite <- Ha).
    rewrite !(while_done _ _ _ Hd2). congruence.
  - intros s' [= -> <-]. now apply Hok.
Qed.

Lemma episode_loop_takes_two_turns_witness :
  exists s s', started Examples.cfg_crossover Examples.g0 = Some s /\
    while_not_done 7 (turn [("sender"%string, 0); ("receiver"%string, 1)]) s = (Ok tt, s') /\
    done (env (snd s')) = true.
Proof.
  eexists. eexists. split; [vm_compute; reflexivity|].
  match goal with |- ?run ?s = _ /\ _ =>
    destruct (episode_loop_takes_two_turns
                [("sender"%string, 0); ("receiver"%string, 1)] 5 s) as (Hn & _ & Hend);
      [vm_compute; reflexivity|vm_compute; reflexivity|]
  end.
  split.
  - etransitivity; [exact Hn|]. vm_compute. reflexivity.
  - destruct (Hend _ ltac:(vm_compute; reflexivity)) as (m & a & _ & _ & H & _). exact H.
Defined.

End EpisodeFacts.

(** ** What the loop leaves alone *)

Section ViewFacts.
Context {X : Type} (view : World -> X) (R : Creature.t -> Creature.t -> Prop).

Hypothesis view_env : forall e w, view (set_env e w) = view w.
Hypothesis view_store : forall st w, view (set_genes st w) = view w.
Hypothesis view_log_success : forall v w, view (set_log_success v w) = view w.
Hypothesis view_log_rewards : forall v w, view (set_log_rewards v w) = view w.
Hypothesis view_log_success_choice_biases :
  forall v w, view (set_log_success_choice_biases v w) = view w.
Hypothesis view_log_fail_choice_biases :
  forall v w, view (set_log_fail_choice_biases v w) = view w.
Hypothesis view_creature :
  forall w idx c c', population w !! idx = Some c -> R c c' ->
    view (set_population (<[idx := c']> (population w)) w) = view w.
Hypothesis R_refl : forall c, R c c.
Hypothesis R_agents : forall c v, R c (Creature.set_agents v c).
Hypothesis R_fitness : forall c v, R c (Creature.set_fitness v c).
Hypothesis R_lifespan : forall c v, R c (Creature.set_lifespan v c).

Lemma kv_ret {A} (a : A) : keeps_view view (ret a).
Proof. now intros s. Qed.

Lemma kv_raise {A} (e : exn) : keeps_view view (@raise _ A e).
Proof. now intros s. Qed.

Lemma kv_lift {A} (o : outcome A) : keeps_view view (lift o).
Proof. now intros s. Qed.

Lemma kv_attr {A} (o : option A) : keeps_view view (attr o).
Proof. now destruct o. Qed.

Lemma kv_deref (ref : nat) : keeps_view view (deref (fun s => genes (snd s)) ref).
Proof. intros s. unfold deref. now destruct (genes (snd s) !! ref). Qed.

Lemma kv_bind {A B} (m : M (RNG * World) A) (k : A -> M (RNG * World) B) :
  keeps_view view m -> (forall a, keeps_view view (k a)) -> keeps_view view (bind m k).
Proof.
  intros Hm Hk s. unfold bind. specialize (Hm s).
  destruct (m s) as [[a|e] s1]; cbn in *; [|exact Hm]. now rewrite Hk.
Qed.

Lemma kv_if {A} (c : bool) (m1 m2 : M (RNG * World) A) :
  keeps_view view m1 -> keeps_view view m2 -> keeps_view view (if c then m1 else m2).
Proof. now destruct c. Qed.

Lemma kv_for_each {A} (xs : list A) (body : A -> M (RNG * World) unit) :
  (forall x, keeps_view view (body x)) -> keeps_view view (for_each xs body).
Proof.
  intros H. induction xs as [|x xs IH]; cbn; [apply kv_ret|]. now apply kv_bind.
Qed.

Lemma kv_map_m {A B} (f : A -> M (RNG * World) B) (xs : list A) :
  (forall x, keeps_view view (f x)) -> keeps_view view (map_m f xs).
Proof.
  intros H. induction xs as [|x xs IH]; cbn; [apply kv_ret|].
  apply kv_bind; [apply H|]. intros y. apply kv_bind; [exact IH|]. intros ys. apply kv_ret.
Qed.

Lemma kv_on_rng {A} (m : M RNG A) : keeps_view view (on_rng m).
Proof. intros [g w]. now rewrite on_rng_eq. Qed.

Lemma kv_get : keeps_view view (on_self get).
Proof. intros s. now rewrite on_self_get. Qed.

Lemma kv_modify (f : World -> World) :
  (forall w, view (f w) = view w) -> keeps_view view (on_self (modify f)).
Proof. intros H [g w]. rewrite on_self_eq. apply H. Qed.

Lemma kv_on_env {A} (m : M (RNG * SignalingGameEnv.t) A) : keeps_view view (on_env m).
Proof.
  intros [g w]. unfold on_env, on_world, zoom. cbn [fst snd].
  destruct (m (g, env w)) as [r [g' e]]. apply view_env.
Qed.

Lemma kv_on_store {A} (m : M (RNG * list Gene.t) A) : keeps_view view (on_store m).
Proof. intros [g w]. rewrite on_store_eq. apply view_store. Qed.

Lemma kv_on_creature {A} (idx : nat) (m : M (RNG * Creature.t) A) :
  (forall s, R (snd s) (snd (snd (m s)))) -> keeps_view view (on_creature idx m).
Proof.
  intros H [g w]. unfold on_creature, on_world, zoom, getitem. cbn [fst snd].
  destruct (population w !! idx) as [c|] eqn:Hc; [|reflexivity].
  specialize (H (g, c)). destruct (m (g, c)) as [r [g' c']]. cbn in *.
  now apply view_creature with (c := c).
Qed.

Lemma kv_on_agent {A} (idx : nat) (name : string) (m : M (RNG * UrnAgent.t) A) :
  keeps_view view (on_agent idx name m).
Proof.
  apply kv_on_creature. intros [g c]. unfold zoom. cbn [fst snd].
  destruct (dict_get (Creature.agents c) name) as [a|]; [|apply R_refl].
  destruct (m (g, a)) as [r [g' a']]. apply R_agents.
Qed.

Lemma kv_turn (creatures : dict nat) : keeps_view view (turn creatures).
Proof.
  unfold turn. apply kv_bind; [apply kv_get|]. intros w.
  apply kv_bind; [apply kv_on_env|]. intros obs.
  apply kv_bind; [apply kv_lift|]. intros idx.
  apply kv_bind; [apply kv_on_agent|]. intros _.
  destruct obs; [|apply kv_raise].
  apply kv_bind; [apply kv_on_agent|]. intros action.
  apply kv_bind; [apply kv_on_env|]. intros _. apply kv_on_agent.
Qed.

Lemma kv_while (fuel : nat) (body : M (RNG * World) unit) :
  keeps_view view body -> keeps_view view (while_not_done fuel body).
Proof.
  intros H. induction fuel as [|fuel IH]; cbn [while_not_done];
    (apply kv_bind; [apply kv_get|]); intros w; apply kv_if;
    auto using kv_ret, kv_raise, kv_bind.
Qed.

Lemma kv_log (d : dict (list Q)) (name : string) (x : Q)
    (set : dict (list Q) -> World -> World) :
  (forall v w, view (set v w) = view w) ->
  keeps_view view (let* logs := lift (log_append d name x) in on_self (modify (set logs))).
Proof.
  intros H. apply kv_bind; [apply kv_lift|]. intros logs. apply kv_modify. apply H.
Qed.

Lemma kv_credit (cfg : Config) (creatures : dict nat) (name : string) :
  keeps_view view (credit cfg creatures name).
Proof.
  unfold credit. apply kv_bind; [apply kv_get|]. intros w.
  apply kv_bind; [apply kv_if; [apply kv_lift|apply kv_ret]|]. intros fitness.
  apply kv_bind; [apply kv_lift|]. intros idx.
  apply kv_bind.
  { apply kv_on_creature. intros [g c]. rewrite on_self_eq. apply R_fitness. }
  intros _.
  apply kv_bind; [apply kv_if; [apply kv_lift|apply kv_ret]|]. intros reward.
  apply kv_bind; [apply kv_on_agent|]. intros _.
  apply kv_bind.
  { apply kv_bind; [apply kv_get|]. intros w1. now apply kv_log. }
  intros _. apply kv_bind; [apply kv_get|]. intros w'.
  apply kv_bind.
  { repeat apply kv_if; repeat (apply kv_bind; [apply kv_attr|]; intros ?);
      auto using kv_ret, kv_raise. }
  intros obs_choice.
  apply kv_bind.
  { apply kv_on_creature. intros [g c]. rewrite on_self_eq. apply R_refl. }
  intros c.
  apply kv_bind; [apply kv_lift|]. intros ref.
  apply kv_bind; [apply kv_deref|]. intros g.
  apply kv_bind; [apply kv_lift|]. intros row.
  apply kv_bind; [apply kv_lift|]. intros choice_bias.
  apply kv_bind; [apply kv_if; now apply kv_log|]. intros _. apply kv_on_agent.
Qed.

Lemma kv_episode (cfg : Config) : keeps_view view (episode cfg).
Proof.
  unfold episode. apply kv_bind; [apply kv_on_rng|]. intros sender_idx.
  apply kv_bind; [apply kv_get|]. intros w.
  apply kv_bind; [apply kv_lift|]. intros _.
  apply kv_bind; [apply kv_lift|]. intros dist.
  apply kv_bind; [apply kv_on_rng|]. intros receiver_idx.
  apply kv_bind; [apply kv_on_env|]. intros _.
  apply kv_bind; [apply kv_while, kv_turn|]. intros _.
  apply kv_bind.
  { apply kv_bind; [apply kv_get|]. intros w1. apply kv_modify. intros w2.
    apply view_log_success. }
  intros _. apply kv_bind; [apply kv_get|]. intros w1.
  apply kv_for_each. intros name. apply kv_credit.
Qed.

(** The part of a generation before the replacement step. *)
Lemma kv_episodes (cfg : Config) (n : nat) :
  keeps_view view (for_each (seq 0 n) (fun _ => episode cfg)).
Proof. apply kv_for_each. intros _. apply kv_episode. Qed.

Lemma kv_next_slot (cfg : Config) (i : nat) : keeps_view view (next_slot cfg i).
Proof.
  unfold next_slot. apply kv_bind; [apply kv_get|]. intros w.
  apply kv_bind; [apply kv_lift|]. intros c. apply kv_if.
  - apply kv_bind.
    + apply kv_on_creature. intros [g c0]. rewrite on_self_eq. apply R_lifespan.
    + intros _. apply kv_on_creature. intros [g c0]. rewrite on_self_eq. apply R_refl.
  - apply kv_bind; [apply kv_on_rng|]. intros picks.
    apply kv_bind; [apply kv_map_m; intros k; apply kv_lift|]. intros tournament.
    apply kv_bind.
    { apply kv_if; [apply kv_on_store|].
      apply kv_bind; [apply kv_lift|]. intros winner. apply kv_ret. }
    intros new_genes. apply kv_bind; [|intros _; apply kv_on_store].
    apply kv_for_each. intros role. apply kv_bind; [apply kv_lift|]. intros ref.
    apply kv_on_store.
Qed.

End ViewFacts.

Lemma innate_creature (w : World) (idx : nat) (c c' : Creature.t) :
  population w !! idx = Some c -> heritage c' = heritage c ->
  innate (set_population (<[idx := c']> (population w)) w) = innate w.
Proof.
  intros Hc H. unfold innate. cbn. f_equal. now apply (map_insert_same heritage _ idx c).
Qed.

(** X11. Episodes leave alone what the creatures are born with. However
    many episodes run, and however the run of them ends, no gene object
    has changed, no creature holds other genes or has another lifespan
    than before, there are as many creatures as before, and the matching
    distributions are as they were. What episodes change is the fitness
    of creatures, their learners, the environment and the logs. *)
Theorem episodes_leave_genes_alone (cfg : Config) (n : nat) (s : RNG * World) :
  genes (snd (snd (for_each (seq 0 n) (fun _ => episode cfg) s))) = genes (snd s) /\
  matching_dists (snd (snd (for_each (seq 0 n) (fun _ => episode cfg) s)))
    = matching_dists (snd s) /\
  map Creature.bias_genes (population (snd (snd (for_each (seq 0 n) (fun _ => episode cfg) s))))
    = map Creature.bias_genes (population (snd s)) /\
  map Creature.lifespan (population (snd (snd (for_each (seq 0 n) (fun _ => episode cfg) s))))
    = map Creature.lifespan (population (snd s)).
Proof.
  pose proof (kv_episodes innate (fun c c' => heritage c' = heritage c)) as H.
  specialize (H ltac:(reflexivity) ltac:(reflexivity) ltac:(reflexivity) ltac:(reflexivity)
                ltac:(reflexivity) innate_creature ltac:(reflexivity) ltac:(reflexivity)
                ltac:(reflexivity) cfg n s).
  unfold innate in H. injection H as Hg Hm Hp.
  split; [exact Hg|]. split; [exact Hm|].
  split.
  - apply (f_equal (map fst)) in Hp. now rewrite !map_map in Hp.
  - apply (f_equal (map snd)) in Hp. now rewrite !map_map in Hp.
Qed.

Lemma pop_length_creature (w : World) (idx : nat) (c c' : Creature.t) :
  population w !! idx = Some c -> True ->
  pop_length (set_population (<[idx := c']> (population w)) w) = pop_length w.
Proof. intros _ _. unfold pop_length. cbn. apply length_insert. Qed.

Lemma for_each_invariant {S A} (P : S -> Prop) (xs : list A) (body : A -> M S unit) :
  (forall x s, P s -> P (snd (body x s))) ->
  forall s, P s -> P (snd (for_each xs body s)).
Proof.
  intros H. induction xs as [|x xs IH]; intros s Hs; [exact Hs|].
  cbn [for_each]. unfold bind. specialize (H x s Hs).
  destruct (body x s) as [[u|e] s1]; [now apply IH|exact H].
Qed.

Lemma pop_length_next_slot (cfg : Config) (i : nat) :
  keeps_view pop_length (next_slot cfg i).
Proof.
  apply (kv_next_slot pop_length (fun _ _ => True)); try reflexivity; try easy.
  exact pop_length_creature.
Qed.

Lemma generation_pop_length (cfg : Config) (s : RNG * World) :
  pop_length (snd s) = pop_size cfg ->
  pop_length (snd (snd (generation cfg s))) = pop_size cfg.
Proof.
  intros Hs.
  assert (Hpre : forall A (m : M (RNG * World) A) (k : A -> M (RNG * World) unit) s,
             keeps_view pop_length m ->
             (forall a s, pop_length (snd s) = pop_size cfg ->
                          pop_length (snd (snd (k a s))) = pop_size cfg) ->
             pop_length (snd s) = pop_size cfg ->
             pop_length (snd (snd (bind m k s))) = pop_size cfg).
  { intros A m k s0 Hm Hk Hs0. unfold bind. specialize (Hm s0).
    destruct (m s0) as [[a|e] s1]; cbn in *; [apply Hk|]; congruence. }
  unfold generation.
  repeat (apply Hpre; [apply kv_modify; reflexivity| |assumption]; intros _ ? ?).
  apply Hpre; [|intros _ ? ?|assumption].
  { apply (kv_episodes pop_length (fun _ _ => True)); try reflexivity; try easy.
    exact pop_length_creature. }
  apply Hpre; [|intros _ ? ?|assumption].
  { apply kv_bind; [apply kv_get|]. intros w. apply kv_bind; [apply kv_lift|].
    intros _. apply kv_ret. }
  unfold next_generation, bind.
  match goal with |- context [map_m ?f ?xs ?s] =>
    pose proof (kv_map_m pop_length f xs (pop_length_next_slot cfg) s) as Hkeep;
    destruct (map_m f xs s) as [[cs|e] [g1 w1]] eqn:Hslots
  end; cbn [fst snd] in *; [|congruence].
  rewrite on_self_eq. cbn. unfold pop_length. cbn.
  apply (map_m_post _ (fun _ => True)) in Hslots as [_ Hlen]; [|easy].
  now rewrite Hlen, length_seq.
Qed.

Lemma setup_pop_length (cfg : Config) (g : RNG) (w : World) (g' : RNG) :
  setup cfg g = (Ok w, g') -> pop_length w = pop_size cfg.
Proof.
  unfold setup, bind.
  destruct (SignalingGameEnv.__init__ _ _ _ g) as [[e|ex] g1]; [|discriminate].
  unfold lift at 1. destruct (make_matching_dists cfg) as [dists|ex]; [|discriminate].
  unfold run_from.
  destruct (map_m _ (seq 0 (pop_size cfg)) (g1, [])) as [[cs|ex] [g2 st]] eqn:Hpop;
    [|discriminate].
  intros [= <- _]. unfold pop_length. cbn.
  apply (map_m_post _ (fun _ => True)) in Hpop as [_ Hlen]; [|easy].
  now rewrite Hlen, length_seq.
Qed.

(** X12. The population has [pop_size] creatures wherever the run stops:
    after the configuration cell, during and after every generation, and
    also in the world an exception leaves behind. *)
Theorem population_size_is_constant (cfg : Config) (g : RNG) (r : outcome unit) (w : World) :
  notebook cfg g = (r, Some w) -> length (population w) = pop_size cfg.
Proof.
  unfold notebook. destruct (setup cfg g) as [[w0|e] g0] eqn:Hsetup; [|discriminate].
  apply setup_pop_length in Hsetup.
  pose proof (for_each_invariant (fun s => pop_length (snd s) = pop_size cfg)
                (seq 0 (num_gen cfg)) (fun _ => generation cfg)
                (fun _ => generation_pop_length cfg) (g0, w0) Hsetup) as H.
  unfold evolve. destruct (for_each _ _ (g0, w0)) as [r' [g1 w1]]. intros [= _ <-].
  exact H.
Qed.

Lemma population_size_is_constant_witness :
  (exists w, notebook Examples.cfg_crossover Examples.g0 = (Ok tt, Some w) /\
             length (population w) = 2) /\
  (exists w, notebook Examples.cfg_large_tournament Examples.g0 = (Raise ValueError, Some w) /\
             length (population w) = 2).
Proof.
  split.
  - eexists. split; [vm_compute; reflexivity|].
    refine (population_size_is_constant Examples.cfg_crossover Examples.g0 (Ok tt) _ _).
    vm_compute; reflexivity.
  - eexists. split; [vm_compute; reflexivity|].
    refine (population_size_is_constant Examples.cfg_large_tournament Examples.g0
              (Raise ValueError) _ _).
    vm_compute; reflexivity.
Defined.

(** ** Creatures, the initial population and the replacement step *)

Section CreatureFacts.

Lemma bind_ok {S A B} (m : M S A) (k : A -> M S B) (s : S) (b : B) (s' : S) :
  bind m k s = (Ok b, s') -> exists a s1, m s = (Ok a, s1) /\ k a s1 = (Ok b, s').
Proof.
  unfold bind. destruct (m s) as [[a|e] s1]; [|discriminate]. intros H. now exists a, s1.
Qed.

Lemma apply_bias_buf (g : Gene.t) (obs : nat) (a : UrnAgent.t) :
  UrnAgent.train_buf (snd (UrnAgent.apply_bias g obs a)) = UrnAgent.train_buf a.
Proof.
  unfold UrnAgent.apply_bias, bind, get, lift, modify. cbn [fst snd].
  destruct (getitem (UrnAgent.urn_balls a) obs); [|reflexivity].
  destruct (getitem (Gene.values g) obs); [|reflexivity].
  now destruct (np.add_row _ _).
Qed.

(** A learner starts with an empty buffer, whatever its gene. *)
Lemma agent_init_buf (ref : nat) (g : Gene.t) (a : UrnAgent.t) :
  UrnAgent.__init__ ref g = Ok a -> UrnAgent.train_buf a = [].
Proof.
  unfold UrnAgent.__init__.
  match goal with |- context [for_each ?xs ?f ?s0] =>
    pose proof (for_each_invariant (fun a => UrnAgent.train_buf a = []) xs f
                  (fun x a0 H => eq_trans (apply_bias_buf g x a0) H) s0 eq_refl) as H;
    destruct (for_each xs f s0) as [[u|e] a']
  end; [|discriminate].
  now intros [= <-].
Qed.

Lemma dict_set_Forall {A} (P : A -> Prop) (d : dict A) (key : string) (v : A) :
  Forall P (map snd d) -> P v -> Forall P (map snd (dict_set d key v)).
Proof.
  intros Hd Hv. induction d as [|[k x] d IH]; cbn; [now constructor|].
  inversion Hd; subst. destruct (String.eqb k key); cbn; constructor; auto.
Qed.

Lemma dict_set_fresh {A} (d : dict A) (key : string) (v : A) :
  key ∉ map fst d -> dict_set d key v = d ++ [(key, v)].
Proof.
  induction d as [|[k x] d IH]; cbn; [reflexivity|]. intros Hk.
  destruct (String.eqb_spec k key) as [->|Hne].
  - exfalso. apply Hk. now left.
  - f_equal. apply IH. intros Hin. apply Hk. now right.
Qed.

(** What the loop of [Creature.__init__] builds: one new learner for each
    entry of [bias_genes], from the gene of that entry. *)
Lemma make_agents_spec (d : dict nat) (s : RNG * list Gene.t) (ags : dict UrnAgent.t)
    (s' : RNG * list Gene.t) :
  Creature.make_agents d s = (Ok ags, s') ->
  s' = s /\
  Forall (fun a => exists name ref gene,
            (name, ref) ∈ d /\ snd s !! ref = Some gene /\
            UrnAgent.__init__ ref gene = Ok a) (map snd ags) /\
  (NoDup (map fst d) ->
   Forall2 (fun item entry =>
              fst entry = fst item /\
              exists gene, snd s !! snd item = Some gene /\
                           UrnAgent.__init__ (snd item) gene = Ok (snd entry)) d ags).
Proof.
  unfold Creature.make_agents.
  enough (H : forall items acc,
             (forall x, x ∈ items -> x ∈ d) ->
             Forall (fun a => exists name ref gene,
                       (name, ref) ∈ d /\ snd s !! ref = Some gene /\
                       UrnAgent.__init__ ref gene = Ok a) (map snd acc) ->
             (fix go (items : dict nat) (agents : dict UrnAgent.t) :=
                match items with
                | [] => ret agents
                | (agent_name, ref) :: rest =>
                    let* g := deref snd ref in
                    let* a := lift (UrnAgent.__init__ ref g) in
                    go rest (dict_set agents agent_name a)
                end) items acc s = (Ok ags, s') ->
             s' = s /\
             Forall (fun a => exists name ref gene,
                       (name, ref) ∈ d /\ snd s !! ref = Some gene /\
                       UrnAgent.__init__ ref gene = Ok a) (map snd ags) /\
             (NoDup (map fst items) -> (forall k, k ∈ map fst acc -> k ∉ map fst items) ->
              exists built, ags = acc ++ built /\
                Forall2 (fun item entry =>
                           fst entry = fst item /\
                           exists gene, snd s !! snd item = Some gene /\
                                        UrnAgent.__init__ (snd item) gene = Ok (snd entry))
                        items built)).
  { intros Hrun. destruct (H d [] ltac:(auto) ltac:(constructor) Hrun) as (H1 & H2 & H3).
    split; [exact H1|]. split; [exact H2|]. intros Hnd.
    destruct (H3 Hnd) as (built & -> & Hb); [intros k Hk; inversion Hk|]. exact Hb. }
  induction items as [|[name ref] items IH]; intros acc Hsub Hacc.
  - intros [= <- <-]. split; [reflexivity|]. split; [exact Hacc|]. intros _ _.
    exists []. rewrite app_nil_r. split; [reflexivity|constructor].
  - unfold bind at 1, deref at 1. destruct (snd s !! ref) as [gene|] eqn:Hgene; [|discriminate].
    unfold bind at 1, lift at 1.
    destruct (UrnAgent.__init__ ref gene) as [a|] eqn:Ha; [|discriminate].
    intros Hrun. apply IH in Hrun as (H1 & H2 & H3).
    + split; [exact H1|]. split; [exact H2|]. intros Hnd Hdisj.
      cbn [map fst] in Hnd. apply NoDup_cons in Hnd as [Hname Hnd].
      assert (Hfresh : name ∉ map fst acc).
      { intros Hin. apply (Hdisj name Hin). now left. }
      rewrite (dict_set_fresh acc name a Hfresh) in H3.
      destruct (H3 Hnd) as (built & -> & Hb).
      { intros k Hk. rewrite map_app in Hk. apply elem_of_app in Hk as [Hk|Hk].
        - intros Hin. apply (Hdisj k Hk). now right.
        - cbn in Hk. apply list_elem_of_singleton in Hk as ->. exact Hname. }
      exists ((name, a) :: built). rewrite <- app_assoc. split; [reflexivity|].
      constructor; [|exact Hb]. cbn. split; [reflexivity|]. now exists gene.
    + intros x Hx. apply Hsub. now right.
    + apply dict_set_Forall; [exact Hacc|]. exists name, ref, gene.
      split; [apply Hsub; now left|]. now split.
Qed.

(** [rng.geometric(p)] returns only for [0 < p <= 1], and then a positive
    integer, which is [1] when [p] is [1]. *)
Lemma geometric_spec (p : Q) (g : RNG) (l : Z) (g' : RNG) :
  rng.geometric p g = (Ok l, g') ->
  (0 < p)%Q /\ (p <= 1)%Q /\ (1 <= l)%Z /\ ((1 <= p)%Q -> l = 1%Z).
Proof.
  unfold rng.geometric. destruct (Qle_bool p 0) eqn:H0; [discriminate|].
  destruct (Qltb 1 p) eqn:H1; [discriminate|]. cbn [orb].
  unfold bind, rng.next_uint64, ret. intros [= <- _].
  apply Qltb_false in H1.
  assert (Hp : (0 < p)%Q).
  { apply Qnot_le_lt. intros H. apply Qle_bool_iff in H. congruence. }
  split; [exact Hp|]. split; [exact H1|]. split.
  - destruct (Qle_bool 1 p); [lia|].
    pose proof (Z.mod_pos_bound (words g (pos g)) (2 ^ 64) ltac:(lia)). lia.
  - intros H. apply Qle_bool_iff in H. now rewrite H.
Qed.

Lemma creature_init_spec (d : dict nat) (lifespan_mean : Q) (s : RNG * list Gene.t)
    (c : Creature.t) (s' : RNG * list Gene.t) :
  Creature.__init__ d lifespan_mean s = (Ok c, s') ->
  (1 <= lifespan_mean)%Q /\
  snd s' = snd s /\ Creature.bias_genes c = d /\
  Creature.fitness c = 0%Q /\ (1 <= Creature.lifespan c)%Z /\
  ((lifespan_mean == 1)%Q -> Creature.lifespan c = 1%Z) /\
  Forall (fun a => exists name ref gene,
            (name, ref) ∈ d /\ snd s !! ref = Some gene /\
            UrnAgent.__init__ ref gene = Ok a) (map snd (Creature.agents c)) /\
  (NoDup (map fst d) ->
   Forall2 (fun item entry =>
              fst entry = fst item /\
              exists gene, snd s !! snd item = Some gene /\
                           UrnAgent.__init__ (snd item) gene = Ok (snd entry))
           d (Creature.agents c)).
Proof.
  unfold Creature.__init__. intros H. apply bind_ok in H as (ags & s1 & Hags & H).
  apply make_agents_spec in Hags as (-> & Hall & Hkeys).
  destruct (Qeq_bool lifespan_mean 0) eqn:Hz; [discriminate|].
  apply bind_ok in H as (l & s2 & Hl & H). injection H as <- <-.
  destruct s as [g st]. rewrite on_rng_eq in Hl. cbn [fst snd] in *.
  destruct (rng.geometric (1 / lifespan_mean) g) as [[l'|e] g'] eqn:Hgeo; [|discriminate].
  cbn [fst snd] in Hl. injection Hl as -> <-.
  apply geometric_spec in Hgeo as (Hp0 & Hp1 & Hl1 & Hone).
  assert (Hne : ~ (lifespan_mean == 0)%Q).
  { intros E. apply Qeq_bool_iff in E. congruence. }
  assert (Hinv : (lifespan_mean * (1 / lifespan_mean) == 1)%Q) by (field; exact Hne).
  assert (Hlm : (1 <= lifespan_mean)%Q).
  { set (x := (1 / lifespan_mean)%Q) in *. nra. }
  repeat split; auto.
  intros E. apply Hone. rewrite E. discriminate.
Qed.

(** X13. What [Creature(bias_genes, lifespan_mean)] gives when it
    returns: [lifespan_mean] was at least [1] (for [0] the division
    raises [ZeroDivisionError], below [1] the generator refuses the
    parameter); the creature holds the dictionary it was given, has
    fitness [0] and a lifespan of at least [1], which is [1] when
    [lifespan_mean] is [1]; it has one learner for every role of
    [bias_genes], in the same order, each built from the gene of its role
    as that gene is at this moment; and no gene has been changed. *)
Theorem creature_is_born (d : dict nat) (lifespan_mean : Q) (s : RNG * list Gene.t)
    (c : Creature.t) (s' : RNG * list Gene.t) :
  NoDup (map fst d) ->
  Creature.__init__ d lifespan_mean s = (Ok c, s') ->
  (1 <= lifespan_mean)%Q /\
  snd s' = snd s /\ Creature.bias_genes c = d /\
  Creature.fitness c = 0%Q /\ (1 <= Creature.lifespan c)%Z /\
  ((lifespan_mean == 1)%Q -> Creature.lifespan c = 1%Z) /\
  Forall2 (fun item entry =>
             fst entry = fst item /\
             exists gene, snd s !! snd item = Some gene /\
                          UrnAgent.__init__ (snd item) gene = Ok (snd entry))
          d (Creature.agents c).
Proof.
  intros Hnd H. apply creature_init_spec in H as (H1 & H2 & H3 & H4 & H5 & H6 & _ & H7).
  repeat split; auto.
Qed.

Lemma creature_is_born_witness :
  exists c g',
    Creature.__init__ [("sender"%string, 0); ("receiver"%string, 1)] 1
                      (Examples.g0, [Examples.gene_a; Examples.gene_b])
      = (Ok c, (g', [Examples.gene_a; Examples.gene_b])) /\
    Creature.fitness c = 0%Q /\ Creature.lifespan c = 1%Z /\
    map fst (Creature.agents c) = ["sender"%string; "receiver"%string].
Proof.
  eexists. eexists. split; [vm_compute; reflexivity|].
  match goal with |- ?f _ = _ /\ _ =>
    destruct (creature_is_born [("sender"%string, 0); ("receiver"%string, 1)] 1
                (Examples.g0, [Examples.gene_a; Examples.gene_b]) _ _
                ltac:(apply (bool_decide_unpack _); vm_compute; exact I) ltac:(vm_compute; reflexivity))
      as (_ & _ & _ & Hf & _ & Hl & _)
  end.
  split; [exact Hf|]. split; [apply Hl; reflexivity|]. reflexivity.
Defined.

Lemma newborn_of_init (d : dict nat) (lifespan_mean : Q) (s : RNG * list Gene.t)
    (c : Creature.t) (s' : RNG * list Gene.t) :
  Creature.__init__ d lifespan_mean s = (Ok c, s') -> newborn c.
Proof.
  intros H. apply creature_init_spec in H as (_ & _ & _ & Hf & Hl & _ & Hall & _).
  split; [exact Hf|]. split; [exact Hl|].
  eapply Forall_impl; [exact Hall|]. cbn. intros a (name & ref & gene & _ & _ & Ha).
  now exists ref, gene.
Qed.

End CreatureFacts.

Section PopulationFacts.

Lemma gene_init_fields (size : nat * nat) (lo hi : Q) (i : Gene.init_values_t)
    (g : RNG) (x : Gene.t) (g' : RNG) :
  Gene.__init__ size lo hi i g = (Ok x, g') ->
  Gene.size x = size /\ Gene.min_val x = lo /\ Gene.max_val x = hi /\
  Gene.init_values x = i /\ has_shape size (Gene.values x) = true.
Proof.
  destruct i as [|v]; cbn [Gene.__init__].
  - unfold bind. destruct (rng.uniform lo hi size g) as [[vs|e] g1] eqn:Hu; [|discriminate].
    intros [= <- _]. apply uniform_post in Hu as [Hs _]. now cbn.
  - intros [= <- _]. cbn. repeat split. apply full_shape.
Qed.

Lemma new_gene_spec (size : nat * nat) (lo hi : Q) (i : Gene.init_values_t)
    (s : RNG * list Gene.t) (r : nat) (s' : RNG * list Gene.t) :
  new_gene size lo hi i s = (Ok r, s') ->
  r = length (snd s) /\
  exists x, snd s' = snd s ++ [x] /\
    Gene.size x = size /\ Gene.min_val x = lo /\ Gene.max_val x = hi /\
    Gene.init_values x = i /\ has_shape size (Gene.values x) = true.
Proof.
  destruct s as [g st]. unfold new_gene, bind. rewrite on_rng_eq.
  destruct (Gene.__init__ size lo hi i g) as [[x|e] g'] eqn:Hx; [|discriminate].
  unfold alloc. cbn [fst snd]. intros [= <- <-]. split; [reflexivity|].
  exists x. split; [reflexivity|]. now apply gene_init_fields in Hx.
Qed.

(** The gene that the configuration cell builds for a role. *)
Lemma new_creature_spec (cfg : Config) (s : RNG * list Gene.t) (c : Creature.t)
    (s' : RNG * list Gene.t) :
  new_creature cfg s = (Ok c, s') ->
  newborn c /\
  Creature.bias_genes c
    = [("sender"%string, length (snd s)); ("receiver"%string, S (length (snd s)))] /\
  exists gs gr, snd s' = snd s ++ [gs; gr] /\
    Gene.size gs = (num_states cfg, num_messages cfg) /\
    Gene.size gr = (num_messages cfg, num_states cfg) /\
    has_shape (Gene.size gs) (Gene.values gs) = true /\
    has_shape (Gene.size gr) (Gene.values gr) = true /\
    Gene.min_val gs = min_bias cfg /\ Gene.max_val gs = max_bias cfg /\
    Gene.min_val gr = min_bias cfg /\ Gene.max_val gr = max_bias cfg.
Proof.
  unfold new_creature. intros H. apply bind_ok in H as (a & s1 & Ha & H).
  apply bind_ok in H as (b & s2 & Hb & H).
  apply new_gene_spec in Ha as (-> & gs & Hs1 & Hgs1 & Hgs2 & Hgs3 & _ & Hgs4).
  apply new_gene_spec in Hb as (-> & gr & Hs2 & Hgr1 & Hgr2 & Hgr3 & _ & Hgr4).
  pose proof (newborn_of_init _ _ _ _ _ H) as Hnew.
  apply creature_init_spec in H as (_ & Hst & Hbias & _).
  split; [exact Hnew|]. split.
  - rewrite Hbias, Hs1, length_app. cbn. now rewrite Nat.add_1_r.
  - exists gs, gr. rewrite Hst, Hs2, Hs1, <- app_assoc, Hgs1, Hgr1. cbn [app].
    repeat split; auto.
Qed.

Lemma new_creatures_layout (cfg : Config) {A} (idxs : list A) (s : RNG * list Gene.t)
    (cs : list Creature.t) (s' : RNG * list Gene.t) :
  map_m (fun _ => new_creature cfg) idxs s = (Ok cs, s') ->
  length cs = length idxs /\
  exists news, snd s' = snd s ++ news /\ length news = 2 * length idxs /\
    forall k c, cs !! k = Some c ->
      newborn c /\
      Creature.bias_genes c
        = [("sender"%string, length (snd s) + 2 * k);
           ("receiver"%string, length (snd s) + 2 * k + 1)] /\
      exists gs gr, news !! (2 * k) = Some gs /\ news !! (2 * k + 1) = Some gr /\
        Gene.size gs = (num_states cfg, num_messages cfg) /\
        Gene.size gr = (num_messages cfg, num_states cfg) /\
        has_shape (Gene.size gs) (Gene.values gs) = true /\
        has_shape (Gene.size gr) (Gene.values gr) = true /\
        Gene.min_val gs = min_bias cfg /\ Gene.max_val gs = max_bias cfg /\
        Gene.min_val gr = min_bias cfg /\ Gene.max_val gr = max_bias cfg.
Proof.
  revert s cs s'. induction idxs as [|i idxs IH]; intros s cs s'.
  - intros [= <- <-]. split; [reflexivity|]. exists []. rewrite app_nil_r.
    split; [reflexivity|]. split; [reflexivity|]. intros k c H. destruct k; discriminate.
  - cbn [map_m]. intros H. apply bind_ok in H as (c & s1 & Hc & H).
    apply bind_ok in H as (cs' & s2 & Hrest & H). injection H as <- <-.
    apply new_creature_spec in Hc as (Hnew & Hbias & gs & gr & Hs1 & Hfacts).
    apply IH in Hrest as (Hlen & news & Hs2 & Hnews & Hall).
    split; [cbn; lia|]. exists ([gs; gr] ++ news).
    split; [now rewrite Hs2, Hs1, <- app_assoc|]. split; [cbn; lia|].
    intros [|k] c0 Hk.
    + injection Hk as <-. split; [exact Hnew|]. split.
      * rewrite Hbias. f_equal; [f_equal; lia|f_equal; f_equal; lia].
      * exists gs, gr. split; [reflexivity|]. split; [reflexivity|]. exact Hfacts.
    + cbn in Hk. destruct (Hall k c0 Hk) as (Hn & Hb & gs' & gr' & H1 & H2 & Hf).
      split; [exact Hn|]. split.
      * rewrite Hb, Hs1, length_app. cbn [length].
        f_equal; [f_equal; lia|f_equal; f_equal; lia].
      * exists gs', gr'.
        replace (2 * S k) with (S (S (2 * k))) by lia.
        replace (S (S (2 * k)) + 1) with (S (S (2 * k + 1))) by lia.
        split; [exact H1|]. split; [exact H2|]. exact Hf.
Qed.

(** X14. What the configuration cell leaves when it returns:
    [pop_size] creatures and twice as many gene objects; creature [k]
    holds the genes [2k] as sender and [2k + 1] as receiver, so no gene has
    two owners; the sender gene has a row per state and a column per
    message, the receiver gene a row per message and a column per state,
    both with the configured bounds and values of that shape; every
    creature is as its constructor leaves it; the environment is at the
    start of an episode and the log of the episodes is empty. *)
Theorem initial_population (cfg : Config) (g : RNG) (w : World) (g' : RNG) :
  setup cfg g = (Ok w, g') ->
  length (population w) = pop_size cfg /\
  length (genes w) = 2 * pop_size cfg /\
  make_matching_dists cfg = Ok (matching_dists w) /\
  SignalingGameEnv.done (env w) = false /\
  SignalingGameEnv.agent_selection (env w) = "sender"%string /\
  log_success w = [] /\
  forall k c, population w !! k = Some c ->
    newborn c /\
    Creature.bias_genes c = [("sender"%string, 2 * k); ("receiver"%string, 2 * k + 1)] /\
    exists gs gr, genes w !! (2 * k) = Some gs /\ genes w !! (2 * k + 1) = Some gr /\
      Gene.size gs = (num_states cfg, num_messages cfg) /\
      Gene.size gr = (num_messages cfg, num_states cfg) /\
      has_shape (Gene.size gs) (Gene.values gs) = true /\
      has_shape (Gene.size gr) (Gene.values gr) = true /\
      Gene.min_val gs = min_bias cfg /\ Gene.max_val gs = max_bias cfg /\
      Gene.min_val gr = min_bias cfg /\ Gene.max_val gr = max_bias cfg.
Proof.
  unfold setup. intros H. apply bind_ok in H as (e & g1 & He & H).
  apply bind_ok in H as (dists & g2 & Hd & H).
  apply bind_ok in H as ([cs st] & g3 & Hpop & H). injection H as <- <-.
  unfold lift in Hd. injection Hd as Hd <-.
  unfold run_from in Hpop.
  destruct (map_m _ (seq 0 (pop_size cfg)) (g1, [])) as [[cs'|ex] [g4 st']] eqn:Hrun;
    [|discriminate].
  injection Hpop as -> -> ->.
  apply new_creatures_layout in Hrun as (Hlen & news & Hst & Hnews & Hall).
  cbn [fst snd app length] in *. subst st. rewrite length_seq in *.
  cbn [population genes matching_dists env log_success].
  split; [exact Hlen|]. split; [exact Hnews|]. split; [exact Hd|].
  unfold SignalingGameEnv.__init__ in He.
  destruct (SignalingGameEnv.reset _) as [[[]|ex] [g5 e5]] eqn:Hreset; [|discriminate].
  injection He as <- <-. apply reset_ok in Hreset as (st0 & _ & ->).
  split; [reflexivity|]. split; [reflexivity|]. split; [reflexivity|].
  exact Hall.
Qed.

Lemma initial_population_witness :
  exists w g', setup Examples.cfg_crossover Examples.g0 = (Ok w, g') /\
    length (genes w) = 4 /\
    map Creature.bias_genes (population w)
      = [[("sender"%string, 0); ("receiver"%string, 1)];
         [("sender"%string, 2); ("receiver"%string, 3)]].
Proof.
  eexists. eexists. split; [vm_compute; reflexivity|].
  match goal with |- length (genes ?w) = _ /\ _ =>
    destruct (initial_population Examples.cfg_crossover Examples.g0 w _
                ltac:(vm_compute; reflexivity)) as (_ & Hg & _)
  end.
  split; [exact Hg|]. vm_compute. reflexivity.
Defined.

(** *** The replacement step, slot by slot *)

Lemma next_slot_cases (cfg : Config) (k : nat) (g : RNG) (w : World) (c c' : Creature.t)
    (s1 : RNG * World) :
  population w !! k = Some c ->
  next_slot cfg k (g, w) = (Ok c', s1) ->
  if (1 <? Creature.lifespan c)%Z
  then c' = Creature.set_lifespan (Creature.lifespan c - 1) c /\
       s1 = (g, set_population (<[k := c']> (population w)) w)
  else population (snd s1) = population w /\ newborn c'.
Proof.
  intros Hk. unfold next_slot.
  unfold bind at 1. rewrite on_self_get. cbn [snd].
  unfold bind at 1, lift at 1. unfold getitem at 1. rewrite Hk.
  destruct (1 <? Creature.lifespan c)%Z.
  - unfold bind. rewrite (on_creature_eq k _ g w c Hk), on_self_eq. cbn [fst snd modify].
    set (c1 := Creature.set_lifespan (Creature.lifespan c - 1) c).
    assert (Hk1 : population (set_population (<[k := c1]> (population w)) w) !! k = Some c1).
    { cbn. apply list_lookup_insert_eq. now apply lookup_lt_Some in Hk. }
    rewrite (on_creature_eq k _ g _ c1 Hk1), on_self_eq. cbn [fst snd get].
    intros [= <- <-]. split; [reflexivity|]. f_equal.
    cbn [population set_population]. rewrite list_insert_insert_eq. reflexivity.
  - intros H.
    match type of H with ?m _ = _ =>
      assert (Hkeep : keeps_view population m)
    end.
    { apply kv_bind; [apply kv_on_rng|]. intros picks.
      apply kv_bind; [apply kv_map_m; intros i; apply kv_lift|]. intros tournament.
      apply kv_bind.
      { apply kv_if; [apply kv_on_store; reflexivity|].
        apply kv_bind; [apply kv_lift|]. intros winner. apply kv_ret. }
      intros new_genes. apply kv_bind; [|intros _; apply kv_on_store; reflexivity].
      apply kv_for_each. intros role. apply kv_bind; [apply kv_lift|]. intros ref.
      apply kv_on_store. reflexivity. }
    specialize (Hkeep (g, w)). rewrite H in Hkeep. cbn [fst snd] in Hkeep.
    split; [exact Hkeep|].
    apply bind_ok in H as (picks & s2 & _ & H).
    apply bind_ok in H as (tournament & s3 & _ & H).
    apply bind_ok in H as (new_genes & s4 & _ & H).
    apply bind_ok in H as (u & [g5 w5] & _ & H).
    rewrite on_store_eq in H.
    destruct (Creature.__init__ new_genes (lifespan_mean cfg) (g5, genes w5))
      as [[c0|e] [g6 st6]] eqn:Hinit; [|discriminate].
    cbn [fst snd] in H. injection H as <- _. now apply newborn_of_init in Hinit.
Qed.

Lemma next_slots_rel (cfg : Config) (pop0 : list Creature.t) :
  forall idxs s cs s',
    NoDup idxs ->
    (forall k, k ∈ idxs -> population (snd s) !! k = pop0 !! k) ->
    map_m (next_slot cfg) idxs s = (Ok cs, s') ->
    Forall2 (fun k c' =>
               exists c, pop0 !! k = Some c /\
                 if (1 <? Creature.lifespan c)%Z
                 then c' = Creature.set_lifespan (Creature.lifespan c - 1) c
                 else newborn c') idxs cs.
Proof.
  induction idxs as [|k idxs IH]; intros s cs s' Hnd Hsame.
  - intros [= <- <-]. constructor.
  - cbn [map_m]. intros H. apply bind_ok in H as (c' & s1 & Hslot & H).
    apply bind_ok in H as (cs' & s2 & Hrest & H). injection H as <- <-.
    apply NoDup_cons in Hnd as [Hk Hnd]. destruct s as [g w].
    assert (Hc : exists c, population w !! k = Some c).
    { revert Hslot. unfold next_slot. unfold bind at 1. rewrite on_self_get. cbn [snd].
      unfold bind at 1, lift at 1. unfold getitem at 1.
      destruct (population w !! k) as [c|]; [eauto|discriminate]. }
    destruct Hc as [c Hc].
    pose proof (next_slot_cases cfg k g w c c' s1 Hc Hslot) as Hcase.
    constructor.
    + exists c. split; [rewrite <- Hc; symmetry; apply Hsame; now left|].
      destruct (1 <? Creature.lifespan c)%Z; [apply Hcase|apply Hcase].
    + apply (IH s1 cs' s2 Hnd); [|exact Hrest].
      intros k' Hk'. rewrite <- (Hsame k') by now right.
      destruct (1 <? Creature.lifespan c)%Z.
      * destruct Hcase as [_ ->]. cbn [snd population set_population].
        apply list_lookup_insert_ne. intros ->. contradiction.
      * destruct Hcase as [-> _]. reflexivity.
Qed.

(** *** Crossover leaves the genes that exist alone *)

Lemma crossover_ref_appends (a b : nat) (s : RNG * list Gene.t) (r : nat)
    (s' : RNG * list Gene.t) :
  crossover_ref a b s = (Ok r, s') -> exists new, snd s' = snd s ++ [new].
Proof.
  destruct s as [g st]. unfold crossover_ref, bind, deref. cbn [snd].
  destruct (st !! b) as [other|]; [|discriminate].
  destruct (st !! a) as [self|] eqn:Ha.
  - rewrite (at_ref_eq a _ g st self Ha), crossover_unfold.
    destruct (Gene.__init__ _ _ _ _ g) as [[new|e] g1]; [|discriminate].
    destruct (rng.integers 0 2 (Gene.size self) g1) as [[mask|e] g2]; [|discriminate].
    destruct (np.where_ _ _ _) as [vs|e]; [|discriminate].
    cbn [fst snd]. unfold alloc. intros [= <- <-]. cbn [fst snd].
    rewrite list_insert_id by exact Ha. eauto.
  - unfold at_ref, zoom. cbn [snd]. rewrite Ha. discriminate.
Qed.

Lemma crossover_genes_appends (roles : list string) (winners : list Creature.t)
    (s : RNG * list Gene.t) (d : dict nat) (s' : RNG * list Gene.t) :
  crossover_genes roles winners s = (Ok d, s') -> exists ext, snd s' = snd s ++ ext.
Proof.
  unfold crossover_genes. generalize (@nil (string * nat)). revert s.
  induction roles as [|role roles IH]; intros s acc.
  - intros [= <- <-]. exists []. now rewrite app_nil_r.
  - unfold bind at 1, lift at 1. destruct (getitem winners 0) as [w0|]; [|discriminate].
    unfold bind at 1, lift at 1.
    destruct (dict_get (Creature.bias_genes w0) role) as [a|]; [|discriminate].
    unfold bind at 1, lift at 1. destruct (getitem winners 1) as [w1|]; [|discriminate].
    unfold bind at 1, lift at 1.
    destruct (dict_get (Creature.bias_genes w1) role) as [b|]; [|discriminate].
    unfold bind at 1. destruct (crossover_ref a b s) as [[child|e] s1] eqn:E; [|discriminate].
    apply crossover_ref_appends in E as [new Hnew]. intros H.
    apply IH in H as [ext Hext]. exists (new :: ext).
    now rewrite Hext, Hnew, <- app_assoc.
Qed.

Lemma dict_get_value {A} (d : dict A) (key : string) (v : A) :
  dict_get d key = Ok v -> v ∈ map snd d.
Proof.
  induction d as [|[k x] d IH]; cbn; [discriminate|].
  destruct (String.eqb k key); [intros [= ->]; now left|]. intros H. right. auto.
Qed.

(** Mutating genes at references from [L] on leaves the genes below [L]
    alone. *)
Lemma mutate_all_above (new_genes : dict nat) (rate : Q) (roles : list string) (L : nat)
    (s : RNG * World) (r : outcome unit) (s' : RNG * World) :
  Forall (fun ref => L <= ref) (map snd new_genes) ->
  for_each roles (fun role =>
                    let* ref := lift (dict_get new_genes role) in
                    on_store (mutate_ref ref rate)) s = (r, s') ->
  forall k, k < L -> genes (snd s') !! k = genes (snd s) !! k.
Proof.
  intros Hrefs. revert s. induction roles as [|role roles IH]; intros s;
    [now intros [= <- <-]|].
  cbn [for_each]. unfold bind at 1. unfold bind at 1, lift at 1.
  destruct (dict_get new_genes role) as [ref|] eqn:Href; [|now intros [= <- <-]].
  assert (Hle : L <= ref).
  { apply dict_get_value in Href. rewrite Forall_forall in Hrefs. now apply Hrefs. }
  destruct s as [g w]. rewrite on_store_eq.
  assert (Hone : forall k, k < L ->
             snd (snd (mutate_ref ref rate (g, genes w))) !! k = genes w !! k).
  { intros k Hk. unfold mutate_ref, at_ref, zoom. cbn [fst snd].
    destruct (genes w !! ref) as [self|]; [|reflexivity].
    destruct (Gene.mutate rate (g, self)) as [res [g' self']]. cbn [fst snd].
    apply list_lookup_insert_ne. lia. }
  destruct (mutate_ref ref rate (g, genes w)) as [[u|e] [g' st]]; cbn [fst snd] in *.
  - intros H k Hk. rewrite (IH _ H k Hk). cbn [snd genes set_genes]. now apply Hone.
  - intros [= <- <-] k Hk. cbn [snd genes set_genes]. now apply Hone.
Qed.

Lemma next_slot_keeps_store (cfg : Config) (k : nat) (s : RNG * World) (c : Creature.t)
    (s' : RNG * World) :
  do_crossover cfg = true -> next_slot cfg k s = (Ok c, s') ->
  forall r x, genes (snd s) !! r = Some x -> genes (snd s') !! r = Some x.
Proof.
  intros Hcross. destruct s as [g w]. unfold next_slot.
  unfold bind at 1. rewrite on_self_get. cbn [snd].
  unfold bind at 1, lift at 1. unfold getitem at 1.
  destruct (population w !! k) as [c0|] eqn:Hk; [|discriminate].
  destruct (1 <? Creature.lifespan c0)%Z.
  - unfold bind. rewrite (on_creature_eq k _ g w c0 Hk), on_self_eq. cbn [fst snd modify].
    set (c1 := Creature.set_lifespan (Creature.lifespan c0 - 1) c0).
    assert (Hk1 : population (set_population (<[k := c1]> (population w)) w) !! k = Some c1).
    { cbn. apply list_lookup_insert_eq. now apply lookup_lt_Some in Hk. }
    rewrite (on_creature_eq k _ g _ c1 Hk1), on_self_eq. cbn [fst snd get].
    intros [= <- <-]. cbn [snd population set_population genes]. auto.
  - rewrite Hcross. unfold bind at 1. rewrite on_rng_eq.
    destruct (rng.choice_without_replacement _ _ g) as [[picks|e] g1]; [|discriminate].
    cbn [fst snd]. unfold bind at 1.
    pose proof (map_m_lift_state (fun i => getitem (population w) i) picks (g1, w)) as Ht.
    destruct (map_m _ picks (g1, w)) as [[tournament|e] s1]; [|discriminate].
    cbn in Ht. subst s1. unfold bind at 1. rewrite on_store_eq.
    destruct (crossover_genes _ _ (g1, genes w)) as [[new_genes|e] [g2 st2]] eqn:Hgenes;
      [|discriminate].
    pose proof (crossover_genes_appends _ _ _ _ _ Hgenes) as [ext Hext].
    apply crossover_genes_fresh in Hgenes as [Hle Hfresh]. cbn [fst snd] in *.
    unfold bind at 1.
    destruct (for_each _ _ (g2, set_genes st2 w)) as [[u|e] [g3 w3]] eqn:Hmut;
      [|discriminate].
    pose proof (mutate_all_above new_genes _ _ (length (genes w)) _ _ _
                  ltac:(eapply Forall_impl; [exact Hfresh|]; cbn; intros; lia) Hmut) as Hkeep.
    cbn [fst snd population genes set_genes] in Hkeep.
    rewrite on_store_eq.
    destruct (Creature.__init__ new_genes (lifespan_mean cfg) (g3, genes w3))
      as [[c'|e] [g4 st4]] eqn:Hinit; [|discriminate].
    apply creature_init_ok in Hinit as [Hst Hbias]. cbn [fst snd] in *. subst st4.
    intros [= <- <-] r x Hr. cbn [snd population set_genes genes].
    rewrite Hkeep by (now apply lookup_lt_Some in Hr). subst st2.
    now apply lookup_app_l_Some.
Qed.

Lemma next_slots_keep_store (cfg : Config) (idxs : list nat) (s : RNG * World)
    (cs : list Creature.t) (s' : RNG * World) :
  do_crossover cfg = true -> map_m (next_slot cfg) idxs s = (Ok cs, s') ->
  forall r x, genes (snd s) !! r = Some x -> genes (snd s') !! r = Some x.
Proof.
  intros Hcross. revert s cs. induction idxs as [|k idxs IH]; intros s cs.
  - now intros [= <- <-].
  - cbn [map_m]. intros H. apply bind_ok in H as (c & s1 & Hslot & H).
    apply bind_ok in H as (cs' & s2 & Hrest & H). injection H as <- <-.
    intros r x Hr. eapply IH; [exact Hrest|].
    eapply next_slot_keeps_store; eauto.
Qed.

(** X15. The replacement step, when it returns, slot by slot: a creature
    whose lifespan is more than [1] is carried over with its fitness, its
    learners and the references to its genes, and with its lifespan
    reduced by one; every other creature is replaced by a creature as the
    constructor leaves it, with fitness [0], a lifespan of at least [1]
    and learners that have learned nothing. With crossover no gene object
    that existed before the step is changed by it, so the genes of a
    creature that is carried over are what they were. Without crossover
    this does not hold: an offspring is given the gene objects of its
    parent and mutates them in place. *)
Theorem replacement_step (cfg : Config) (s s' : RNG * World) :
  next_generation cfg s = (Ok tt, s') ->
  length (population (snd s')) = pop_size cfg /\
  (forall k c', population (snd s') !! k = Some c' ->
     exists c, population (snd s) !! k = Some c /\
       if (1 <? Creature.lifespan c)%Z
       then c' = Creature.set_lifespan (Creature.lifespan c - 1) c
       else newborn c') /\
  (do_crossover cfg = true ->
   forall r x, genes (snd s) !! r = Some x -> genes (snd s') !! r = Some x).
Proof.
  unfold next_generation. intros H. apply bind_ok in H as (cs & [g1 w1] & Hslots & H).
  rewrite on_self_eq in H. cbn [fst snd modify] in H. injection H as <-.
  cbn [snd population set_population genes].
  pose proof Hslots as Hlen.
  apply (map_m_post _ (fun _ => True)) in Hlen as [_ Hlen]; [|easy].
  rewrite length_seq in Hlen. split; [exact Hlen|]. split.
  - pose proof Hslots as Hrel.
    apply (next_slots_rel cfg (population (snd s))) in Hrel; [|apply NoDup_seq|auto].
    intros k c' Hk.
    destruct (Forall2_lookup_r _ _ _ _ _ Hrel Hk) as (k' & Hk' & Hc).
    apply lookup_seq in Hk' as [-> _]. exact Hc.
  - intros Hcross r x Hr.
    exact (next_slots_keep_store cfg _ s cs (g1, w1) Hcross Hslots r x Hr).
Qed.

Lemma replacement_step_witness :
  exists s, started Examples.cfg_crossover Examples.g0 = Some s /\
    fst (next_generation Examples.cfg_crossover s) = Ok tt /\
    length (population (snd (snd (next_generation Examples.cfg_crossover s)))) = 2.
Proof.
  eexists. split; [vm_compute; reflexivity|].
  match goal with |- fst (next_generation _ ?s) = _ /\ _ =>
    pose proof (replacement_step Examples.cfg_crossover s
                  (snd (next_generation Examples.cfg_crossover s))) as H
  end.
  split; [vm_compute; reflexivity|]. apply H. vm_compute; reflexivity.
Defined.

End PopulationFacts.

(** ** The matching distributions *)

Section MatchingFacts.

Lemma Qsum_ones (n : nat) : (Qsum (np.ones n) == inject_Z (Z.of_nat n))%Q.
Proof.
  induction n as [|n IH]; [reflexivity|].
  unfold np.ones in *. cbn [replicate Qsum foldr].
  change (foldr Qplus 0%Q (replicate n 1%Q)) with (Qsum (replicate n 1%Q)).
  rewrite IH, Nat2Z.inj_succ. unfold Z.succ. rewrite inject_Z_plus. ring.
Qed.

Lemma Qsum_nonneg0 (xs : list Q) : Forall (fun x => 0 <= x)%Q xs -> (0 <= Qsum xs)%Q.
Proof.
  induction 1 as [|x xs Hx _ IH]; cbn; [lra|]. change (foldr Qplus 0%Q xs) with (Qsum xs). lra.
Qed.

Lemma Qsum_ge_entry (xs : list Q) (i : nat) (x : Q) :
  Forall (fun x => 0 <= x)%Q xs -> xs !! i = Some x -> (0 <= Qsum xs /\ x <= Qsum xs)%Q.
Proof.
  intros H Hi. split; [now apply Qsum_nonneg0|]. revert i Hi.
  induction H as [|y xs Hy Hxs IH]; intros [|i]; cbn; try discriminate.
  - intros [= <-]. pose proof (Qsum_nonneg0 xs Hxs).
    change (foldr Qplus 0%Q xs) with (Qsum xs). lra.
  - intros Hx. specialize (IH i Hx). change (foldr Qplus 0%Q xs) with (Qsum xs). lra.
Qed.

(** Position [i] is marked by [matching_dist[group::num_groups] = 1]
    exactly when it lies in the group. *)
Lemma group_mark (k s i : nat) :
  k <> 0 ->
  (s mod k <=? i) && ((i - s mod k) mod k =? 0) = true <-> i mod k = s mod k.
Proof.
  intros Hk. pose proof (Nat.mod_upper_bound s k Hk) as Hlt.
  rewrite andb_true_iff, Nat.leb_le, Nat.eqb_eq. split.
  - intros [Hle Hmod]. apply Nat.Lcm0.mod_divide in Hmod as [q Hq].
    replace i with (s mod k + q * k) by lia.
    rewrite Nat.Div0.mod_add. now apply Nat.mod_small.
  - intros E. pose proof (Nat.div_mod_eq i k) as Hi. rewrite E in Hi. split; [lia|].
    replace (i - s mod k) with (i / k * k) by lia. apply Nat.Div0.mod_mul.
Qed.

Lemma group_dist_spec (n k s : nat) :
  k <> 0 -> s < n ->
  length (group_dist n k (s mod k)) = n /\
  Forall (fun x => 0 <= x)%Q (group_dist n k (s mod k)) /\
  (Qsum (group_dist n k (s mod k)) == 1)%Q /\
  forall i x, group_dist n k (s mod k) !! i = Some x ->
    ((0 < x)%Q <-> i mod k = s mod k).
Proof.
  intros Hk Hs. unfold group_dist.
  set (mark := fun i => if (s mod k <=? i) && ((i - s mod k) mod k =? 0) then 1%Q else 0%Q).
  set (marks := map mark (seq 0 n)).
  assert (Hmarks : Forall (fun x => 0 <= x)%Q marks).
  { apply Forall_map, Forall_forall. intros i _. unfold mark. cbn.
    destruct (_ && _); lra. }
  assert (Hself : marks !! s = Some 1%Q).
  { unfold marks. rewrite lookup_map, lookup_seq_lt by exact Hs. cbn. unfold mark.
    now rewrite (proj2 (group_mark k s s Hk) eq_refl). }
  destruct (Qsum_ge_entry marks s 1%Q Hmarks Hself) as [_ Hsum].
  assert (Hpos : (0 < Qsum marks)%Q) by lra.
  split; [unfold marks; now rewrite !length_map, length_seq|]. split; [|split].
  - apply Forall_map. eapply Forall_impl; [exact Hmarks|]. cbn. intros x Hx.
    apply Qle_shift_div_l; lra.
  - rewrite Qsum_map_div. field. lra.
  - intros i x. unfold marks. rewrite !lookup_map.
    destruct (seq 0 n !! i) as [j|] eqn:Hj; [|discriminate].
    apply lookup_seq in Hj as [-> _]. cbn [option_map Nat.add]. intros [= <-]. unfold mark at 1.
    rewrite <- (group_mark k s i Hk). fold marks. destruct (_ && _).
    + split; [reflexivity|]. intros _. apply Qlt_shift_div_l; lra.
    + split; [|discriminate]. intros H. exfalso.
      assert (0 / Qsum marks == 0)%Q by (field; lra). lra.
Qed.

Lemma matching_dists_spec (cfg : Config) (dists : list (list Q)) :
  make_matching_dists cfg = Ok dists ->
  matching_bias cfg = "uniform"%string \/ matching_bias cfg = "group"%string ->
  length dists = pop_size cfg /\
  forall s row, dists !! s = Some row ->
    length row = pop_size cfg /\
    Forall (fun x => 0 <= x)%Q row /\ (Qsum row == 1)%Q /\
    forall i x, row !! i = Some x ->
      ((0 < x)%Q <->
       matching_bias cfg = "uniform"%string \/
       i mod num_groups cfg = s mod num_groups cfg).
Proof.
  intros Hrun Hbias.
  unfold make_matching_dists in Hrun.
    destruct (String.eqb_spec (matching_bias cfg) "uniform") as [Eu|Hnu].
    - injection Hrun as <-. rewrite length_map, length_seq. split; [reflexivity|].
      intros s row. rewrite lookup_map.
      destruct (seq 0 (pop_size cfg) !! s) as [j|] eqn:Hj; [|discriminate].
      apply lookup_seq in Hj as [-> Hs]. cbn. intros [= <-].
      assert (Hn : (0 < inject_Z (Z.of_nat (pop_size cfg)))%Q).
      { change 0%Q with (inject_Z 0). rewrite <- Zlt_Qlt. lia. }
      split; [unfold np.ones; now rewrite length_map, length_replicate|]. split; [|split].
      + apply Forall_map. unfold np.ones. apply Forall_replicate. cbn.
        apply Qle_shift_div_l; lra.
      + rewrite Qsum_map_div, Qsum_ones. field. lra.
      + intros i x. rewrite lookup_map. unfold np.ones.
        destruct (replicate (pop_size cfg) 1%Q !! i) as [y|] eqn:Hy; [|discriminate].
        apply lookup_replicate in Hy as [-> _]. cbn. intros [= <-].
        split; [now left|]. intros _. apply Qlt_shift_div_l; lra.
    - destruct Hbias as [E|E]; [contradiction|]. rewrite E in Hrun.
      cbn [String.eqb Ascii.eqb Bool.eqb] in Hrun.
      destruct ((0 <? pop_size cfg) && (num_groups cfg =? 0)) eqn:Hz; [discriminate|].
      injection Hrun as <-. rewrite length_map, length_seq. split; [reflexivity|].
      intros s row. rewrite lookup_map.
      destruct (seq 0 (pop_size cfg) !! s) as [j|] eqn:Hj; [|discriminate].
      apply lookup_seq in Hj as [-> Hs]. cbn. intros [= <-].
      assert (Hk : num_groups cfg <> 0).
      { apply andb_false_iff in Hz as [Hz|Hz].
        - apply Nat.ltb_ge in Hz. lia.
        - now apply Nat.eqb_neq in Hz. }
      destruct (group_dist_spec (pop_size cfg) (num_groups cfg) s Hk Hs)
        as (H1 & H2 & H3 & H4).
      split; [exact H1|]. split; [exact H2|]. split; [exact H3|].
      intros i x Hx. rewrite (H4 i x Hx). split; [now right|].
      intros [Hu|Hg]; [congruence|exact Hg].
Qed.

(** X16. The matching distributions the configuration cell builds for
    ['uniform'] and for ['group']: one row per creature, with [pop_size]
    entries, none negative, that [rng.choice] accepts and answers with an
    index below [pop_size]. With ['group'] the row of creature [s] gives
    positive probability exactly to the creatures [i] with
    [i % num_groups == s % num_groups], [s] itself included; with
    ['uniform'] every entry is positive. So a creature can be matched
    with itself. *)
Theorem matching_dists_are_distributions (cfg : Config) (dists : list (list Q)) :
  make_matching_dists cfg = Ok dists ->
  matching_bias cfg = "uniform"%string \/ matching_bias cfg = "group"%string ->
  length dists = pop_size cfg /\
  forall s row, dists !! s = Some row ->
    length row = pop_size cfg /\
    Forall (fun x => 0 <= x)%Q row /\
    (forall g, exists r g', rng.choice_p (pop_size cfg) row g = (Ok r, g') /\
                            r < pop_size cfg) /\
    forall i x, row !! i = Some x ->
      ((0 < x)%Q <->
       matching_bias cfg = "uniform"%string \/ i mod num_groups cfg = s mod num_groups cfg).
Proof.
  intros Hrun Hbias. destruct (matching_dists_spec cfg dists Hrun Hbias) as [Hlen Hrows].
  split; [exact Hlen|]. intros s row Hrow.
  destruct (Hrows s row Hrow) as (H1 & H2 & H3 & H4).
  split; [exact H1|]. split; [exact H2|]. split; [|exact H4].
  intros g. apply choice_p_defined; auto.
  apply lookup_lt_Some in Hrow. lia.
Qed.

Lemma matching_dists_are_distributions_witness :
  exists dists row,
    make_matching_dists
      (mkConfig 2 2 Examples.half_half 4 1 0 30 (Gene.Literal 0) Examples.fitness_table
                Examples.reward_table 2 true 0 1 "group" 2 1) = Ok dists /\
    dists !! 1 = Some row /\ length row = 4 /\
    row = [(0 / (0 + (1 + (0 + (1 + 0)))))%Q; (1 / (0 + (1 + (0 + (1 + 0)))))%Q;
           (0 / (0 + (1 + (0 + (1 + 0)))))%Q; (1 / (0 + (1 + (0 + (1 + 0)))))%Q].
Proof.
  eexists. eexists. split; [reflexivity|]. split; [reflexivity|]. split; [|reflexivity].
  match goal with |- length ?row = 4 =>
    destruct (matching_dists_are_distributions
                (mkConfig 2 2 Examples.half_half 4 1 0 30 (Gene.Literal 0)
                          Examples.fitness_table Examples.reward_table 2 true 0 1
                          "group" 2 1) _ eq_refl ltac:(right; reflexivity)) as [_ H];
    destruct (H 1 row eq_refl) as (Hlen & _)
  end.
  exact Hlen.
Defined.

(** X17. A value of [matching_bias] other than ['uniform'] and
    ['group'] passes the configuration cell, which then builds no
    matching distribution at all; the first episode fails with
    [IndexError] at [matching_dists[sender_idx]]. With ['group'] and
    [num_groups = 0] the configuration cell itself fails: [s % num_groups]
    raises [ZeroDivisionError]. *)
Theorem matching_bias_must_be_known (cfg : Config) :
  0 < pop_size cfg ->
  (matching_bias cfg <> "uniform"%string -> matching_bias cfg <> "group"%string ->
   make_matching_dists cfg = Ok [] /\
   forall s, matching_dists (snd s) = [] -> fst (episode cfg s) = Raise IndexError) /\
  (matching_bias cfg = "group"%string -> num_groups cfg = 0 ->
   make_matching_dists cfg = Raise ZeroDivisionError /\
   forall g, exists e g', setup cfg g = (Raise e, g')).
Proof.
  intros Hpop. split.
  - intros Hu Hg. split.
    + unfold make_matching_dists. apply String.eqb_neq in Hu, Hg. now rewrite Hu, Hg.
    + intros [g w] Hd. cbn [snd] in Hd. unfold episode. unfold bind at 1.
      rewrite on_rng_eq. unfold rng.integers1.
      destruct (pop_size cfg <=? 0) eqn:Hle; [apply Nat.leb_le in Hle; lia|].
      unfold bind at 1. cbn [rng.next_uint64 fst snd ret].
      unfold bind at 1. rewrite on_self_get. cbn [snd].
      unfold bind at 1, lift at 1. unfold getitem at 1.
      destruct (population w !! _); [|reflexivity].
      unfold bind at 1, lift at 1. rewrite Hd. reflexivity.
  - intros Hg Hz. assert (Hd : make_matching_dists cfg = Raise ZeroDivisionError).
    { unfold make_matching_dists. rewrite Hg, Hz. cbn [String.eqb Ascii.eqb Bool.eqb].
      apply Nat.ltb_lt in Hpop. now rewrite Hpop. }
    split; [exact Hd|]. intros g. unfold setup, bind.
    destruct (SignalingGameEnv.__init__ _ _ _ g) as [[e|ex] g1]; [|eauto].
    unfold lift at 1. rewrite Hd. eauto.
Qed.

Lemma matching_bias_must_be_known_witness :
  make_matching_dists
    (mkConfig 2 2 Examples.half_half 2 1 0 30 (Gene.Literal 0) Examples.fitness_table
              Examples.reward_table 2 true 0 1 "groups" 5 1) = Ok [] /\
  fst (notebook (mkConfig 2 2 Examples.half_half 2 1 0 30 (Gene.Literal 0)
                          Examples.fitness_table Examples.reward_table 2 true 0 1
                          "groups" 5 1) Examples.g0) = Raise IndexError.
Proof.
  destruct (matching_bias_must_be_known
              (mkConfig 2 2 Examples.half_half 2 1 0 30 (Gene.Literal 0)
                        Examples.fitness_table Examples.reward_table 2 true 0 1
                        "groups" 5 1)) as [H _]; [cbn; lia|].
  destruct H as [H _]; [discriminate|discriminate|].
  split; [exact H|]. vm_compute. reflexivity.
Defined.

End MatchingFacts.

(** ** Mutation, entry by entry *)

Section MutationFacts.
Import Gene.

(** X18. [mutate] with any rate on a gene with ordered bounds and values
    of its shape: the call returns, the size, the bounds and the shape
    are kept, and every entry is either the entry that was there or a
    value within the bounds. An entry that was outside the bounds (after a
    literal initial value outside them) can stay outside. *)
Theorem mutate_entries (rate : Q) (g : RNG) (self : t) :
  gene_ok self = true ->
  exists self' g', mutate rate (g, self) = (Ok tt, (g', self')) /\
    size self' = size self /\ min_val self' = min_val self /\
    max_val self' = max_val self /\ init_values self' = init_values self /\
    gene_ok self' = true /\
    forall i j v, entry (values self') i j = Some v ->
      entry (values self) i j = Some v \/ (min_val self <= v /\ v <= max_val self)%Q.
Proof.
  intros Hok.
  destruct (mutate_defined rate g self Hok) as (u & g1 & fresh & g2 & vs & Hu & Hf & Hw & Hrun).
  exists (set_values vs self), g2. split; [exact Hrun|]. cbn [size min_val max_val
    init_values set_values values]. repeat split.
  - apply uniform_post in Hf as [Hshape _]. unfold gene_ok. cbn.
    apply andb_true_iff in Hok as [Hb _]. rewrite Hb. cbn.
    exact (where_shape _ _ _ _ _ Hw Hshape).
  - intros i j v Hv.
    destruct (where_pick _ _ _ _ Hw i j v Hv) as (m & x & y & _ & Hx & Hy & ->).
    destruct m; [right|now left].
    apply uniform_post in Hf as [_ Hin]. apply within_Forall in Hin.
    rewrite Forall_entries in Hin. exact (Hin i j x Hx).
Qed.

Lemma mutate_entries_witness :
  exists self' g', mutate (1 # 2) (Examples.g0, Examples.gene_b) = (Ok tt, (g', self')) /\
    forall i j v, entry (values self') i j = Some v ->
      v = 30%Q \/ (0 <= v /\ v <= 30)%Q.
Proof.
  destruct (mutate_entries (1 # 2) Examples.g0 Examples.gene_b eq_refl)
    as (self' & g' & Hrun & _ & _ & _ & _ & _ & H).
  exists self', g'. split; [exact Hrun|]. intros i j v Hv.
  destruct (H i j v Hv) as [Hold|Hin]; [left|right; exact Hin].
  destruct i as [|[|i]], j as [|[|j]]; cbn in Hold; try congruence;
    try (destruct j; discriminate); destruct i; discriminate.
Defined.

End MutationFacts.

(** ** The size of the tournament *)

Section TournamentFacts.

Lemma swap_length (xs : list nat) (i j : nat) : length (rng.swap xs i j) = length xs.
Proof.
  unfold rng.swap. destruct (xs !! i); [|reflexivity]. destruct (xs !! j); [|reflexivity].
  now rewrite !length_insert.
Qed.

Lemma shuffle_prefix_ok (k i : nat) (xs : list nat) (g : RNG) :
  exists ys g', rng.shuffle_prefix k i xs g = (Ok ys, g') /\ length ys = length xs.
Proof.
  revert i xs g. induction k as [|k IH]; intros i xs g; cbn [rng.shuffle_prefix].
  - now exists xs, g.
  - unfold bind. cbn [rng.next_uint64].
    match goal with |- context [rng.shuffle_prefix k ?i' ?xs' ?g'] =>
      destruct (IH i' xs' g') as (ys & g2 & -> & Hlen)
    end.
    exists ys, g2. split; [reflexivity|]. now rewrite Hlen, swap_length.
Qed.

(** A tournament no larger than the population is drawn. *)
Lemma choice_without_replacement_ok (n k : nat) (g : RNG) :
  k <= n ->
  exists picks g', rng.choice_without_replacement n k g = (Ok picks, g') /\ length picks = k.
Proof.
  intros Hk. unfold rng.choice_without_replacement.
  destruct (n <? k) eqn:E; [apply Nat.ltb_lt in E; lia|]. unfold bind.
  destruct (shuffle_prefix_ok k 0 (seq 0 n) g) as (ys & g' & -> & Hlen).
  exists (take k ys), g'. split; [reflexivity|].
  rewrite length_take, Hlen, length_seq. lia.
Qed.

Lemma insert_by_fitness_length (x : Creature.t) (xs : list Creature.t) :
  length (insert_by_fitness x xs) = S (length xs).
Proof.
  induction xs as [|y xs IH]; cbn; [reflexivity|].
  destruct (Qle_bool _ _); cbn; [reflexivity|]. now rewrite IH.
Qed.

Lemma sorted_by_fitness_desc_length (xs : list Creature.t) :
  length (sorted_by_fitness_desc xs) = length xs.
Proof.
  induction xs as [|x xs IH]; cbn; [reflexivity|].
  unfold sorted_by_fitness_desc in IH. now rewrite insert_by_fitness_length, IH.
Qed.

Lemma map_m_getitem {S A} (xs : list A) (picks : list nat) (s : S) :
  (exists ys, map_m (fun k => lift (getitem xs k)) picks s = (Ok ys, s) /\
              length ys = length picks) \/
  map_m (fun k => lift (getitem xs k)) picks s = (Raise IndexError, s).
Proof.
  induction picks as [|k picks IH]; [left; now exists []|].
  assert (Hstep : map_m (fun k => lift (getitem xs k)) (k :: picks) s =
                  match xs !! k with
                  | Some x =>
                      match map_m (fun k => lift (getitem xs k)) picks s with
                      | (Ok ys, s') => (Ok (x :: ys), s')
                      | (Raise e, s') => (Raise e, s')
                      end
                  | None => (Raise IndexError, s)
                  end).
  { cbn [map_m]. unfold bind at 1, lift at 1, getitem at 1.
    destruct (xs !! k); reflexivity. }
  rewrite Hstep. destruct (xs !! k) as [x|]; [|now right].
  destruct IH as [(ys & -> & Hlen) | ->]; [|now right].
  left. exists (x :: ys). cbn. split; [reflexivity|]. now rewrite Hlen.
Qed.

Lemma dict_get_raise {A} (d : dict A) (key : string) (e : exn) :
  dict_get d key = Raise e -> e = KeyError.
Proof.
  induction d as [|[k v] d IH]; cbn; [congruence|].
  destruct (String.eqb k key); [discriminate|exact IH].
Qed.

(** X19. How the size of the tournament can make the replacement of an
    expired creature fail. A tournament larger than the population is
    refused by [rng.choice(..., replace=False)] with [ValueError], before
    anything is changed. With crossover a tournament of fewer than two
    has no second winner: [winners[0]] or [winners[1]] raises
    [IndexError] (or the parent lacks the role: [KeyError]). Without
    crossover an empty tournament makes [max] raise [ValueError]. *)
Theorem tournament_size_matters (cfg : Config) (i : nat) (g : RNG) (w : World)
    (c : Creature.t) :
  population w !! i = Some c -> (Creature.lifespan c <= 1)%Z ->
  (length (population w) < tornament_size cfg ->
   next_slot cfg i (g, w) = (Raise ValueError, (g, w))) /\
  (tornament_size cfg <= length (population w) -> tornament_size cfg < 2 ->
   do_crossover cfg = true -> SignalingGameEnv.agent_names (env w) <> [] ->
   fst (next_slot cfg i (g, w)) = Raise IndexError \/
   fst (next_slot cfg i (g, w)) = Raise KeyError) /\
  (tornament_size cfg = 0 -> do_crossover cfg = false ->
   fst (next_slot cfg i (g, w)) = Raise ValueError).
Proof.
  intros Hc Hl.
  assert (Hexp : (1 <? Creature.lifespan c)%Z = false) by (apply Z.ltb_ge; lia).
  assert (Hstart : forall k : list nat -> M (RNG * World) Creature.t,
    next_slot cfg i (g, w) =
      (let* picks := on_rng (rng.choice_without_replacement (length (population w))
                                                           (tornament_size cfg)) in
       let* tournament := map_m (fun k => lift (getitem (population w) k)) picks in
       let roles := SignalingGameEnv.agent_names (env w) in
       let* new_genes :=
         if do_crossover cfg then
           let winners := take 2 (sorted_by_fitness_desc tournament) in
           on_store (crossover_genes roles winners)
         else
           let* winner := lift (max_by_fitness tournament) in
           ret (Creature.bias_genes winner) in
       for_each roles (fun role =>
         let* ref := lift (dict_get new_genes role) in
         on_store (mutate_ref ref (mutation_rate cfg))) ;;
       on_store (Creature.__init__ new_genes (lifespan_mean cfg))) (g, w)).
  { intros _. unfold next_slot. unfold bind at 1. rewrite on_self_get. cbn [snd].
    unfold bind at 1, lift at 1. unfold getitem at 1. now rewrite Hc, Hexp. }
  rewrite (Hstart (fun _ => ret c)). clear Hstart. split; [|split].
  - intros Hbig. unfold bind at 1. rewrite on_rng_eq. unfold rng.choice_without_replacement.
    apply Nat.ltb_lt in Hbig. now rewrite Hbig.
  - intros Hfit Hsmall Hcross Hroles. rewrite Hcross.
    match goal with |- fst ?t = _ \/ _ =>
      enough (H : exists e, fst t = Raise e /\ (e = IndexError \/ e = KeyError))
        by (destruct H as (e & -> & [-> | ->]); auto)
    end.
    unfold bind at 1. rewrite on_rng_eq.
    destruct (choice_without_replacement_ok _ _ g Hfit) as (picks & g1 & -> & Hpicks).
    cbn [fst snd]. unfold bind at 1.
    destruct (map_m_getitem (population w) picks (g1, w)) as [(ys & -> & Hys) | ->];
      [|exists IndexError; auto].
    unfold bind at 1. rewrite on_store_eq.
    destruct (SignalingGameEnv.agent_names (env w)) as [|role roles]; [congruence|].
    set (winners := take 2 (sorted_by_fitness_desc ys)).
    assert (Hw : length winners < 2).
    { unfold winners. rewrite length_take, sorted_by_fitness_desc_length. lia. }
    assert (Hgenes : exists e, fst (crossover_genes (role :: roles) winners (g1, genes w))
                                 = Raise e /\ (e = IndexError \/ e = KeyError)).
    { unfold crossover_genes. unfold bind at 1, lift at 1, getitem at 1.
      destruct (winners !! 0) as [w0|]; [|exists IndexError; auto].
      unfold bind at 1, lift at 1.
      destruct (dict_get (Creature.bias_genes w0) role) as [a|e] eqn:Ha.
      - unfold bind at 1, lift at 1, getitem at 1.
        rewrite (lookup_ge_None_2 winners 1) by lia. exists IndexError; auto.
      - exists e. split; [reflexivity|]. right. now apply dict_get_raise in Ha. }
    destruct Hgenes as (e & He & Hor).
    destruct (crossover_genes _ _ _) as [[d|e'] s1]; cbn [fst] in *; [discriminate|].
    injection He as ->. now exists e.
  - intros Hzero Hcross. rewrite Hcross, Hzero.
    unfold bind at 1. rewrite on_rng_eq. unfold rng.choice_without_replacement.
    cbn [Nat.ltb Nat.leb rng.shuffle_prefix]. unfold bind at 1. cbn [ret fst snd take].
    reflexivity.
Qed.

Lemma tournament_size_matters_witness :
  exists s, started Examples.cfg_large_tournament Examples.g0 = Some s /\
    next_slot Examples.cfg_large_tournament 0 s = (Raise ValueError, s).
Proof.
  eexists. split; [vm_compute; reflexivity|].
  match goal with |- next_slot _ _ (?g, ?w) = _ =>
    destruct (tournament_size_matters Examples.cfg_large_tournament 0 g w _
                ltac:(vm_compute; reflexivity) ltac:(vm_compute; discriminate)) as [H _]
  end.
  apply H. vm_compute. lia.
Defined.

End TournamentFacts.

(** ** A valid configuration runs to the end *)

Section RunFacts.






(** *** Reading the configuration *)


Lemma dict_get_set {A} (d : dict A) (key k : string) (v : A) :
  dict_get (dict_set d key v) k = if String.eqb key k then Ok v else dict_get d k.
Proof.
  induction d as [|[k0 x] d IH]; cbn.
  - reflexivity.
  - destruct (String.eqb_spec k0 key) as [->|Hne]; cbn.
    + destruct (String.eqb key k); reflexivity.
    + rewrite IH. destruct (String.eqb_spec k0 k) as [->|Hne'].
      * apply String.eqb_neq in Hne. rewrite String.eqb_sym in Hne. now rewrite Hne.
      * reflexivity.
Qed.






(** *** Lenses *)

Lemma on_env_eq {A} (m : M (RNG * SignalingGameEnv.t) A) (g : RNG) (w : World) :
  on_env m (g, w) =
    (fst (m (g, env w)),
     (fst (snd (m (g, env w))), set_env (snd (snd (m (g, env w)))) w)).
Proof.
  unfold on_env, on_world, zoom. cbn [fst snd]. now destruct (m (g, env w)) as [r [g' e]].
Qed.

Lemma on_agent_eq {A} (idx : nat) (name : string) (m : M (RNG * UrnAgent.t) A)
    (g : RNG) (w : World) (c : Creature.t) (a : UrnAgent.t) :
  population w !! idx = Some c -> dict_get (Creature.agents c) name = Ok a ->
  on_agent idx name m (g, w) =
    (fst (m (g, a)),
     (fst (snd (m (g, a))),
      set_population
        (<[idx := Creature.set_agents
                    (dict_set (Creature.agents c) name (snd (snd (m (g, a))))) c]>
           (population w)) w)).
Proof.
  intros Hc Ha. unfold on_agent. rewrite (on_creature_eq idx _ g w c Hc).
  unfold zoom. cbn [fst snd]. rewrite Ha. now destruct (m (g, a)) as [r [g' a']].
Qed.

(** *** Creatures and worlds in order *)







(** *** The calls on a learner in order *)









(** *** One turn and the loop of an episode *)






(** *** Credit after an episode *)












(** *** An episode *)





End RunFacts.

(** *** Genes in the store *)

Section StoreRunFacts.










End StoreRunFacts.

(** *** A creature from genes in order *)

Section BirthFacts.




(** *** The tournament *)




End BirthFacts.

(** *** The replacement step *)

Section ReplacementRunFacts.






End ReplacementRunFacts.

(** *** Generations and the whole run *)

Section WholeRunFacts.











End WholeRunFacts.

(** ** What an episode pays *)

Section EpisodeEffect.

Lemma fitnesses_creature (w : World) (idx : nat) (c c' : Creature.t) :
  population w !! idx = Some c -> Creature.fitness c' = Creature.fitness c ->
  fitnesses (set_population (<[idx := c']> (population w)) w) = fitnesses w.
Proof. intros Hc H. unfold fitnesses. cbn. now apply (map_insert_same Creature.fitness _ idx c). Qed.

Lemma settled_creature (w : World) (idx : nat) (c c' : Creature.t) :
  population w !! idx = Some c -> Creature.fitness c' = Creature.fitness c ->
  settled (set_population (<[idx := c']> (population w)) w) = settled w.
Proof.
  intros Hc H. unfold settled. now rewrite (fitnesses_creature w idx c c' Hc H).
Qed.

Lemma while_invariant (P : RNG * World -> Prop) (fuel : nat) (body : M (RNG * World) unit) :
  (forall s u s', P s -> body s = (Ok u, s') -> P s') ->
  forall s u s', P s -> while_not_done fuel body s = (Ok u, s') -> P s'.
Proof.
  intros Hbody. induction fuel as [|fuel IH]; intros s u s' Hs; cbn [while_not_done];
    unfold bind at 1; rewrite on_self_get; destruct (SignalingGameEnv.done (env (snd s)));
    try (intros [= _ <-]; exact Hs); try discriminate.
  intros H. apply bind_ok in H as (u1 & s1 & H1 & H). eapply IH; [|exact H]. eauto.
Qed.

Lemma step_names (a : nat) (e e' : SignalingGameEnv.t) :
  SignalingGameEnv.step a e = (Ok tt, e') ->
  SignalingGameEnv.agent_names e' = SignalingGameEnv.agent_names e.
Proof.
  unfold SignalingGameEnv.step, bind, get, modify.
  destruct (SignalingGameEnv.done e); [discriminate|].
  destruct (String.eqb _ _); [now intros [= <-]|].
  destruct (String.eqb _ _); now intros [= <-].
Qed.

Lemma on_creature_ok {A} (idx : nat) (m : M (RNG * Creature.t) A) (s s' : RNG * World)
    (a : A) :
  on_creature idx m s = (Ok a, s') ->
  exists c, population (snd s) !! idx = Some c /\
    m (fst s, c) = (Ok a, (fst s', snd (snd (m (fst s, c))))) /\
    snd s' = set_population (<[idx := snd (snd (m (fst s, c)))]> (population (snd s))) (snd s).
Proof.
  destruct s as [g w]. cbn [fst snd].
  destruct (population w !! idx) as [c|] eqn:Hc.
  - rewrite (on_creature_eq idx m g w c Hc). intros [= H1 <-]. exists c. cbn [fst snd].
    split; [reflexivity|]. split; [|reflexivity].
    destruct (m (g, c)) as [r [g1 c1]]. cbn in *. now subst.
  - unfold on_creature, on_world, zoom, getitem. cbn [fst snd]. rewrite Hc. discriminate.
Qed.

Lemma pay_length (idx : nat) (x : Q) (fs : list Q) : length (pay idx x fs) = length fs.
Proof. unfold pay. destruct (fs !! idx); [apply length_insert|reflexivity]. Qed.

(** What [credit] does to the fitness: the creature playing the role is
    paid, and nothing else of the ledger or the environment changes. *)
Lemma credit_effect (cfg : Config) (creatures : dict nat) (role : string) (idx : nat)
    (s s' : RNG * World) :
  dict_get creatures role = Ok idx ->
  credit cfg creatures role s = (Ok tt, s') ->
  exists f,
    fitness_paid cfg (truthy (SignalingGameEnv.success (env (snd s)))) role = Ok f /\
    idx < length (population (snd s)) /\
    fitnesses (snd s') = pay idx f (fitnesses (snd s)) /\
    log_success (snd s') = log_success (snd s) /\ env (snd s') = env (snd s).
Proof.
  intros Hidx H. unfold credit in H.
  apply bind_ok in H as (w0 & s0 & H0 & H). rewrite on_self_get in H0.
  injection H0 as <- <-.
  apply bind_ok in H as (f & s1 & Hf & H).
  assert (Hpaid : fitness_paid cfg (truthy (SignalingGameEnv.success (env (snd s)))) role = Ok f
                  /\ s1 = s).
  { unfold fitness_paid. destruct (truthy _).
    - unfold lift in Hf. destruct (dict_get (success_fitness cfg) role); now inversion Hf.
    - now inversion Hf. }
  destruct Hpaid as [Hpaid ->]. clear Hf.
  apply bind_ok in H as (idx' & s1 & Hi & H). unfold lift in Hi. rewrite Hidx in Hi.
  injection Hi as <- <-.
  apply bind_ok in H as ([] & s2 & Hpay & H).
  apply on_creature_ok in Hpay as (c & Hc & _ & Hs2). rewrite on_self_eq in Hs2.
  cbn [fst snd modify] in Hs2.
  match type of H with ?tail _ = _ => assert (Hkv : keeps_view settled tail) end.
  { set (R := fun c c' : Creature.t => Creature.fitness c' = Creature.fitness c).
    assert (Hag : forall i name B (m : M (RNG * UrnAgent.t) B),
               keeps_view settled (on_agent i name m)).
    { intros i name B m. apply (kv_on_agent settled R); try easy. exact settled_creature. }
    assert (Hlog : forall d name x set, (forall v w, settled (set v w) = settled w) ->
               keeps_view settled
                 (let* logs := lift (log_append d name x) in on_self (modify (set logs)))).
    { intros d name x set Hset. now apply kv_log. }
    apply kv_bind; [apply kv_if; [apply kv_lift|apply kv_ret]|]. intros reward.
    apply kv_bind; [apply Hag|]. intros _.
    apply kv_bind.
    { apply kv_bind; [apply kv_get|]. intros w1. now apply Hlog. }
    intros _. apply kv_bind; [apply kv_get|]. intros w'.
    apply kv_bind.
    { repeat apply kv_if; repeat (apply kv_bind; [apply kv_attr|]; intros ?);
        auto using kv_ret, kv_raise. }
    intros obs_choice.
    apply kv_bind.
    { apply (kv_on_creature settled R); [exact settled_creature|].
      intros [g c0]. now rewrite on_self_get. }
    intros c0.
    apply kv_bind; [apply kv_lift|]. intros ref.
    apply kv_bind; [apply kv_deref|]. intros g.
    apply kv_bind; [apply kv_lift|]. intros row.
    apply kv_bind; [apply kv_lift|]. intros choice_bias.
    apply kv_bind; [apply kv_if; now apply Hlog|]. intros _. apply Hag. }
  specialize (Hkv s2). rewrite H in Hkv. cbn [snd] in Hkv. rewrite Hs2 in Hkv.
  unfold settled in Hkv. cbn [env log_success set_population] in Hkv.
  injection Hkv as Hfit Hlogs Henv.
  exists f. split; [exact Hpaid|]. split; [now apply lookup_lt_Some in Hc|].
  split; [|split; assumption].
  rewrite Hfit. unfold fitnesses, pay. cbn [population set_population].
  rewrite list_lookup_fmap, Hc. cbn. now rewrite list_fmap_insert.
Qed.

(** The turns of an episode: the ledger and the roles stay, and
    [success] says whether the receiver's action is the hidden state. *)
Lemma loop_effect (creatures : dict nat) (s s' : RNG * World) :
  SignalingGameEnv.done (env (snd s)) = false ->
  SignalingGameEnv.agent_selection (env (snd s)) = "sender"%string ->
  while_not_done 2 (turn creatures) s = (Ok tt, s') ->
  ledger (snd s') = ledger (snd s) /\
  SignalingGameEnv.agent_names (env (snd s')) = SignalingGameEnv.agent_names (env (snd s)) /\
  SignalingGameEnv.state (env (snd s')) = SignalingGameEnv.state (env (snd s)) /\
  exists a, SignalingGameEnv.action (env (snd s')) = Some a /\
    SignalingGameEnv.success (env (snd s')) =
      Some (SignalingGameEnv.state (env (snd s)) =? a).
Proof.
  intros Hd Hs H. split; [|split].
  - set (R := fun c c' : Creature.t => Creature.fitness c' = Creature.fitness c).
    assert (Hkv : keeps_view ledger (while_not_done 2 (turn creatures))).
    { apply kv_while. apply (kv_turn ledger R); try easy.
      intros w idx c c' Hc Hcc. unfold ledger. now rewrite (fitnesses_creature w idx c c' Hc Hcc). }
    specialize (Hkv s). now rewrite H in Hkv.
  - refine (while_invariant
             (fun x => SignalingGameEnv.agent_names (env (snd x))
                       = SignalingGameEnv.agent_names (env (snd s))) _ _ _ s tt s' eq_refl H).
    intros x u x' Hx Hturn. apply turn_stepped in Hturn as [a Ha].
    apply step_names in Ha. now rewrite Ha.
  - destruct (while_is_two_turns creatures 0 s Hd Hs) as (r & s1 & Hrun & _ & Hok).
    rewrite H in Hrun. injection Hrun as <- <-.
    destruct (Hok eq_refl) as (m & a & _ & Ha & _ & Hst & Hsucc). eauto.
Qed.

Lemma reset_effect (g : RNG) (w : World) (s' : RNG * World) :
  on_env SignalingGameEnv.reset (g, w) = (Ok tt, s') ->
  exists st g', s' = (g', set_env (SignalingGameEnv.set_agent_selection "sender"
                            (SignalingGameEnv.set_done false
                               (SignalingGameEnv.set_success None
                                  (SignalingGameEnv.set_state st (env w))))) w).
Proof.
  rewrite on_env_eq. cbn [fst snd].
  destruct (SignalingGameEnv.reset _) as [[[]|e] [g3 e3]] eqn:E; [|discriminate].
  cbn [fst snd]. intros [= <-]. apply reset_ok in E as (st & _ & ->). now exists st, g3.
Qed.

(** The steps of an episode that completes. *)
Lemma episode_steps (cfg : Config) (g : RNG) (w : World) (s' : RNG * World) :
  SignalingGameEnv.agent_names (env w) = ["sender"; "receiver"]%string ->
  episode cfg (g, w) = (Ok tt, s') ->
  exists i j dist s3 s4 s6,
    fst (rng.integers1 0 (pop_size cfg) g) = Ok i /\
    matching_dists w !! i = Some dist /\
    fst (rng.choice_p (length (population w)) dist
           (snd (rng.integers1 0 (pop_size cfg) g))) = Ok j /\
    i < length (population w) /\
    on_env SignalingGameEnv.reset
      (snd (rng.choice_p (length (population w)) dist
              (snd (rng.integers1 0 (pop_size cfg) g))), w) = (Ok tt, s3) /\
    while_not_done 2 (turn [("sender"%string, i); ("receiver"%string, j)]) s3 = (Ok tt, s4) /\
    credit cfg [("sender"%string, i); ("receiver"%string, j)] "sender"
      (fst s4,
       set_log_success
         (log_success (snd s4) ++
          [if truthy (SignalingGameEnv.success (env (snd s4))) then 1 else 0]) (snd s4))
      = (Ok tt, s6) /\
    credit cfg [("sender"%string, i); ("receiver"%string, j)] "receiver" s6 = (Ok tt, s').
Proof.
  intros Hnames H. unfold episode in H.
  apply bind_ok in H as (i & s1 & Hi & H). rewrite on_rng_eq in Hi. injection Hi as Hi <-.
  apply bind_ok in H as (w0 & s1 & H0 & H). rewrite on_self_get in H0. injection H0 as <- <-.
  cbn [snd] in H.
  apply bind_ok in H as (c & s1 & Hc & H). unfold lift, getitem in Hc.
  destruct (population w !! i) as [c0|] eqn:Hci; [|discriminate]. injection Hc as _ <-.
  apply bind_ok in H as (dist & s1 & Hdist & H). unfold lift, getitem in Hdist.
  destruct (matching_dists w !! i) as [d0|] eqn:Hdi; [|discriminate]. injection Hdist as <- <-.
  apply bind_ok in H as (j & s1 & Hj & H). rewrite on_rng_eq in Hj. injection Hj as Hj <-.
  apply bind_ok in H as ([] & s3 & Hreset & H).
  destruct (reset_starts_episode _ _ _ Hreset) as [Hd Hs].
  destruct (reset_effect _ _ _ Hreset) as (st & g3 & ->).
  apply bind_ok in H as ([] & s4 & Hloop & H).
  destruct (loop_effect _ _ _ Hd Hs Hloop) as (_ & Hnm4 & _).
  destruct s4 as [g4 w4]. cbn [fst snd] in *.
  apply bind_ok in H as ([] & s5 & Hlog & H).
  unfold bind in Hlog. rewrite on_self_get, on_self_eq in Hlog. cbn [fst snd modify] in Hlog.
  injection Hlog as <-.
  apply bind_ok in H as (w5 & s6 & Hget & H). rewrite on_self_get in Hget.
  injection Hget as <- <-. cbn [fst snd env set_log_success] in H.
  rewrite Hnm4 in H. cbn [env set_env SignalingGameEnv.agent_names
    SignalingGameEnv.set_agent_selection SignalingGameEnv.set_done
    SignalingGameEnv.set_success SignalingGameEnv.set_state] in H.
  rewrite Hnames in H. cbn [for_each] in H.
  apply bind_ok in H as ([] & s6 & Hsender & H).
  apply bind_ok in H as ([] & s7 & Hreceiver & H). injection H as <-.
  exists i, j, d0. eexists. exists (g4, w4), s6. cbn [fst snd].
  split; [exact Hi|]. split; [exact Hdi|]. split; [exact Hj|].
  split; [now apply lookup_lt_Some in Hci|]. split; [exact Hreset|]. split; [exact Hloop|].
  split; [exact Hsender|exact Hreceiver].
Qed.

(** X22. What an episode that completes has done. The sender is the
    creature at the index drawn first, the receiver the one drawn from the
    sender's matching distribution (it can be the sender itself). The
    environment holds the receiver's action, and [success] says whether
    it is the hidden state. One entry is appended to [log_success]: 1 on
    success, 0 otherwise. The fitness of the sender grows by
    [success_fitness] of its role and then that of the receiver by
    [success_fitness] of its role on success, and by 0 otherwise; no other
    creature's fitness changes. *)
Theorem episode_pays_the_pair (cfg : Config) (s s' : RNG * World) :
  SignalingGameEnv.agent_names (env (snd s)) = ["sender"; "receiver"]%string ->
  episode cfg s = (Ok tt, s') ->
  exists i j dist a ok fs fr,
    fst (rng.integers1 0 (pop_size cfg) (fst s)) = Ok i /\
    matching_dists (snd s) !! i = Some dist /\
    fst (rng.choice_p (length (population (snd s))) dist
           (snd (rng.integers1 0 (pop_size cfg) (fst s)))) = Ok j /\
    i < length (population (snd s)) /\ j < length (population (snd s)) /\
    SignalingGameEnv.action (env (snd s')) = Some a /\
    ok = (SignalingGameEnv.state (env (snd s')) =? a) /\
    SignalingGameEnv.success (env (snd s')) = Some ok /\
    log_success (snd s') = log_success (snd s) ++ [if ok then 1 else 0] /\
    fitness_paid cfg ok "sender" = Ok fs /\ fitness_paid cfg ok "receiver" = Ok fr /\
    fitnesses (snd s') = pay j fr (pay i fs (fitnesses (snd s))).
Proof.
  destruct s as [g w]. cbn [fst snd]. intros Hnames H.
  destruct (episode_steps cfg g w s' Hnames H)
    as (i & j & dist & s3 & [g4 w4] & s6 & Hi & Hdist & Hj & Hilt & Hreset & Hloop & Hsender
        & Hreceiver).
  destruct (reset_starts_episode _ _ _ Hreset) as [Hd Hs].
  destruct (reset_effect _ _ _ Hreset) as (st & g3 & ->).
  apply loop_effect in Hloop as (Hled4 & _ & Hst4 & a & Ha & Hsucc); [|exact Hd|exact Hs].
  apply (credit_effect cfg _ _ i) in Hsender as (fs & Hfs & _ & Hfit6 & Hlog6 & Henv6);
    [|reflexivity].
  apply (credit_effect cfg _ _ j) in Hreceiver as (fr & Hfr & Hjlt & Hfit7 & Hlog7 & Henv7);
    [|reflexivity].
  cbn [fst snd env set_log_success log_success] in *.
  rewrite Henv6 in Hfr, Henv7. rewrite Hsucc in Hfs, Hfr.
  injection Hled4 as Hfit4 Hlog4.
  assert (Hfit5 : fitnesses (set_log_success
                     (log_success w4 ++
                      [if truthy (SignalingGameEnv.success (env w4)) then 1 else 0]) w4)
                  = fitnesses w) by (etransitivity; [exact Hfit4|reflexivity]).
  rewrite Hfit5 in Hfit6. rewrite Hfit6 in Hfit7.
  assert (Hlen : length (population (snd s6)) = length (population w)).
  { rewrite <- (length_map Creature.fitness (population (snd s6))).
    fold (fitnesses (snd s6)). rewrite Hfit6, pay_length. apply length_map. }
  rewrite Hlen in Hjlt. rewrite Hsucc in Hlog6. rewrite Hlog6, Hlog4 in Hlog7.
  cbn [snd env set_env SignalingGameEnv.state SignalingGameEnv.set_agent_selection
    SignalingGameEnv.set_done SignalingGameEnv.set_success SignalingGameEnv.set_state
    log_success] in *.
  set (ok := st =? a) in *.
  exists i, j, dist, a, ok, fs, fr.
  split; [exact Hi|]. split; [exact Hdist|]. split; [exact Hj|].
  split; [exact Hilt|]. split; [exact Hjlt|].
  rewrite Henv7.
  split; [exact Ha|]. split; [unfold ok; now rewrite Hst4|]. split; [exact Hsucc|].
  split; [rewrite Hlog7; now destruct ok|].
  split; [now destruct ok|]. split; [now destruct ok|]. exact Hfit7.
Qed.

Lemma episode_pays_the_pair_witness :
  exists s, started Examples.cfg_crossover Examples.g0 = Some s /\
    fst (episode Examples.cfg_crossover s) = Ok tt /\
    exists i j ok fs fr,
      fitness_paid Examples.cfg_crossover ok "sender" = Ok fs /\
      fitness_paid Examples.cfg_crossover ok "receiver" = Ok fr /\
      fitnesses (snd (snd (episode Examples.cfg_crossover s)))
        = pay j fr (pay i fs (fitnesses (snd s))).
Proof.
  eexists. split; [vm_compute; reflexivity|].
  match goal with |- fst (episode _ ?s) = _ /\ _ =>
    pose proof (episode_pays_the_pair Examples.cfg_crossover s
                  (snd (episode Examples.cfg_crossover s))) as H
  end.
  split; [vm_compute; reflexivity|].
  destruct H as (i & j & dist & a & ok & fs & fr & H);
    [vm_compute; reflexivity|vm_compute; reflexivity|].
  exists i, j, ok, fs, fr. tauto.
Defined.

(** *** What an episode teaches *)

Lemma learner_at_creature (k : nat) (r : string) (w : World) (idx : nat)
    (c c' : Creature.t) :
  population w !! idx = Some c -> Creature.agents c' = Creature.agents c ->
  learner_at k r (set_population (<[idx := c']> (population w)) w) = learner_at k r w.
Proof.
  intros Hc H. unfold learner_at. cbn [population set_population].
  destruct (decide (idx = k)) as [->|Hne].
  - rewrite list_lookup_insert_eq by (now apply lookup_lt_Some in Hc). now rewrite Hc, H.
  - now rewrite list_lookup_insert_ne by auto.
Qed.

Lemma between_calls_creature (k : nat) (r : string) (w : World) (idx : nat)
    (c c' : Creature.t) :
  population w !! idx = Some c -> Creature.agents c' = Creature.agents c ->
  between_calls k r (set_population (<[idx := c']> (population w)) w) = between_calls k r w.
Proof.
  intros Hc H. unfold between_calls. now rewrite (learner_at_creature k r w idx c c' Hc H).
Qed.

Lemma learners_but_same (idx : nat) (role : string) (a : UrnAgent.t) (w w' : World) :
  learner_at idx role w = Some a -> learners_but idx role a w w' ->
  forall k r, learner_at k r w' = learner_at k r w.
Proof.
  intros Ha H k r. rewrite H. destruct (Nat.eqb_spec k idx) as [->|]; [|reflexivity].
  destruct (String.eqb_spec role r) as [<-|]; [|reflexivity]. now rewrite Ha.
Qed.

Lemma learners_but_after (idx : nat) (role : string) (a : UrnAgent.t) (w w1 w2 : World) :
  (forall k r, learner_at k r w1 = learner_at k r w) ->
  learners_but idx role a w1 w2 -> learners_but idx role a w w2.
Proof. intros H1 H2 k r. now rewrite H2, H1. Qed.

Lemma on_agent_ok {A} (idx : nat) (role : string) (m : M (RNG * UrnAgent.t) A)
    (s s' : RNG * World) (x : A) :
  on_agent idx role m s = (Ok x, s') ->
  exists a a', learner_at idx role (snd s) = Some a /\
    m (fst s, a) = (Ok x, (fst s', a')) /\
    settled (snd s') = settled (snd s) /\
    learners_but idx role a' (snd s) (snd s').
Proof.
  destruct s as [g w]. cbn [fst snd]. intros H.
  destruct (population w !! idx) as [c|] eqn:Hc.
  2:{ unfold on_agent, on_creature, on_world, zoom, getitem in H. cbn [fst snd] in H.
      rewrite Hc in H. discriminate. }
  destruct (dict_get (Creature.agents c) role) as [a|e] eqn:Ha.
  2:{ unfold on_agent in H. rewrite (on_creature_eq idx _ g w c Hc) in H. unfold zoom in H.
      cbn [fst snd] in H. rewrite Ha in H. discriminate. }
  rewrite (on_agent_eq idx role m g w c a Hc Ha) in H.
  destruct (m (g, a)) as [r [g' a']] eqn:Hm. cbn [fst snd] in H. injection H as -> <-.
  exists a, a'. cbn [fst snd]. split; [unfold learner_at; now rewrite Hc, Ha|].
  split; [exact Hm|]. split; [now apply settled_creature with (c := c)|].
  intros k r. unfold learner_at. cbn [population set_population].
  destruct (Nat.eqb_spec k idx) as [->|Hne]; cbn [andb].
  - rewrite list_lookup_insert_eq by (now apply lookup_lt_Some in Hc).
    cbn [Creature.agents Creature.set_agents]. rewrite dict_get_set, Hc.
    now destruct (String.eqb role r).
  - now rewrite list_lookup_insert_ne by auto.
Qed.

(** A turn: the learner of the creature that plays the role whose turn it
    is stores the move; no other learner changes. *)
Lemma turn_teaches (creatures : dict nat) (s s' : RNG * World) :
  turn creatures s = (Ok tt, s') ->
  exists idx obs action a,
    dict_get creatures (SignalingGameEnv.agent_selection (env (snd s))) = Ok idx /\
    fst (SignalingGameEnv.observe (SignalingGameEnv.agent_selection (env (snd s)))
           (env (snd s))) = Ok (Some obs) /\
    SignalingGameEnv.step action (env (snd s)) = (Ok tt, env (snd s')) /\
    learner_at idx (SignalingGameEnv.agent_selection (env (snd s))) (snd s) = Some a /\
    learners_but idx (SignalingGameEnv.agent_selection (env (snd s)))
      (snd (UrnAgent.store_buffer obs action a)) (snd s) (snd s').
Proof.
  destruct s as [g w]. cbn [fst snd]. intros H. unfold turn in H.
  apply bind_ok in H as (w0 & s1 & H0 & H). rewrite on_self_get in H0. injection H0 as <- <-.
  cbn [snd] in H. set (role := SignalingGameEnv.agent_selection (env w)) in *.
  apply bind_ok in H as (obs & s1 & Hobs & H). rewrite on_env_eq, on_self_eq in Hobs.
  cbn [fst snd] in Hobs. rewrite observe_keeps in Hobs. injection Hobs as Hobs <-.
  apply bind_ok in H as (idx & s1 & Hidx & H). unfold lift in Hidx.
  destruct (dict_get creatures role) as [idx0|] eqn:Hrole; [|discriminate].
  injection Hidx as -> <-.
  apply bind_ok in H as (a0 & [g2 w2] & Hget & H).
  apply on_agent_ok in Hget as (a & a' & Ha & Hm & Hset2 & Hl2). cbn [fst snd] in *.
  rewrite on_self_get in Hm. injection Hm as _ _ <-.
  pose proof (learners_but_same _ _ _ _ _ Ha Hl2) as Hsame2.
  destruct obs as [obs|]; [|discriminate].
  apply bind_ok in H as (action & [g3 w3] & Hact & H).
  apply on_agent_ok in Hact as (a3 & a3' & Ha3 & Hm3 & Hset3 & Hl3). cbn [fst snd] in *.
  assert (a3' = a3) as ->.
  { pose proof (get_action_frame obs g2 a3) as Hf. now rewrite Hm3 in Hf. }
  pose proof (learners_but_same _ _ _ _ _ Ha3 Hl3) as Hsame3.
  apply bind_ok in H as ([] & [g4 w4] & Hstep & H).
  rewrite on_env_eq, on_self_eq in Hstep. cbn [fst snd] in Hstep.
  destruct (SignalingGameEnv.step action (env w3)) as [[[]|e] e4] eqn:Hst; [|discriminate].
  cbn [fst snd] in Hstep. injection Hstep as <- <-.
  apply on_agent_ok in H as (a5 & a5' & Ha5 & Hm5 & Hset5 & Hl5). cbn [fst snd] in *.
  rewrite on_self_eq in Hm5. injection Hm5 as _ <-.
  assert (Henv3 : env w3 = env w).
  { injection Hset3 as _ _ ->. now injection Hset2 as _ _ ->. }
  assert (Ha5' : a5 = a).
  { change (learner_at idx role w3 = Some a5) in Ha5. rewrite Hsame3, Hsame2 in Ha5.
    congruence. }
  subst a5.
  exists idx, obs, action, a. split; [reflexivity|]. split; [exact Hobs|].
  split.
  { injection Hset5 as _ _ ->. cbn [env set_env]. now rewrite <- Henv3. }
  split; [exact Ha|].
  intros k r. rewrite (Hl5 k r). destruct ((k =? idx) && String.eqb role r); [reflexivity|].
  change (learner_at k r w3 = learner_at k r w). now rewrite Hsame3, Hsame2.
Qed.

Lemma then_runs_bind {A} (m : M (RNG * World) A) (k : A -> M (RNG * World) unit)
    (last : M (RNG * World) unit) :
  (forall i r, keeps_view (between_calls i r) m) ->
  (forall a, then_runs (k a) last) -> then_runs (bind m k) last.
Proof.
  intros Hm Hk s s' H. apply bind_ok in H as (a & s1 & H1 & H).
  destruct (Hk a s1 s' H) as (s2 & Hsame & Hlast). exists s2. split; [|exact Hlast].
  intros i r. rewrite Hsame. specialize (Hm i r s). now rewrite H1 in Hm.
Qed.

Lemma then_runs_last (last : M (RNG * World) unit) : then_runs last last.
Proof. intros s s' H. now exists s. Qed.

Lemma paid_ok (b : bool) (o : outcome Q) (s s1 : RNG * World) (x : Q) :
  (if b then lift o else ret 0%Q) s = (Ok x, s1) ->
  (if b then o else Ok 0%Q) = Ok x /\ s1 = s.
Proof.
  destruct b; [unfold lift; destruct o; now intros [= <- <-]|now intros [= <- <-]].
Qed.

(** [credit] and the learner: the reward is added to the last record of
    its buffer and it is trained; no other learner changes. *)
Lemma credit_teaches (cfg : Config) (creatures : dict nat) (role : string) (idx : nat)
    (s s' : RNG * World) :
  dict_get creatures role = Ok idx ->
  credit cfg creatures role s = (Ok tt, s') ->
  exists x a a',
    reward_paid cfg (truthy (SignalingGameEnv.success (env (snd s)))) role = Ok x /\
    learner_at idx role (snd s) = Some a /\
    UrnAgent.train (snd (UrnAgent.update_reward x a)) = (Ok tt, a') /\
    learners_but idx role a' (snd s) (snd s').
Proof.
  destruct s as [g w]. cbn [fst snd]. intros Hidx H. unfold credit in H.
  apply bind_ok in H as (w0 & s0 & H0 & H). rewrite on_self_get in H0.
  injection H0 as <- <-. cbn [snd] in H.
  apply bind_ok in H as (f & s1 & Hf & H). apply paid_ok in Hf as [_ ->].
  apply bind_ok in H as (idx' & s1 & Hi & H). unfold lift in Hi. rewrite Hidx in Hi.
  injection Hi as <- <-.
  apply bind_ok in H as ([] & [g2 w2] & Hpay & H).
  apply on_creature_ok in Hpay as (c & Hc & _ & Hw2). rewrite on_self_eq in Hw2.
  cbn [fst snd modify] in Hw2.
  assert (Hsame2 : forall k r, learner_at k r w2 = learner_at k r w).
  { intros k r. rewrite Hw2. now apply learner_at_creature with (c := c). }
  apply bind_ok in H as (x & s3 & Hx & H). apply paid_ok in Hx as [Hx ->].
  apply bind_ok in H as ([] & [g4 w4] & Hupd & H).
  apply on_agent_ok in Hupd as (a & a1 & Ha & Hm & Hset4 & Hl4). cbn [fst snd] in *.
  rewrite on_self_eq in Hm. injection Hm as _ _ <-.
  rewrite Hsame2 in Ha.
  set (R := fun c c' : Creature.t => Creature.agents c' = Creature.agents c).
  assert (Hlog : forall d name v set i r,
             (forall v w, between_calls i r (set v w) = between_calls i r w) ->
             keeps_view (between_calls i r)
               (let* logs := lift (log_append d name v) in on_self (modify (set logs)))).
  { intros d name v set i r Hset. now apply kv_log. }
  match type of H with
  | ?tail _ = _ =>
      assert (Htail : then_runs tail (on_agent idx role (on_self UrnAgent.train)))
  end.
  { apply then_runs_bind.
    { intros i r. apply kv_bind; [apply kv_get|]. intros w1. now apply Hlog. }
    intros _. apply then_runs_bind; [intros i r; apply kv_get|]. intros w'.
    apply then_runs_bind.
    { intros i r. repeat apply kv_if; repeat (apply kv_bind; [apply kv_attr|]; intros ?);
        auto using kv_ret, kv_raise. }
    intros obs_choice. apply then_runs_bind.
    { intros i r. apply (kv_on_creature (between_calls i r) R).
      - intros w1 k c1 c2 Hc1 Hc2. now apply between_calls_creature with (c := c1).
      - intros [g0 c0]. now rewrite on_self_get. }
    intros c0. apply then_runs_bind; [intros i r; apply kv_lift|]. intros ref.
    apply then_runs_bind; [intros i r; apply kv_deref|]. intros gene.
    apply then_runs_bind; [intros i r; apply kv_lift|]. intros row.
    apply then_runs_bind; [intros i r; apply kv_lift|]. intros choice_bias.
    apply then_runs_bind; [intros i r; apply kv_if; now apply Hlog|]. intros _.
    apply then_runs_last. }
  apply Htail in H as ([g5 w5] & Hsame5 & Htrain). cbn [snd] in Hsame5.
  apply on_agent_ok in Htrain as (a5 & a5' & Ha5 & Hm5 & Hset5 & Hl5). cbn [fst snd] in *.
  rewrite on_self_eq in Hm5.
  assert (Hsame54 : forall k r, learner_at k r w5 = learner_at k r w4).
  { intros k r. specialize (Hsame5 k r). now injection Hsame5. }
  assert (a5 = snd (UrnAgent.update_reward x a)) as ->.
  { rewrite Hsame54, (Hl4 idx role), Nat.eqb_refl, String.eqb_refl in Ha5. now injection Ha5. }
  exists x, a, a5'. split; [exact Hx|]. split; [exact Ha|]. split.
  { destruct (UrnAgent.train _) as [r1 a6]. cbn [fst snd] in Hm5. now injection Hm5 as -> _ ->. }
  intros k r. rewrite (Hl5 k r), Hsame54, (Hl4 k r), Hsame2.
  now destruct ((k =? idx) && String.eqb role r).
Qed.

(** The two turns: the sender's learner stores (state, message), the
    receiver's (message, action). *)
Lemma loop_teaches (i j : nat) (s s' : RNG * World) :
  SignalingGameEnv.done (env (snd s)) = false ->
  SignalingGameEnv.agent_selection (env (snd s)) = "sender"%string ->
  while_not_done 2 (turn [("sender"%string, i); ("receiver"%string, j)]) s = (Ok tt, s') ->
  exists m a as0 ar0,
    learner_at i "sender" (snd s) = Some as0 /\
    learner_at j "receiver" (snd s) = Some ar0 /\
    SignalingGameEnv.message (env (snd s')) = Some m /\
    SignalingGameEnv.action (env (snd s')) = Some a /\
    forall k r, learner_at k r (snd s') =
      if (k =? j) && String.eqb "receiver" r
      then Some (snd (UrnAgent.store_buffer m a ar0))
      else if (k =? i) && String.eqb "sender" r
           then Some (snd (UrnAgent.store_buffer (SignalingGameEnv.state (env (snd s))) m as0))
           else learner_at k r (snd s).
Proof.
  intros Hd Hs H. rewrite (while_unfold _ _ _ Hd) in H.
  destruct (turn _ s) as [[[]|e] s1] eqn:Ht1; [|discriminate].
  apply turn_teaches in Ht1 as (idx & obs & m & as0 & Hidx & Hobs & Hstep & Has0 & Hl1).
  rewrite Hs in Hidx, Hobs, Has0, Hl1. injection Hidx as <-.
  injection Hobs as <-. rewrite (step_sender m _ Hd Hs) in Hstep. injection Hstep as He1.
  assert (Hd1 : SignalingGameEnv.done (env (snd s1)) = false) by (now rewrite <- He1).
  assert (Hs1 : SignalingGameEnv.agent_selection (env (snd s1)) = "receiver"%string)
    by (now rewrite <- He1).
  rewrite (while_unfold _ _ _ Hd1) in H.
  destruct (turn _ s1) as [[[]|e] s2] eqn:Ht2; [|discriminate].
  apply turn_teaches in Ht2 as (idx & obs & a & ar0 & Hidx & Hobs & Hstep & Har0 & Hl2).
  rewrite Hs1 in Hidx, Hobs, Har0, Hl2. injection Hidx as <-.
  rewrite <- He1 in Hobs. injection Hobs as <-.
  rewrite (step_receiver a _ Hd1 Hs1) in Hstep. injection Hstep as He2.
  rewrite while_done in H by (now rewrite <- He2). injection H as <-.
  rewrite (Hl1 j "receiver"%string) in Har0. rewrite andb_false_r in Har0.
  exists m, a, as0, ar0. split; [exact Has0|]. split; [exact Har0|].
  split; [now rewrite <- He2, <- He1|]. split; [now rewrite <- He2|].
  intros k r. now rewrite (Hl2 k r), (Hl1 k r).
Qed.

Lemma lesson_eq (obs choice : nat) (reward : Q) (a : UrnAgent.t) :
  lesson obs choice reward a
  = UrnAgent.train (snd (UrnAgent.update_reward reward (snd (UrnAgent.store_buffer obs choice a)))).
Proof.
  unfold lesson, bind. cbn [UrnAgent.store_buffer modify fst snd].
  destruct (update_reward_eq reward
              (UrnAgent.set_train_buf (UrnAgent.train_buf a ++ [(obs, choice, 0%Q)]) a))
    as (buf & -> & _). reflexivity.
Qed.

(** X23. What an episode that completes has taught. With the sender and
    the receiver drawn as the loop draws them, the learner the sender uses
    in the role of sender has been given one lesson, [store_buffer(state,
    message)], [update_reward(reward)] and [train()], and the learner of
    the receiver in the role of receiver one lesson on [(message,
    action)]; the reward is [success_reward] of the role when the action
    was the state and 0 otherwise. Every other learner of the population,
    the other learner of the two creatures included, is what it was. *)
Theorem episode_teaches_the_pair (cfg : Config) (s s' : RNG * World) :
  SignalingGameEnv.agent_names (env (snd s)) = ["sender"; "receiver"]%string ->
  episode cfg s = (Ok tt, s') ->
  exists i j dist m a ok rs rr as0 as1 ar0 ar1,
    fst (rng.integers1 0 (pop_size cfg) (fst s)) = Ok i /\
    matching_dists (snd s) !! i = Some dist /\
    fst (rng.choice_p (length (population (snd s))) dist
           (snd (rng.integers1 0 (pop_size cfg) (fst s)))) = Ok j /\
    SignalingGameEnv.message (env (snd s')) = Some m /\
    SignalingGameEnv.action (env (snd s')) = Some a /\
    SignalingGameEnv.success (env (snd s')) = Some ok /\
    reward_paid cfg ok "sender" = Ok rs /\ reward_paid cfg ok "receiver" = Ok rr /\
    learner_at i "sender" (snd s) = Some as0 /\
    learner_at j "receiver" (snd s) = Some ar0 /\
    lesson (SignalingGameEnv.state (env (snd s'))) m rs as0 = (Ok tt, as1) /\
    lesson m a rr ar0 = (Ok tt, ar1) /\
    forall k r, learner_at k r (snd s') =
      if (k =? i) && String.eqb "sender" r then Some as1
      else if (k =? j) && String.eqb "receiver" r then Some ar1
      else learner_at k r (snd s).
Proof.
  destruct s as [g w]. cbn [fst snd]. intros Hnames H.
  destruct (episode_steps cfg g w s' Hnames H)
    as (i & j & dist & s3 & [g4 w4] & s6 & Hi & Hdist & Hj & Hilt & Hreset & Hloop & Hsender
        & Hreceiver).
  destruct (reset_starts_episode _ _ _ Hreset) as [Hd Hs].
  destruct (reset_effect _ _ _ Hreset) as (st & g3 & ->).
  destruct (loop_effect _ _ _ Hd Hs Hloop) as (_ & _ & Hst4 & a' & Ha' & Hsucc).
  destruct (loop_teaches _ _ _ _ Hd Hs Hloop) as (m & a & as0 & ar0 & Has0 & Har0 & Hm & Ha & Hl4).
  rewrite Ha in Ha'. injection Ha' as <-.
  pose proof Hsender as Henv6. pose proof Hreceiver as Henv7.
  apply (credit_effect cfg _ _ i) in Henv6 as (_ & _ & _ & _ & _ & Henv6); [|reflexivity].
  apply (credit_effect cfg _ _ j) in Henv7 as (_ & _ & _ & _ & _ & Henv7); [|reflexivity].
  apply (credit_teaches cfg _ _ i) in Hsender as (rs & a5 & as1 & Hrs & Ha5 & Htrain5 & Hl6);
    [|reflexivity].
  apply (credit_teaches cfg _ _ j) in Hreceiver as (rr & a7 & ar1 & Hrr & Ha7 & Htrain7 & Hl7);
    [|reflexivity].
  cbn [fst snd env set_log_success set_env SignalingGameEnv.state
    SignalingGameEnv.set_agent_selection SignalingGameEnv.set_done
    SignalingGameEnv.set_success SignalingGameEnv.set_state] in *.
  rewrite Henv6 in Hrr, Henv7. rewrite Hsucc in Hrs, Hrr.
  change (learner_at i "sender" w4 = Some a5) in Ha5.
  rewrite (Hl4 i "sender"%string), andb_false_r, Nat.eqb_refl in Ha5. injection Ha5 as <-.
  rewrite (Hl6 j "receiver"%string), andb_false_r in Ha7.
  change (learner_at j "receiver" w4 = Some a7) in Ha7.
  rewrite (Hl4 j "receiver"%string), Nat.eqb_refl in Ha7. injection Ha7 as <-.
  exists i, j, dist, m, a, (st =? a), rs, rr, as0, as1, ar0, ar1.
  split; [exact Hi|]. split; [exact Hdist|]. split; [exact Hj|]. rewrite Henv7.
  split; [exact Hm|]. split; [exact Ha|]. split; [exact Hsucc|].
  split; [now destruct (st =? a)|]. split; [now destruct (st =? a)|].
  split; [exact Has0|]. split; [exact Har0|].
  split; [now rewrite lesson_eq, Hst4|]. split; [now rewrite lesson_eq|].
  intros k r. rewrite (Hl7 k r), (Hl6 k r).
  change (learner_at k r (set_log_success _ w4)) with (learner_at k r w4).
  rewrite (Hl4 k r).
  destruct (String.eqb_spec "sender" r) as [Hsr|Hsr];
    destruct (String.eqb_spec "receiver" r) as [Hr|Hr];
    [rewrite <- Hsr in Hr; discriminate|..];
    destruct (k =? i), (k =? j); reflexivity.
Qed.

Lemma episode_teaches_the_pair_witness :
  exists s, started Examples.cfg_crossover Examples.g0 = Some s /\
    fst (episode Examples.cfg_crossover s) = Ok tt /\
    exists i st m rs as0 as1,
      learner_at i "sender" (snd s) = Some as0 /\
      lesson st m rs as0 = (Ok tt, as1) /\
      learner_at i "sender" (snd (snd (episode Examples.cfg_crossover s))) = Some as1.
Proof.
  eexists. split; [vm_compute; reflexivity|].
  match goal with |- fst (episode _ ?s) = _ /\ _ =>
    pose proof (episode_teaches_the_pair Examples.cfg_crossover s
                  (snd (episode Examples.cfg_crossover s))) as H
  end.
  split; [vm_compute; reflexivity|].
  destruct H as (i & j & dist & m & a & ok & rs & rr & as0 & as1 & ar0 & ar1 & H);
    [vm_compute; reflexivity|vm_compute; reflexivity|].
  destruct H as (_ & _ & _ & _ & _ & _ & _ & _ & Has0 & _ & Hlesson & _ & Hall).
  exists i. eexists. exists m, rs, as0, as1. split; [exact Has0|]. split; [exact Hlesson|].
  rewrite (Hall i "sender"%string), Nat.eqb_refl. reflexivity.
Defined.

End EpisodeEffect.
